(** * local-stt-mcp: chunked transcription assembly and diarization alignment

    A shallow embedding of [src/mcp-server/src/whisper/integration.ts]:
    the class [TranscriptionAssembler] (assembly of per-chunk transcripts,
    overlap removal, VTT/SRT timestamps) and the class [DiarizationAlignment]
    (speaker assignment, label normalisation, merge pass).

    Modelling conventions.
    - A JavaScript [number] that carries a time, a duration or a ratio is a
      rational ([Q]), the exact value of the binary64 number; a [number] that
      is always integral (a chunk index, a hash, the result of [Math.floor])
      is an integer ([Z]), with the 32-bit wrap-around of [<<] and [&]
      written out.
    - Where the code turns a number into text, the binary64 arithmetic is
      written out: the quotients and the product of [formatTimestamp] and the
      value of [parseInt] are rounded to the nearest binary64 number, ties to
      even ([Binary64.round]); [parseInt] overflows to [Infinity];
      [toString] prints the shortest digits that read back as the same
      number, in exponent notation from 1e21 on.  The remainder [%] of two
      binary64 numbers is exact.  Elsewhere (comparisons of times, overlaps,
      offsets, chunk starts) sums, differences and quotients are kept exact.
      [NaN] is outside the model.
    - A JavaScript string is a [string]: a sequence of code units, here
      restricted to the range 0..255.
    - An optional property ([segments?], [language?], an option left out) is
      an [option].
    - A [for] loop over an array is a [fold_left] whose accumulator holds the
      variables the loop assigns. *)

From Stdlib Require Import ZArith QArith Qround Qminmax Qpower Lia Lqa.
From Stdlib Require Import List Bool Ascii String DecimalString Sorted.
From Stdlib Require Import Permutation DecimalPos SpecFloat.
Import ListNotations.

Local Open Scope string_scope.
Local Open Scope Z_scope.
Local Open Scope Q_scope.
Local Open Scope list_scope.

(** ** Binary64 numbers: rounding to the nearest, ties to even *)

Module Binary64.

Definition pow2 (e : Z) : Q := 2 ^ e.

(** The binade of a positive number: the [b] with [2^b <= x < 2^(b+1)]. *)
Definition binade (x : Q) : Z :=
  let d := (Z.log2 (Qnum x) - Z.log2 (Zpos (Qden x)))%Z in
  if Qle_bool (pow2 d) x then d else (d - 1)%Z.

(** The nearest integer, the even one of two that are equally near. *)
Definition roundHalfEven (q : Q) : Z :=
  let f := Qfloor q in
  match Qcompare (q - inject_Z f) (1 # 2) with
  | Lt => f
  | Gt => (f + 1)%Z
  | Eq => if Z.even f then f else (f + 1)%Z
  end.

(** The exponent of the last place: 53 significant bits, and never below
    the step [2^-1074] of the subnormal numbers. *)
Definition ulpExponent (x : Q) : Z := Z.max (binade x - 52) (-1074).

Definition roundPositive (x : Q) : Q :=
  let e := ulpExponent x in
  inject_Z (roundHalfEven (x / pow2 e)) * pow2 e.

(** The binary64 number nearest to [x].  From [2^1024] on the result stands
    for an infinity. *)
Definition round (x : Q) : Q :=
  match Qnum x with
  | Z0 => 0
  | Zpos _ => roundPositive x
  | Zneg _ => - roundPositive (- x)
  end.

(** The rationals that are the value of a finite binary64 number. *)
Definition representable (x : Q) : Prop :=
  round x == x /\ - pow2 1024 < x /\ x < pow2 1024.

(** The floating-point numbers of the Standard Library, with 53 bits of
    precision and exponents up to 1024: the value of a finite one, and the
    one nearest to a rational whose denominator is a power of two. *)
Definition valueOf (f : spec_float) : Q :=
  match f with
  | S754_finite s m e => (if s then -1 else 1) * inject_Z (Zpos m) * pow2 e
  | _ => 0
  end.

Definition ofDyadic (x : Q) : spec_float :=
  binary_normalize 53 1024 (Qnum x) (- Z.log2 (Zpos (Qden x))) false.

(** On [x], [round] gives the quotients by 3600 and by 60 and the product
    with 1000 that the division and the multiplication of the Standard
    Library give. *)
Definition agreesWithLibrary (x : Q) : bool :=
  Qeq_bool (valueOf (ofDyadic x)) x
  && Qeq_bool (valueOf (SFdiv 53 1024 (ofDyadic x) (ofDyadic 3600)))
       (round (x / 3600))
  && Qeq_bool (valueOf (SFdiv 53 1024 (ofDyadic x) (ofDyadic 60)))
       (round (x / 60))
  && Qeq_bool (valueOf (SFmul 53 1024 (ofDyadic x) (ofDyadic 1000)))
       (round (x * 1000)).

End Binary64.

(** ** JavaScript primitives used by the source *)

Module JS.

(** [x < y], [x > y], [x >= y] on numbers. *)
Definition ltb (x y : Q) : bool := negb (Qle_bool y x).
Definition gtb (x y : Q) : bool := ltb y x.
Definition geb (x y : Q) : bool := Qle_bool y x.

(** [Math.floor]. *)
Definition floor (x : Q) : Z := Qfloor x.

(** Truncation towards zero, and the remainder operator [%], which takes
    the sign of the dividend; the remainder of two binary64 numbers is a
    binary64 number, no rounding takes place. *)
Definition trunc (x : Q) : Z := Z.quot (Qnum x) (Zpos (Qden x)).
Definition rem (a b : Q) : Q := a - b * inject_Z (trunc (a / b)).

(** [x / y] and [x * y]: the exact result, rounded. *)
Definition div (x y : Q) : Q := Binary64.round (x / y).
Definition mul (x y : Q) : Q := Binary64.round (x * y).

(** ToInt32: what [x & x] and [x << n] reduce an integral number to. *)
Definition toInt32 (z : Z) : Z :=
  ((z + 2147483648) mod 4294967296 - 2147483648)%Z.

(** [x << 5] on an integral number. *)
Definition shl5 (z : Z) : Z := toInt32 (toInt32 z * 32).

Fixpoint repeatChar (c : ascii) (n : nat) : string :=
  match n with
  | O => EmptyString
  | S k => String c (repeatChar c k)
  end.

(** The decimal digits of an integer. *)
Definition decimal (z : Z) : string :=
  NilZero.string_of_int (Z.to_int z).

(** [n.toString()] for an integral number [n >= 2^53].  The digits are
    those of the least number of digits [s], followed by [j] zeros, such that
    [s * 10^j] reads back as [x]; of two such [s] the one nearer to [x], the
    even one when they are equally near. *)
Definition roundsTo (v x : Z) : bool :=
  Qeq_bool (Binary64.round (inject_Z v)) (inject_Z x).

Definition candidate (x : Z) (j : nat) : option (Z * nat) :=
  let p := (10 ^ Z.of_nat j)%Z in
  let lo := (x / p)%Z in
  let hi := (lo + 1)%Z in
  let okLo := roundsTo (lo * p) x in
  let okHi := roundsTo (hi * p) x in
  if okLo && okHi then
    match (x - lo * p ?= hi * p - x)%Z with
    | Lt => Some (lo, j)
    | Gt => Some (hi, j)
    | Eq => if Z.even lo then Some (lo, j) else Some (hi, j)
    end
  else if okLo then Some (lo, j)
  else if okHi then Some (hi, j)
  else None.

Fixpoint shortest (x : Z) (j : nat) : Z * nat :=
  match candidate x j with
  | Some r => r
  | None =>
      match j with
      | O => (x, O)
      | S j' => shortest x j'
      end
  end.

Fixpoint stripTrailingZeros (s : string) : string :=
  match s with
  | EmptyString => EmptyString
  | String c r =>
      match stripTrailingZeros r with
      | EmptyString => if Ascii.eqb c "0" then EmptyString else String c EmptyString
      | r' => String c r'
      end
  end.

(** Up to 21 digits the number is written out with its zeros; from 1e21 on
    it is written [d.ddde+n]. *)
Definition toStringLarge (x : Z) : string :=
  let '(s, j) := shortest x (String.length (decimal x) - 1) in
  let digits := decimal s in
  let n := (String.length digits + j)%nat in
  if (n <=? 21)%nat then (digits ++ repeatChar "0" j)%string
  else
    match stripTrailingZeros digits with
    | String c EmptyString => String c ("e+" ++ decimal (Z.of_nat (n - 1)))
    | String c r => String c ("." ++ r ++ "e+" ++ decimal (Z.of_nat (n - 1)))
    | EmptyString => digits
    end.

(** [n.toString()] for an integral number: its decimal digits below 2^53,
    where every integer is a binary64 number. *)
Definition toString (z : Z) : string :=
  if (Z.abs z <? 2 ^ 53)%Z then decimal z
  else if (z <? 0)%Z then ("-" ++ toStringLarge (- z))%string
  else toStringLarge z.

(** [s.padStart(n, '0')]. *)
Definition padStart (n : nat) (s : string) : string :=
  (repeatChar "0" (n - String.length s) ++ s)%string.

Definition isDigit (c : ascii) : bool :=
  let n := nat_of_ascii c in (48 <=? n)%nat && (n <=? 57)%nat.

(** White space as [trim] sees it within the code units 0..255: TAB, LF,
    VT, FF, CR, SPACE and NO-BREAK SPACE. *)
Definition isWhiteSpace (c : ascii) : bool :=
  let n := nat_of_ascii c in
  ((9 <=? n)%nat && (n <=? 13)%nat) || (n =? 32)%nat || (n =? 160)%nat.

Fixpoint trimStart (s : string) : string :=
  match s with
  | EmptyString => EmptyString
  | String c r => if isWhiteSpace c then trimStart r else s
  end.

Fixpoint trimEnd (s : string) : string :=
  match s with
  | EmptyString => EmptyString
  | String c r =>
      match trimEnd r with
      | EmptyString => if isWhiteSpace c then EmptyString else String c EmptyString
      | r' => String c r'
      end
  end.

(** [s.trim()]. *)
Definition trim (s : string) : string := trimEnd (trimStart s).

(** A string is truthy when it is not empty. *)
Definition truthy (s : string) : bool :=
  match s with EmptyString => false | _ => true end.

(** [s.split('\n')]: always at least one piece. *)
Fixpoint splitLines (s : string) : list string :=
  match s with
  | EmptyString => [EmptyString]
  | String c r =>
      if Ascii.eqb c "010" then EmptyString :: splitLines r
      else match splitLines r with
           | h :: t => String c h :: t
           | [] => [String c EmptyString]
           end
  end.

Definition newline : string := String "010" EmptyString.

(** [a.join('\n')]. *)
Definition joinLines (l : list string) : string :=
  String.concat newline l.

(** [a.findIndex(p)], with [None] for -1. *)
Fixpoint findIndex {A : Type} (p : A -> bool) (l : list A) : option nat :=
  match l with
  | [] => None
  | x :: r => if p x then Some O else option_map S (findIndex p r)
  end.

(** [a[a.length - 1]], with [None] for [undefined]. *)
Fixpoint lastElement {A : Type} (l : list A) : option A :=
  match l with
  | [] => None
  | [x] => Some x
  | _ :: r => lastElement r
  end.

(** [s.startsWith(' ')] and [s.endsWith(' ')]. *)
Definition startsWithSpace (s : string) : bool :=
  match s with
  | String c _ => Ascii.eqb c " "
  | EmptyString => false
  end.

Fixpoint endsWithSpace (s : string) : bool :=
  match s with
  | EmptyString => false
  | String c EmptyString => Ascii.eqb c " "
  | String _ r => endsWithSpace r
  end.

(** The integer that a string of decimal digits denotes. *)
Definition digitValue (c : ascii) : Z := Z.of_nat (nat_of_ascii c - 48).

Fixpoint parseDigits (acc : Z) (s : string) : Z :=
  match s with
  | EmptyString => acc
  | String c r => parseDigits (10 * acc + digitValue c)%Z r
  end.

(** An integral number, or [Infinity]. *)
Inductive number : Type :=
  | Finite (z : Z)
  | Infinity.

(** [parseInt] on a string of decimal digits: the binary64 number nearest
    to the integer the digits denote.  (Past twenty significant digits the
    language lets an implementation read the further digits as zeros; the
    model rounds the integer itself, as V8 does.) *)
Definition parseInt (s : string) : number :=
  let r := Binary64.round (inject_Z (parseDigits 0%Z s)) in
  if Qle_bool (Binary64.pow2 1024) r then Infinity else Finite (Qfloor r).

(** [n.toString()] on the result of [parseInt]. *)
Definition numberToString (n : number) : string :=
  match n with
  | Finite z => toString z
  | Infinity => "Infinity"
  end.

(** The capture of [s.match(/(\d+)/)]: the leftmost maximal run of digits,
    [None] when the string has no digit. *)
Fixpoint takeDigits (s : string) : string :=
  match s with
  | EmptyString => EmptyString
  | String c r => if isDigit c then String c (takeDigits r) else EmptyString
  end.

Fixpoint matchDigits (s : string) : option string :=
  match s with
  | EmptyString => None
  | String c r => if isDigit c then Some (takeDigits s) else matchDigits r
  end.

End JS.

(** ** Data model ([src/mcp-server/src/types/index.ts]) *)

(** An element of [TranscriptionResult.segments]. *)
Module Segment.
Record t : Type := mk { start : Q; end_ : Q; text : string }.
End Segment.

Module TranscriptionResult.
Record t : Type := mk {
  text : string;
  segments : option (list Segment.t);
  language : option string;
  model_used : string;
  processing_time : Q
}.
End TranscriptionResult.

Module DiarizationSegment.
Record t : Type := mk { start : Q; end_ : Q; speaker : string }.
End DiarizationSegment.

Module SpeakerSegment.
Record t : Type := mk {
  text : string;
  speaker : string;
  start : Q;
  end_ : Q;
  confidence : Q
}.
End SpeakerSegment.

(** ** class DiarizationAlignment *)

Module DiarizationAlignment.

Import SpeakerSegment.

(** [AlignmentOptions]: every property may be left out. *)
Record AlignmentOptions : Type := mkAlignmentOptions {
  overlapThreshold : option Q;
  mergeThreshold : option Q;
  confidenceThreshold : option Q
}.

(** The destructuring defaults of [alignTranscriptionWithSpeakers]. *)
Definition overlapThresholdOf (o : AlignmentOptions) : Q :=
  match overlapThreshold o with Some x => x | None => 1 # 10 end.
Definition mergeThresholdOf (o : AlignmentOptions) : Q :=
  match mergeThreshold o with Some x => x | None => 1 end.
Definition confidenceThresholdOf (o : AlignmentOptions) : Q :=
  match confidenceThreshold o with Some x => x | None => 1 # 10 end.

(** [calculateOverlap(seg1, seg2)]. *)
Definition calculateOverlap (seg1 : Segment.t) (seg2 : DiarizationSegment.t) : Q :=
  let overlapStart := Qmax (Segment.start seg1) (DiarizationSegment.start seg2) in
  let overlapEnd := Qmin (Segment.end_ seg1) (DiarizationSegment.end_ seg2) in
  Qmax 0 (overlapEnd - overlapStart).

(** [hashString(str)]: the loop keeps [hash] a 32-bit integer. *)
Definition hashStep (hash : Z) (c : ascii) : Z :=
  JS.toInt32 (JS.shl5 hash - hash + Z.of_nat (nat_of_ascii c))%Z.

Definition hashString (str : string) : Z :=
  Z.abs (fold_left hashStep (list_ascii_of_string str) 0%Z).

(** [normalizeSpeakerLabel(label)]. *)
Definition normalizeSpeakerLabel (label : string) : string :=
  match JS.matchDigits label with
  | Some digits =>
      let num := JS.parseInt digits in
      ("speaker" ++ JS.padStart 2 (JS.numberToString num))%string
  | None =>
      let hash := hashString label in
      let num := (Z.rem hash 10 + 1)%Z in
      ("speaker" ++ JS.padStart 2 (JS.toString num))%string
  end.

(** The merge test of [postProcessAlignment]. *)
Definition mergeable (mergeThreshold : Q) (current segment : SpeakerSegment.t) : bool :=
  String.eqb (speaker current) (speaker segment)
  && JS.ltb (start segment - end_ current) mergeThreshold.

(** The three assignments of the merging branch. *)
Definition mergeInto (current segment : SpeakerSegment.t) : SpeakerSegment.t :=
  {| text := (text current ++ " " ++ text segment)%string;
     speaker := speaker current;
     start := start current;
     end_ := end_ segment;
     confidence := Qmin (confidence current) (confidence segment) |}.

(** One iteration of the loop of [postProcessAlignment], on the pair
    ([processed], [current]). *)
Definition mergeStep (mergeThreshold : Q)
    (st : list SpeakerSegment.t * option SpeakerSegment.t)
    (segment : SpeakerSegment.t)
    : list SpeakerSegment.t * option SpeakerSegment.t :=
  let '(processed, current) := st in
  match current with
  | Some cur =>
      if mergeable mergeThreshold cur segment
      then (processed, Some (mergeInto cur segment))
      else (processed ++ [cur], Some segment)
  | None => (processed, Some segment)
  end.

(** [postProcessAlignment(segments, mergeThreshold)]. *)
Definition postProcessAlignment (segments : list SpeakerSegment.t)
    (mergeThreshold : Q) : list SpeakerSegment.t :=
  match segments with
  | [] => segments
  | _ =>
      let '(processed, current) :=
        fold_left (mergeStep mergeThreshold) segments ([], None) in
      match current with
      | Some cur => processed ++ [cur]
      | None => processed
      end
  end.

(** The inner loop of [alignTranscriptionWithSpeakers], on the pair
    ([bestMatch], [maxOverlap]). *)
Definition bestStep (transSegment : Segment.t)
    (st : option DiarizationSegment.t * Q) (diarSegment : DiarizationSegment.t)
    : option DiarizationSegment.t * Q :=
  let overlap := calculateOverlap transSegment diarSegment in
  if JS.gtb overlap (snd st) then (Some diarSegment, overlap) else st.

Definition findBestMatch (transSegment : Segment.t)
    (diarization : list DiarizationSegment.t) : option DiarizationSegment.t * Q :=
  fold_left (bestStep transSegment) diarization (None, 0).

Definition unknownSegment (transSegment : Segment.t) : SpeakerSegment.t :=
  {| text := Segment.text transSegment;
     speaker := "speaker_unknown";
     start := Segment.start transSegment;
     end_ := Segment.end_ transSegment;
     confidence := 0 |}.

(** The body of the outer loop: what one transcription segment adds to
    [aligned]. *)
Definition alignStep (overlapThreshold confidenceThreshold : Q)
    (diarization : list DiarizationSegment.t)
    (aligned : list SpeakerSegment.t) (transSegment : Segment.t)
    : list SpeakerSegment.t :=
  let '(bestMatch, maxOverlap) := findBestMatch transSegment diarization in
  match bestMatch with
  | Some best =>
      if JS.gtb maxOverlap overlapThreshold then
        let confidence :=
          maxOverlap / (Segment.end_ transSegment - Segment.start transSegment) in
        if JS.geb confidence confidenceThreshold then
          aligned ++ [ {| text := Segment.text transSegment;
                          speaker :=
                            normalizeSpeakerLabel (DiarizationSegment.speaker best);
                          start := Segment.start transSegment;
                          end_ := Segment.end_ transSegment;
                          confidence := confidence |} ]
        else aligned
      else aligned ++ [unknownSegment transSegment]
  | None => aligned ++ [unknownSegment transSegment]
  end.

(** [transcriptionSegments]: the segments of the transcription, or one
    segment over the whole text when there are none. *)
Definition transcriptionSegments (transcription : TranscriptionResult.t)
    (diarization : list DiarizationSegment.t) : list Segment.t :=
  match TranscriptionResult.segments transcription with
  | Some (s :: l) => s :: l
  | _ =>
      [ {| Segment.start := 0;
           Segment.end_ :=
             fold_left Qmax (map DiarizationSegment.end_ diarization) 20;
           Segment.text := TranscriptionResult.text transcription |} ]
  end.

(** [aligned] when the outer loop ends, before the merge pass. *)
Definition alignedBeforeMerge (transcription : TranscriptionResult.t)
    (diarization : list DiarizationSegment.t) (options : AlignmentOptions)
    : list SpeakerSegment.t :=
  fold_left
    (alignStep (overlapThresholdOf options) (confidenceThresholdOf options) diarization)
    (transcriptionSegments transcription diarization) [].

(** [alignTranscriptionWithSpeakers(transcription, diarization, options)]. *)
Definition alignTranscriptionWithSpeakers (transcription : TranscriptionResult.t)
    (diarization : list DiarizationSegment.t) (options : AlignmentOptions)
    : list SpeakerSegment.t :=
  postProcessAlignment
    (alignedBeforeMerge transcription diarization options)
    (mergeThresholdOf options).

(** [formatTimestamp(seconds, useSRTFormat)]. *)
Definition formatTimestamp (seconds : Q) (useSRTFormat : bool) : string :=
  let hours := JS.floor (JS.div seconds 3600) in
  let minutes := JS.floor (JS.div (JS.rem seconds 3600) 60) in
  let secs := JS.floor (JS.rem seconds 60) in
  let ms := JS.floor (JS.mul (JS.rem seconds 1) 1000) in
  let separator := if useSRTFormat then "," else "." in
  (JS.padStart 2 (JS.toString hours) ++ ":"
   ++ JS.padStart 2 (JS.toString minutes) ++ ":"
   ++ JS.padStart 2 (JS.toString secs) ++ separator
   ++ JS.padStart 3 (JS.toString ms))%string.

(** The cue number [index + 1] of a [forEach] callback. *)
Definition cueNumber (index : nat) : string :=
  JS.toString (Z.of_nat index + 1).

(** [formatAsVTTWithSpeakers(segments)]. *)
Definition formatAsVTTWithSpeakers (segments : list SpeakerSegment.t) : string :=
  fold_left
    (fun vtt '(index, segment) =>
       let startTime := formatTimestamp (start segment) false in
       let endTime := formatTimestamp (end_ segment) false in
       (vtt ++ cueNumber index ++ JS.newline ++ startTime ++ " --> " ++ endTime
        ++ JS.newline ++ "<v " ++ speaker segment ++ ">" ++ text segment ++ "</v>"
        ++ JS.newline ++ JS.newline)%string)
    (combine (seq 0 (List.length segments)) segments)
    ("WEBVTT" ++ JS.newline ++ JS.newline)%string.

(** [formatAsSRTWithSpeakers(segments)]. *)
Definition formatAsSRTWithSpeakers (segments : list SpeakerSegment.t) : string :=
  fold_left
    (fun srt '(index, segment) =>
       let startTime := formatTimestamp (start segment) true in
       let endTime := formatTimestamp (end_ segment) true in
       (srt ++ cueNumber index ++ JS.newline ++ startTime ++ " --> " ++ endTime
        ++ JS.newline ++ "[" ++ speaker segment ++ "]: " ++ text segment
        ++ JS.newline ++ JS.newline)%string)
    (combine (seq 0 (List.length segments)) segments)
    EmptyString.

End DiarizationAlignment.

(** ** class TranscriptionAssembler *)

Module ChunkTranscription.
Record t : Type := mk {
  chunkIndex : Z;
  startOffset : Q;
  result : TranscriptionResult.t
}.
End ChunkTranscription.

Module TranscriptionAssembler.

Import ChunkTranscription.

(** [AssemblyOptions]: every property may be left out. *)
Record AssemblyOptions : Type := mkAssemblyOptions {
  overlapSeconds : option Q;
  removeOverlapDuplicates : option bool;
  preserveTimestamps : option bool
}.

(** The destructuring defaults of [assembleTranscriptions]. *)
Definition overlapSecondsOf (o : AssemblyOptions) : Q :=
  match overlapSeconds o with Some x => x | None => 30 end.
Definition removeOverlapDuplicatesOf (o : AssemblyOptions) : bool :=
  match removeOverlapDuplicates o with Some b => b | None => true end.
Definition preserveTimestampsOf (o : AssemblyOptions) : bool :=
  match preserveTimestamps o with Some b => b | None => true end.

(** [adjustSegmentTimestamps]: the last three arguments are not used. *)
Definition adjustSegmentTimestamps (segments : list Segment.t) (startOffset : Q)
    (isFirstChunk isLastChunk : bool) (overlapSeconds : Q) : list Segment.t :=
  map (fun segment =>
         {| Segment.start := Segment.start segment + startOffset;
            Segment.end_ := Segment.end_ segment + startOffset;
            Segment.text := Segment.text segment |})
      segments.

(** [removeOverlapSegments(newSegments, existingSegments, overlapSeconds)]. *)
Definition removeOverlapSegments (newSegments existingSegments : list Segment.t)
    (overlapSeconds : Q) : list Segment.t :=
  match JS.lastElement existingSegments with
  | None => newSegments
  | Some lastExisting =>
      let lastExistingTime := Segment.end_ lastExisting in
      let overlapCutoffTime := lastExistingTime - overlapSeconds in
      match JS.findIndex
              (fun segment => JS.geb (Segment.start segment) overlapCutoffTime)
              newSegments with
      | None => []
      | Some firstNonOverlapIndex => skipn firstNonOverlapIndex newSegments
      end
  end.

(** [removeOverlapText(text, overlapSeconds)]. *)
Definition removeOverlapText (text : string) (overlapSeconds : Q) : string :=
  let lines := filter (fun line => JS.truthy (JS.trim line)) (JS.splitLines text) in
  if (List.length lines <=? 1)%nat then text
  else
    let linesToRemove :=
      Z.min 2 (JS.floor (inject_Z (Z.of_nat (List.length lines)) * (1 # 10))) in
    JS.joinLines (skipn (Z.to_nat linesToRemove) lines).

(** [chunks.sort((a, b) => a.chunkIndex - b.chunkIndex)]: a stable sort,
    here by insertion. *)
Fixpoint insertChunk (c : ChunkTranscription.t) (l : list ChunkTranscription.t)
    : list ChunkTranscription.t :=
  match l with
  | [] => [c]
  | h :: r =>
      if (chunkIndex c <=? chunkIndex h)%Z then c :: l else h :: insertChunk c r
  end.

Definition sortChunks (chunks : list ChunkTranscription.t)
    : list ChunkTranscription.t :=
  fold_right insertChunk [] chunks.

(** The variables the main loop assigns. *)
Record Assembled : Type := mkAssembled {
  assembledText : string;
  assembledSegments : list Segment.t;
  totalProcessingTime : Q
}.

(** The segment part of one iteration. *)
Definition segmentsStep (overlapSeconds : Q)
    (removeOverlapDuplicates preserveTimestamps isFirstChunk isLastChunk : bool)
    (assembledSegments : list Segment.t) (chunk : ChunkTranscription.t)
    : list Segment.t :=
  match TranscriptionResult.segments (result chunk) with
  | Some segments =>
      if preserveTimestamps then
        let adjustedSegments :=
          adjustSegmentTimestamps segments (startOffset chunk)
            isFirstChunk isLastChunk overlapSeconds in
        if removeOverlapDuplicates && negb isFirstChunk then
          let filteredSegments :=
            removeOverlapSegments adjustedSegments assembledSegments overlapSeconds in
          assembledSegments ++ filteredSegments
        else assembledSegments ++ adjustedSegments
      else assembledSegments
  | None => assembledSegments
  end.

(** The plain-text part of one iteration. *)
Definition textStep (overlapSeconds : Q)
    (removeOverlapDuplicates isFirstChunk : bool)
    (assembledText : string) (chunk : ChunkTranscription.t) : string :=
  let chunkText := TranscriptionResult.text (result chunk) in
  let chunkText :=
    if removeOverlapDuplicates && negb isFirstChunk
    then removeOverlapText chunkText overlapSeconds
    else chunkText in
  let assembledText :=
    if negb isFirstChunk && JS.truthy assembledText && JS.truthy chunkText then
      let needsSpace :=
        negb (JS.endsWithSpace assembledText) && negb (JS.startsWithSpace chunkText) in
      if needsSpace then (assembledText ++ " ")%string else assembledText
    else assembledText in
  (assembledText ++ chunkText)%string.

(** One iteration of the main loop, for the chunk at index [i] of [n]. *)
Definition chunkStep (overlapSeconds : Q)
    (removeOverlapDuplicates preserveTimestamps : bool) (n : nat)
    (acc : Assembled) (ic : nat * ChunkTranscription.t) : Assembled :=
  let '(i, chunk) := ic in
  let isFirstChunk := (i =? 0)%nat in
  let isLastChunk := (i =? n - 1)%nat in
  {| assembledText :=
       textStep overlapSeconds removeOverlapDuplicates isFirstChunk
         (assembledText acc) chunk;
     assembledSegments :=
       segmentsStep overlapSeconds removeOverlapDuplicates preserveTimestamps
         isFirstChunk isLastChunk (assembledSegments acc) chunk;
     totalProcessingTime :=
       totalProcessingTime acc + TranscriptionResult.processing_time (result chunk) |}.

Definition emptyResult : TranscriptionResult.t :=
  {| TranscriptionResult.text := EmptyString;
     TranscriptionResult.segments := None;
     TranscriptionResult.language := None;
     TranscriptionResult.model_used := "base.en";
     TranscriptionResult.processing_time := 0 |}.

(** [assembleTranscriptions(chunks, options)]. *)
Definition assembleTranscriptions (chunks : list ChunkTranscription.t)
    (options : AssemblyOptions) : TranscriptionResult.t :=
  let overlapSeconds := overlapSecondsOf options in
  let removeOverlapDuplicates := removeOverlapDuplicatesOf options in
  let preserveTimestamps := preserveTimestampsOf options in
  match chunks with
  | [] => emptyResult
  | [chunk] => result chunk
  | _ =>
      let sortedChunks := sortChunks chunks in
      let n := List.length sortedChunks in
      let acc :=
        fold_left
          (chunkStep overlapSeconds removeOverlapDuplicates preserveTimestamps n)
          (combine (seq 0 n) sortedChunks)
          {| assembledText := EmptyString;
             assembledSegments := [];
             totalProcessingTime := 0 |} in
      {| TranscriptionResult.text := JS.trim (assembledText acc);
         TranscriptionResult.segments :=
           if preserveTimestamps && (0 <? List.length (assembledSegments acc))%nat
           then Some (assembledSegments acc) else None;
         TranscriptionResult.language :=
           match sortedChunks with
           | first :: _ => TranscriptionResult.language (result first)
           | [] => None
           end;
         TranscriptionResult.model_used :=
           match sortedChunks with
           | first :: _ => TranscriptionResult.model_used (result first)
           | [] => EmptyString
           end;
         TranscriptionResult.processing_time := totalProcessingTime acc |}
  end.

(** [formatTimestamp(seconds, useSRTFormat)]. *)
Definition formatTimestamp (seconds : Q) (useSRTFormat : bool) : string :=
  let hours := JS.floor (JS.div seconds 3600) in
  let minutes := JS.floor (JS.div (JS.rem seconds 3600) 60) in
  let secs := JS.floor (JS.rem seconds 60) in
  let ms := JS.floor (JS.mul (JS.rem seconds 1) 1000) in
  let separator := if useSRTFormat then "," else "." in
  (JS.padStart 2 (JS.toString hours) ++ ":"
   ++ JS.padStart 2 (JS.toString minutes) ++ ":"
   ++ JS.padStart 2 (JS.toString secs) ++ separator
   ++ JS.padStart 3 (JS.toString ms))%string.

Definition cueNumber (index : nat) : string :=
  JS.toString (Z.of_nat index + 1).

(** The cues of [formatAsVTT] and [formatAsSRT]. *)
Definition cues (useSRTFormat : bool) (init : string) (segments : list Segment.t)
    : string :=
  fold_left
    (fun out '(index, segment) =>
       let startTime := formatTimestamp (Segment.start segment) useSRTFormat in
       let endTime := formatTimestamp (Segment.end_ segment) useSRTFormat in
       (out ++ cueNumber index ++ JS.newline ++ startTime ++ " --> " ++ endTime
        ++ JS.newline ++ Segment.text segment ++ JS.newline ++ JS.newline)%string)
    (combine (seq 0 (List.length segments)) segments)
    init.

(** [formatAsVTT(result)]. *)
Definition formatAsVTT (result : TranscriptionResult.t) : string :=
  match TranscriptionResult.segments result with
  | Some (s :: l) => cues false ("WEBVTT" ++ JS.newline ++ JS.newline)%string (s :: l)
  | _ =>
      ("WEBVTT" ++ JS.newline ++ JS.newline
       ++ TranscriptionResult.text result)%string
  end.

(** [formatAsSRT(result)]. *)
Definition formatAsSRT (result : TranscriptionResult.t) : string :=
  match TranscriptionResult.segments result with
  | Some (s :: l) => cues true EmptyString (s :: l)
  | _ => TranscriptionResult.text result
  end.

End TranscriptionAssembler.

(** ** More JavaScript primitives: arrays of strings, search in strings *)

Module JSArray.

(** [a.includes(x)]. *)
Definition includes (a : list string) (x : string) : bool :=
  existsb (String.eqb x) a.

(** [a.indexOf(x)], -1 when [x] is not in [a]. *)
Fixpoint indexOf (a : list string) (x : string) : Z :=
  match a with
  | [] => (-1)%Z
  | y :: r =>
      if String.eqb y x then 0%Z
      else let i := indexOf r x in if (i <? 0)%Z then (-1)%Z else (i + 1)%Z
  end.

(** [a[i]], with [None] for [undefined]. *)
Definition elementAt (a : list string) (i : Z) : option string :=
  if (i <? 0)%Z then None else nth_error a (Z.to_nat i).

(** [s.endsWith(suffix)]. *)
Fixpoint endsWith (suffix s : string) : bool :=
  if String.eqb s suffix then true
  else match s with
       | EmptyString => false
       | String _ r => endsWith suffix r
       end.

(** [s.startsWith(p)], returning what follows [p]. *)
Fixpoint afterPrefix (p s : string) : option string :=
  match p with
  | EmptyString => Some s
  | String a p' =>
      match s with
      | String b s' => if Ascii.eqb a b then afterPrefix p' s' else None
      | EmptyString => None
      end
  end.

(** [s.replace(pat, '')]: the first occurrence of [pat] is removed. *)
Fixpoint removeFirst (pat s : string) : string :=
  match afterPrefix pat s with
  | Some rest => rest
  | None =>
      match s with
      | EmptyString => EmptyString
      | String c r => String c (removeFirst pat r)
      end
  end.

(** [s.indexOf(pat)], with [None] for -1. *)
Fixpoint indexOfString (pat s : string) : option nat :=
  match afterPrefix pat s with
  | Some _ => Some O
  | None =>
      match s with
      | EmptyString => None
      | String _ r => option_map S (indexOfString pat r)
      end
  end.

End JSArray.

(** ** [src/mcp-server/src/tools/health-check.ts] *)

Module HealthCheck.

(** [HealthCheckResult] and its [system_info]. *)
Record SystemInfo : Type := mkSystemInfo {
  platform : string;
  arch : string;
  threads_available : Z
}.

Record HealthCheckResult : Type := mkHealthCheckResult {
  whisper_installed : bool;
  whisper_version : option string;
  models_available : list string;
  recommended_model : string;
  system_info : SystemInfo
}.

(** The object built by [generateDiagnostics]. *)
Record Diagnostics : Type := mkDiagnostics {
  overall_status : string;
  issues : list string;
  recommendations : list string;
  installation_details : option string;
  m1_optimization : option string;
  recommended_threads : option Z
}.

Definition priorities : list string :=
  [ "base.en"; "tiny.en"; "small.en"; "base"; "small" ].

(** The loop of [determineRecommendedModel] over the priorities. *)
Fixpoint firstAvailable (candidates availableModels : list string) : option string :=
  match candidates with
  | [] => None
  | model :: rest =>
      if JSArray.includes availableModels model then Some model
      else firstAvailable rest availableModels
  end.

(** [determineRecommendedModel(availableModels)]. *)
Definition determineRecommendedModel (availableModels : list string) : string :=
  match firstAvailable priorities availableModels with
  | Some model => model
  | None =>
      match availableModels with
      | first :: _ => first
      | [] => "base.en"
      end
  end.

(** [generateDiagnostics(result, installationError)], one block of the
    source per step. *)
Definition checkInstallation (result : HealthCheckResult)
    (installationError : option string) (d : Diagnostics) : Diagnostics :=
  if negb (whisper_installed result) then
    {| overall_status := "critical";
       issues := issues d ++ [ "whisper.cpp not installed or not in PATH" ];
       recommendations :=
         recommendations d ++ [ "Install whisper.cpp: brew install whisper-cpp" ];
       installation_details :=
         match installationError with
         | Some e => if JS.truthy e then Some e else installation_details d
         | None => installation_details d
         end;
       m1_optimization := m1_optimization d;
       recommended_threads := recommended_threads d |}
  else d.

Definition checkModels (result : HealthCheckResult) (d : Diagnostics) : Diagnostics :=
  match models_available result with
  | [] =>
      {| overall_status :=
           if negb (String.eqb (overall_status d) "critical")
           then "warning" else overall_status d;
         issues := issues d ++ [ "No whisper models found" ];
         recommendations :=
           recommendations d
           ++ [ String.append
                  "Download models: npm run setup:models or manually download to "
                  "models/ directory" ];
         installation_details := installation_details d;
         m1_optimization := m1_optimization d;
         recommended_threads := recommended_threads d |}
  | _ :: _ => d
  end.

Definition checkM1 (result : HealthCheckResult) (d : Diagnostics) : Diagnostics :=
  if String.eqb (arch (system_info result)) "arm64"
     && String.eqb (platform (system_info result)) "darwin"
  then
    let threads := Z.min 4 (threads_available (system_info result)) in
    {| overall_status := overall_status d;
       issues := issues d;
       recommendations :=
         recommendations d
         ++ [ ("Optimal thread count for M1: " ++ JS.toString threads)%string ];
       installation_details := installation_details d;
       m1_optimization := Some "available";
       recommended_threads := Some threads |}
  else d.

Definition settleStatus (result : HealthCheckResult) (d : Diagnostics) : Diagnostics :=
  if String.eqb (overall_status d) "unknown" then
    {| overall_status :=
         match models_available result with
         | _ :: _ => "healthy"
         | [] => "warning"
         end;
       issues := issues d;
       recommendations := recommendations d;
       installation_details := installation_details d;
       m1_optimization := m1_optimization d;
       recommended_threads := recommended_threads d |}
  else d.

Definition generateDiagnostics (result : HealthCheckResult)
    (installationError : option string) : Diagnostics :=
  let diagnostics :=
    {| overall_status := "unknown";
       issues := [];
       recommendations := [];
       installation_details := None;
       m1_optimization := None;
       recommended_threads := None |} in
  settleStatus result
    (checkM1 result
       (checkModels result
          (checkInstallation result installationError diagnostics))).

(** [Array.from(new Set(labels))] of the speakers handler: every label
    once, in the order of first appearance. *)
Fixpoint uniqueInOrder (seen labels : list string) : list string :=
  match labels with
  | [] => []
  | x :: r =>
      if JSArray.includes seen x then uniqueInOrder seen r
      else x :: uniqueInOrder (seen ++ [x]) r
  end.

Definition uniqueSpeakers (segments : list SpeakerSegment.t) : list string :=
  uniqueInOrder [] (map SpeakerSegment.speaker segments).

End HealthCheck.

(** ** class WhisperIntegration: command line and model files *)

Module WhisperIntegration.

(** The [Language] and [OutputFormat] enumerations of
    [src/mcp-server/src/types/index.ts]. *)
Inductive Language : Type :=
  | Lang_auto | Lang_en | Lang_es | Lang_fr | Lang_de | Lang_it | Lang_pt
  | Lang_ru | Lang_ja | Lang_ko | Lang_zh | Lang_ar | Lang_hi.

Definition languageCode (l : Language) : string :=
  match l with
  | Lang_auto => "auto" | Lang_en => "en" | Lang_es => "es" | Lang_fr => "fr"
  | Lang_de => "de" | Lang_it => "it" | Lang_pt => "pt" | Lang_ru => "ru"
  | Lang_ja => "ja" | Lang_ko => "ko" | Lang_zh => "zh" | Lang_ar => "ar"
  | Lang_hi => "hi"
  end.

Inductive OutputFormat : Type :=
  | Format_txt | Format_vtt | Format_srt | Format_json | Format_csv.

(** The names of the [WhisperModel] enumeration. *)
Definition whisperModels : list string :=
  [ "tiny.en"; "tiny"; "base.en"; "base"; "small.en"; "small"; "medium.en";
    "medium"; "large-v1"; "large-v2"; "large-v3" ].

(** [Partial<TranscribeOptions>]. *)
Record TranscribeOptions : Type := mkTranscribeOptions {
  model : option string;
  language : option Language;
  output_format : option OutputFormat;
  temperature : option Q;
  threads : option Z;
  translate : option bool;
  word_timestamps : option bool;
  max_len : option Z;
  split_on_word : option bool
}.

(** [x || d] on an optional number: [undefined] and 0 give [d]. *)
Definition orZ (x : option Z) (d : Z) : Z :=
  match x with
  | Some v => if (v =? 0)%Z then d else v
  | None => d
  end.

Definition orQ (x : option Q) (d : Q) : Q :=
  match x with
  | Some v => if Qeq_bool v 0 then d else v
  | None => d
  end.

(** The truth value of an optional boolean. *)
Definition isSet (x : option bool) : bool :=
  match x with Some b => b | None => false end.

(** The output flag pushed by [buildWhisperArgs]. *)
Definition outputFlag (options : TranscribeOptions) : string :=
  if isSet (word_timestamps options) then "--output-json-full"
  else match output_format options with
       | Some Format_vtt => "--output-vtt"
       | Some Format_srt => "--output-srt"
       | Some Format_json => "--output-json"
       | Some Format_csv => "--output-csv"
       | _ => "--output-txt"
       end.

Section Args.

(** [Number.prototype.toString] on the temperature, which need not be
    integral. *)
Variable numberToString : Q -> string.

(** [buildWhisperArgs(audioPath, modelPath, options)]. *)
Definition buildWhisperArgs (audioPath modelPath : string)
    (options : TranscribeOptions) : list string :=
  [ "--model"; modelPath;
    "--file"; audioPath;
    "--threads"; JS.toString (orZ (threads options) 4);
    "--temperature"; numberToString (orQ (temperature options) 0) ]
  ++ match language options with
     | Some Lang_auto | None => []
     | Some l => [ "--language"; languageCode l ]
     end
  ++ (if isSet (translate options) then [ "--translate" ] else [])
  ++ [ outputFlag options ]
  ++ match max_len options with
     | Some m =>
         if negb (m =? 0)%Z && (0 <? m)%Z
         then [ "--max-len"; JS.toString m ] else []
     | None => []
     end
  ++ (if isSet (split_on_word options) then [ "--split-on-word" ] else [])
  ++ [ "--no-prints" ].

End Args.

(** What [executeWhisper] reads back from the arguments: whether the output
    is JSON, and the audio path when the JSON was written to a file. *)
Definition expectsJson (args : list string) : bool :=
  JSArray.includes args "--output-json"
  || JSArray.includes args "--output-json-full".

Definition audioPathOfArgs (args : list string) : option string :=
  JSArray.elementAt args (JSArray.indexOf args "--file" + 1).

(** The file name of a model in [getModelPath], and the model name that
    [getAvailableModels] derives from a file name. *)
Definition modelFileName (model : string) : string :=
  ("ggml-" ++ model ++ ".bin")%string.

Definition modelNameOfFile (file : string) : string :=
  JSArray.removeFirst ".bin" (JSArray.removeFirst "ggml-" file).

(** [getAvailableModels()] on the entries of the models directory. *)
Definition availableModelsOf (files : list string) : list string :=
  map modelNameOfFile (filter (JSArray.endsWith ".bin") files).

End WhisperIntegration.

(** ** class AudioConverter: splitting a recording into chunks *)

Module AudioConverter.

(** One run of ffmpeg in the loop of [splitAudio]: [-ss seekStart -t
    duration] written to [outputPath]. *)
Record FfmpegCall : Type := mkFfmpegCall {
  seekStart : Q;
  duration : Q;
  outputPath : string
}.

(** A run of ffmpeg: the one of [getAudioInfo], [-i audioPath -f null -],
    or one of the loop of [splitAudio]. *)
Inductive FfmpegRun : Type :=
  | Probe (audioPath : string)
  | Cut (call : FfmpegCall).

(** How [splitAudio] ends: it returns the chunk paths, it throws a
    [WhisperError] with a code, or the loop is still running when the fuel
    of the model is used up. *)
Inductive SplitOutcome : Type :=
  | Returned (outputPaths : list string)
  | Threw (code : string)
  | OutOfFuel.

(** How [getAudioInfo] ends: it throws a [WhisperError] with a code, or it
    returns the duration (the other fields are not used by [splitAudio]). *)
Inductive InfoOutcome : Type :=
  | InfoThrew (code : string)
  | Info (duration : Q).

(** The variables of the loop, and the runs of ffmpeg the loop has made so
    far. *)
Record SplitState : Type := mkSplitState {
  startTime : Q;
  chunkIndex : nat;
  outputPaths : list string;
  calls : list FfmpegCall
}.

Section Split.

(** [generateChunkPath(inputPath, chunkIndex)] as a function of the index,
    and the exit code of an ffmpeg run of the loop. *)
Variable generateChunkPath : nat -> string.
Variable executeCommand : FfmpegCall -> Z.

Variables chunkDurationSeconds overlapSeconds totalDuration : Q.

(** [chunkIndex > 0 ? overlapSeconds : 0]. *)
Definition overlapFor (chunkIndex : nat) : Q :=
  if (0 <? chunkIndex)%nat then overlapSeconds else 0.

Definition actualChunkDuration (startTime : Q) (chunkIndex : nat) : Q :=
  Qmin (chunkDurationSeconds + overlapFor chunkIndex)
       (totalDuration - startTime + overlapFor chunkIndex).

(** The [while] loop of [splitAudio].  The start times are added up
    exactly; the binary64 sums of the source are exact when the chunk
    duration and the overlap are whole numbers of seconds. *)
Fixpoint splitLoop (fuel : nat) (st : SplitState) : SplitOutcome * list FfmpegCall :=
  if JS.ltb (startTime st) totalDuration then
    match fuel with
    | O => (OutOfFuel, calls st)
    | S fuel' =>
        let chunkPath := generateChunkPath (chunkIndex st) in
        let call :=
          {| seekStart := startTime st;
             duration := actualChunkDuration (startTime st) (chunkIndex st);
             outputPath := chunkPath |} in
        if negb (executeCommand call =? 0)%Z
        then (Threw "SPLITTING_FAILED", calls st ++ [call])
        else splitLoop fuel'
               {| startTime :=
                    startTime st
                    + (chunkDurationSeconds - overlapFor (chunkIndex st));
                  chunkIndex := S (chunkIndex st);
                  outputPaths := outputPaths st ++ [chunkPath];
                  calls := calls st ++ [call] |}
    end
  else (Returned (outputPaths st), calls st).

End Split.

Section Audio.

Variable generateChunkPath : nat -> string.
Variable executeCommand : FfmpegCall -> Z.

(** [existsSync(path)], the file system being the same throughout the call,
    and the duration that [getAudioInfo] reads from the output of its run of
    ffmpeg on a path: the value of [parseInt(h) * 3600 + parseInt(m) * 60 +
    parseFloat(s)] on the captures of [/Duration: (\d+):(\d+):(\d+\.\d+)/],
    [None] when the output has no such line.  The run always resolves, so
    that [getAudioInfo] does not throw once the file exists. *)
Variable existsSync : string -> bool.
Variable probedDuration : string -> option Q.

(** [getAudioInfo(audioPath)]: the exit code of the run is not looked at. *)
Definition getAudioInfo (audioPath : string) : InfoOutcome * list FfmpegRun :=
  if negb (existsSync audioPath) then (InfoThrew "FILE_NOT_FOUND", [])
  else
    let duration :=
      match probedDuration audioPath with
      | Some d => d
      | None => 0
      end in
    (Info duration, [Probe audioPath]).

(** [splitAudio(inputPath, chunkDurationSeconds, overlapSeconds)], with the
    runs of ffmpeg it makes, in order. *)
Definition splitAudio (chunkDurationSeconds overlapSeconds : Q) (fuel : nat)
    (inputPath : string) : SplitOutcome * list FfmpegRun :=
  if negb (existsSync inputPath) then (Threw "FILE_NOT_FOUND", [])
  else
    match getAudioInfo inputPath with
    | (InfoThrew code, runs) => (Threw code, runs)
    | (Info totalDuration, runs) =>
        if Qle_bool totalDuration chunkDurationSeconds
        then (Returned [inputPath], runs)
        else
          let '(outcome, calls) :=
            splitLoop generateChunkPath executeCommand chunkDurationSeconds
              overlapSeconds totalDuration fuel
              {| startTime := 0; chunkIndex := O; outputPaths := [];
                 calls := [] |} in
          (outcome, runs ++ map Cut calls)
    end.

End Audio.

End AudioConverter.

(** ** The handler of [transcribe_long] ([src/unnamed/part_000]) *)

Module TranscribeLong.


End TranscribeLong.

(** ** Definitions used to state the properties *)

Module AlignmentSpec.

Import SpeakerSegment DiarizationAlignment.

(** The merge pass as a recursion on the segments still to come, with the
    accumulator [current] as an argument. *)
Fixpoint mergeFrom (mergeThreshold : Q) (current : SpeakerSegment.t)
    (rest : list SpeakerSegment.t) : list SpeakerSegment.t :=
  match rest with
  | [] => [current]
  | segment :: rest' =>
      if mergeable mergeThreshold current segment
      then mergeFrom mergeThreshold (mergeInto current segment) rest'
      else current :: mergeFrom mergeThreshold segment rest'
  end.

(** What one transcription segment contributes to [aligned]. *)
Definition alignOne (overlapThreshold confidenceThreshold : Q)
    (diarization : list DiarizationSegment.t) (transSegment : Segment.t)
    : list SpeakerSegment.t :=
  alignStep overlapThreshold confidenceThreshold diarization [] transSegment.

Fixpoint allDigits (s : string) : bool :=
  match s with
  | EmptyString => true
  | String c r => JS.isDigit c && allDigits r
  end.

Fixpoint hasDigit (s : string) : bool :=
  match s with
  | EmptyString => false
  | String c r => JS.isDigit c || hasDigit r
  end.

(** The first character of a string, if any, is not a digit. *)
Definition noLeadingDigit (s : string) : bool :=
  match s with
  | EmptyString => true
  | String c _ => negb (JS.isDigit c)
  end.

(** [stripPrefix p s]: what follows [p] in [s], when [s] starts with [p]. *)
Fixpoint stripPrefix (p s : string) : option string :=
  match p with
  | EmptyString => Some s
  | String a p' =>
      match s with
      | String b s' => if Ascii.eqb a b then stripPrefix p' s' else None
      | EmptyString => None
      end
  end.

(** A label of the form [speaker] followed by at least two digits, or the
    label of the unmatched segments. *)
Definition numberedLabel (label : string) : bool :=
  match stripPrefix "speaker" label with
  | Some digits => (2 <=? String.length digits)%nat && allDigits digits
  | None => false
  end.

Definition wellFormedLabel (label : string) : bool :=
  String.eqb label "speaker_unknown" || numberedLabel label.

(** A label whose first run of digits, if it has one, denotes an integer
    below 2^53: one that [parseInt] gives without rounding. *)
Definition safeLabel (label : string) : bool :=
  match JS.matchDigits label with
  | Some digits => (JS.parseDigits 0 digits <? 2 ^ 53)%Z
  | None => true
  end.

Definition confidenceInRange (s : SpeakerSegment.t) : Prop :=
  0 <= confidence s /\ confidence s <= 1.

(** What the inner loop of the alignment maintains: [maxOverlap] is 0
    without a match, and otherwise the positive overlap with [bestMatch],
    a span of the list. *)
Definition bestInv (transSegment : Segment.t)
    (diarization : list DiarizationSegment.t)
    (st : option DiarizationSegment.t * Q) : Prop :=
  match fst st with
  | None => snd st = 0
  | Some d =>
      In d diarization
      /\ snd st = calculateOverlap transSegment d
      /\ 0 < snd st
  end.

End AlignmentSpec.

Module AssemblerSpec.

Import ChunkTranscription TranscriptionAssembler.


(** A segment moved by [offset] seconds. *)
Definition translate (offset : Q) (segment : Segment.t) : Segment.t :=
  {| Segment.start := Segment.start segment + offset;
     Segment.end_ := Segment.end_ segment + offset;
     Segment.text := Segment.text segment |}.




(** The decimal form of [n] has at most two characters below 100 and at most
    three below 1000. *)
Definition decimalWidthOk (n : nat) : bool :=
  (String.length (JS.toString (Z.of_nat n)) <=? (if n <? 100 then 2 else 3))%nat.

End AssemblerSpec.

(** ** Concrete inputs *)

Module Scenario.

Import SpeakerSegment.

Definition transcriptionOf (segs : list Segment.t) : TranscriptionResult.t :=
  {| TranscriptionResult.text := "text";
     TranscriptionResult.segments := Some segs;
     TranscriptionResult.language := None;
     TranscriptionResult.model_used := "base.en";
     TranscriptionResult.processing_time := 0 |}.

Definition defaultAlignment : DiarizationAlignment.AlignmentOptions :=
  {| DiarizationAlignment.overlapThreshold := None;
     DiarizationAlignment.mergeThreshold := None;
     DiarizationAlignment.confidenceThreshold := None |}.

(** Scenario B of the specification. *)
Definition segmentB : Segment.t := Segment.mk 0 10 "hi there".
Definition diarizationB : list DiarizationSegment.t :=
  [ DiarizationSegment.mk 0 4 "SPEAKER_00"; DiarizationSegment.mk 4 10 "SPEAKER_01" ].

(** Scenario C of the specification: every span ends before t = 50. *)
Definition segmentC : Segment.t := Segment.mk 100 110 "text".
Definition diarizationC : list DiarizationSegment.t :=
  [ DiarizationSegment.mk 0 20 "SPEAKER_00"; DiarizationSegment.mk 20 45 "SPEAKER_01" ].

(** A segment overlapped by a span for 4 of its 100 seconds: the overlap
    exceeds the overlap threshold, the ratio 0.04 is below the confidence
    threshold. *)
Definition segmentLow : Segment.t := Segment.mk 0 100 "long".
Definition diarizationLow : list DiarizationSegment.t :=
  [ DiarizationSegment.mk 0 4 "SPEAKER_00" ].


(** Scenario A of the specification, for any texts of the two chunks. *)
Definition chunkA0 (text0 : string) : ChunkTranscription.t :=
  {| ChunkTranscription.chunkIndex := 0;
     ChunkTranscription.startOffset := 0;
     ChunkTranscription.result :=
       {| TranscriptionResult.text := text0;
          TranscriptionResult.segments :=
            Some [ Segment.mk 0 5 "hello"; Segment.mk 5 10 "world" ];
          TranscriptionResult.language := Some "en";
          TranscriptionResult.model_used := "base.en";
          TranscriptionResult.processing_time := 3 |} |}.

Definition chunkA1 (text1 : string) : ChunkTranscription.t :=
  {| ChunkTranscription.chunkIndex := 1;
     ChunkTranscription.startOffset := 8;
     ChunkTranscription.result :=
       {| TranscriptionResult.text := text1;
          TranscriptionResult.segments :=
            Some [ Segment.mk 0 3 "world2"; Segment.mk 3 6 "foo" ];
          TranscriptionResult.language := Some "en";
          TranscriptionResult.model_used := "base.en";
          TranscriptionResult.processing_time := 4 |} |}.

Definition optionsA : TranscriptionAssembler.AssemblyOptions :=
  {| TranscriptionAssembler.overlapSeconds := Some 2;
     TranscriptionAssembler.removeOverlapDuplicates := Some true;
     TranscriptionAssembler.preserveTimestamps := Some true |}.


(** A transcription without segments, and a span of its first second. *)
Definition untimed : TranscriptionResult.t :=
  {| TranscriptionResult.text := "hello";
     TranscriptionResult.segments := None;
     TranscriptionResult.language := None;
     TranscriptionResult.model_used := "base.en";
     TranscriptionResult.processing_time := 0 |}.
Definition diarizationShort : list DiarizationSegment.t :=
  [ DiarizationSegment.mk 0 1 "SPEAKER_00" ].



(** The binary64 numbers nearest to 0.29 and to 4.35, and 3661.125. *)
Definition double029 : Q := 5224175567749775 # 18014398509481984.
Definition double435 : Q := 2448832297382707 # 562949953421312.
Definition clock : Q := 29289 # 8.

(** Some binary64 numbers: the three above, the one nearest to 1.001,
    2^-10, 2^52 + 1, 86399.999 as a binary64 number, 7 and 0.5. *)
Definition doubles : list Q :=
  [ double029; double435; clock; 2254051613498933 # 2251799813685248;
    1 # 1024; 4503599627370497 # 1; 5937362721270923 # 68719476736; 7 # 1;
    1 # 2 ].

(** A label with a run of digits above 2^53, and one that denotes 1e21. *)
Definition labelAbove53 : string := "SPEAKER_9007199254740993".
Definition label1e21 : string := "SPEAKER_1000000000000000000000".

End Scenario.

(** ** Definitions used to state further properties of the alignment *)

Module AlignmentProperties.

Import SpeakerSegment DiarizationAlignment.

(** The texts of a list of speaker segments, joined by single spaces. *)
Definition joinedText (l : list SpeakerSegment.t) : string :=
  String.concat " " (map text l).



(** No two neighbours of the list pass the merge test. *)
Definition noMergeableNeighbours (mergeThreshold : Q)
    (l : list SpeakerSegment.t) : Prop :=
  forall l1 p q l2, l = l1 ++ p :: q :: l2 -> mergeable mergeThreshold p q = false.

(** The last element of a non-empty list given by its head and tail. *)
Definition lastOf {A : Type} (x : A) (l : list A) : A := List.last l x.

End AlignmentProperties.

(** ** Definitions used to state further properties of the assembly *)

Module AssemblerProperties.

Import ChunkTranscription TranscriptionAssembler.

(** The processing times of the chunks, added up. *)
Definition sumProcessingTime (chunks : list ChunkTranscription.t) : Q :=
  fold_right (fun c acc => TranscriptionResult.processing_time (result c) + acc)
    0 chunks.

(** The segments of a chunk on the time line of the whole recording. *)
Definition shiftedSegments (chunk : ChunkTranscription.t) : list Segment.t :=
  match TranscriptionResult.segments (result chunk) with
  | Some segs => map (AssemblerSpec.translate (startOffset chunk)) segs
  | None => []
  end.

(** The list without its longest prefix of elements that satisfy [p]. *)
Fixpoint dropWhile {A : Type} (p : A -> bool) (l : list A) : list A :=
  match l with
  | [] => []
  | x :: r => if p x then dropWhile p r else l
  end.

(** The segment starts before the cutoff. *)
Definition startsBefore (cutoff : Q) (segment : Segment.t) : bool :=
  JS.ltb (Segment.start segment) cutoff.

(** Ascending order of chunk indices. *)
Definition byIndex (a b : ChunkTranscription.t) : Prop :=
  (chunkIndex a <= chunkIndex b)%Z.

Definition startsWithWhiteSpace (s : string) : bool :=
  match s with
  | EmptyString => false
  | String c _ => JS.isWhiteSpace c
  end.

Fixpoint endsWithWhiteSpace (s : string) : bool :=
  match s with
  | EmptyString => false
  | String c EmptyString => JS.isWhiteSpace c
  | String _ r => endsWithWhiteSpace r
  end.

End AssemblerProperties.

(** ** Definitions used to state further properties of labels and timestamps *)

Module RenderingProperties.

(** A whole number of milliseconds as a clock reading: hours, minutes and
    seconds on two digits at least, milliseconds on three. *)
Definition renderMilliseconds (total : Z) (useSRTFormat : bool) : string :=
  let separator := if useSRTFormat then "," else "." in
  (JS.padStart 2 (JS.toString (total / 3600000)) ++ ":"
   ++ JS.padStart 2 (JS.toString (total / 60000 mod 60)) ++ ":"
   ++ JS.padStart 2 (JS.toString (total / 1000 mod 60)) ++ separator
   ++ JS.padStart 3 (JS.toString (total mod 1000)))%string.

(** The millisecond field of a timestamp: the floor of the rounded product
    of the fraction of a second and 1000. *)
Definition millisecondField (seconds : Q) : Z :=
  Qfloor (Binary64.round ((seconds - inject_Z (Qfloor seconds)) * 1000)).

End RenderingProperties.

(** ** Definitions used to state the properties of the splitting *)

Module SplitProperties.

Import AudioConverter.

(** Where chunk [k] starts: the first at 0, the second after one chunk
    duration, every further one a chunk duration minus the overlap later. *)
Definition chunkStart (chunkDurationSeconds overlapSeconds : Q) (k : nat) : Q :=
  match k with
  | O => 0
  | S j =>
      chunkDurationSeconds
      + inject_Z (Z.of_nat j) * (chunkDurationSeconds - overlapSeconds)
  end.

(** The ffmpeg run number [k] of a split. *)
Definition isChunkCall (generateChunkPath : nat -> string)
    (chunkDurationSeconds overlapSeconds totalDuration : Q)
    (k : nat) (c : FfmpegCall) : Prop :=
  seekStart c == chunkStart chunkDurationSeconds overlapSeconds k
  /\ seekStart c < totalDuration
  /\ duration c
     = actualChunkDuration chunkDurationSeconds overlapSeconds totalDuration
         (seekStart c) k
  /\ outputPath c = generateChunkPath k.

(** What holds of the loop variables at the start of every iteration. *)
Definition splitInv (generateChunkPath : nat -> string)
    (chunkDurationSeconds overlapSeconds totalDuration : Q)
    (st : SplitState) : Prop :=
  startTime st == chunkStart chunkDurationSeconds overlapSeconds (chunkIndex st)
  /\ Forall2
       (isChunkCall generateChunkPath chunkDurationSeconds overlapSeconds
          totalDuration)
       (seq 0 (chunkIndex st)) (calls st)
  /\ outputPaths st = map generateChunkPath (seq 0 (chunkIndex st)).

(** The initial state of the loop. *)
Definition splitStart : SplitState :=
  {| startTime := 0; chunkIndex := O; outputPaths := []; calls := [] |}.

(** A whole number of seconds. *)
Definition wholeNumber (q : Q) : Prop := inject_Z (Qfloor q) == q.

(** The sums and differences that iteration [k] of the loop computes are
    binary64 numbers: rounding leaves each of them as it is. *)
Definition exactStep (chunkDurationSeconds overlapSeconds totalDuration : Q)
    (k : nat) : Prop :=
  let start := chunkStart chunkDurationSeconds overlapSeconds k in
  let overlap := overlapFor overlapSeconds k in
  Binary64.round (chunkDurationSeconds + overlap)
  == chunkDurationSeconds + overlap
  /\ Binary64.round (totalDuration - start) == totalDuration - start
  /\ Binary64.round (totalDuration - start + overlap)
     == totalDuration - start + overlap
  /\ Binary64.round (chunkDurationSeconds - overlap)
     == chunkDurationSeconds - overlap
  /\ Binary64.round (start + (chunkDurationSeconds - overlap))
     == start + (chunkDurationSeconds - overlap).

End SplitProperties.

(** ** Rounding to binary64 *)

Module Binary64Facts.

Import Binary64.

Lemma pow2_pos e : 0 < pow2 e.
Proof. apply Qpower_0_lt. reflexivity. Qed.

Lemma pow2_add a b : pow2 (a + b) == pow2 a * pow2 b.
Proof. apply Qpower_plus. discriminate. Qed.

Lemma pow2_sub a b : pow2 (a - b) == pow2 a / pow2 b.
Proof. apply Qpower_minus. discriminate. Qed.

Lemma pow2_le a b : (a <= b)%Z -> pow2 a <= pow2 b.
Proof. intros H. apply Qpower_le_compat_l; [exact H | discriminate]. Qed.

Lemma pow2_lt a b : (a < b)%Z -> pow2 a < pow2 b.
Proof. intros H. apply Qpower_lt_compat_l; [exact H | reflexivity]. Qed.

Lemma pow2_le_inv a b : pow2 a <= pow2 b -> (a <= b)%Z.
Proof. intros H. apply (Qpower_le_compat_l_inv 2); [exact H | reflexivity]. Qed.

Lemma pow2_lt_inv a b : pow2 a < pow2 b -> (a < b)%Z.
Proof. intros H. apply (Qpower_lt_compat_l_inv 2); [exact H | reflexivity]. Qed.

Lemma pow2_Z e : (0 <= e)%Z -> pow2 e == inject_Z (2 ^ e).
Proof. intros H. unfold pow2. now rewrite Zpower_Qpower. Qed.

Lemma pow2_0 : pow2 0 == 1.
Proof. reflexivity. Qed.

Lemma pow2_succ e : pow2 (e + 1) == 2 * pow2 e.
Proof. rewrite pow2_add. change (pow2 1) with 2. ring. Qed.

Lemma pow2_pred e : pow2 (e - 1) == pow2 e / 2.
Proof. rewrite pow2_sub. reflexivity. Qed.

Lemma binade_spec x : 0 < x -> pow2 (binade x) <= x /\ x < pow2 (binade x + 1).
Proof.
  intros Hx. destruct x as [a b].
  assert (Ha : (0 < a)%Z) by (unfold Qlt in Hx; cbn in Hx; lia).
  unfold binade. cbn [Qnum Qden].
  set (la := Z.log2 a). set (lb := Z.log2 (Zpos b)). set (d := (la - lb)%Z).
  destruct (Z.log2_spec a Ha) as [A1 A2]. fold la in A1, A2.
  destruct (Z.log2_spec (Zpos b) (Pos2Z.is_pos b)) as [B1 B2]. fold lb in B1, B2.
  assert (Hla : (0 <= la)%Z) by apply Z.log2_nonneg.
  assert (Hlb : (0 <= lb)%Z) by apply Z.log2_nonneg.
  assert (QA1 : pow2 la <= inject_Z a) by (rewrite pow2_Z by lia; now rewrite <- Zle_Qle).
  assert (QA2 : inject_Z a < pow2 (la + 1))
    by (rewrite pow2_Z by lia; rewrite <- Zlt_Qlt; now rewrite Z.add_1_r).
  assert (QB1 : pow2 lb <= inject_Z (Zpos b))
    by (rewrite pow2_Z by lia; now rewrite <- Zle_Qle).
  assert (QB2 : inject_Z (Zpos b) < pow2 (lb + 1))
    by (rewrite pow2_Z by lia; rewrite <- Zlt_Qlt; now rewrite Z.add_1_r).
  assert (Hx' : (a # b) * inject_Z (Zpos b) == inject_Z a).
  { rewrite (Qmake_Qdiv a b). field. discriminate. }
  assert (Hb0 : 0 < inject_Z (Zpos b)) by reflexivity.
  pose proof (pow2_pos lb) as Plb. pose proof (pow2_pos d) as Pd.
  assert (Hd1 : pow2 (d + 1) * pow2 lb == pow2 (la + 1)).
  { rewrite <- pow2_add. apply Qpower_comp; [reflexivity | unfold d; lia]. }
  assert (Hd0 : pow2 (d - 1) * pow2 (lb + 1) == pow2 la).
  { rewrite <- pow2_add. apply Qpower_comp; [reflexivity | unfold d; lia]. }
  assert (Hup : (a # b) < pow2 (d + 1)).
  { apply (Qmult_lt_r _ _ _ Hb0). rewrite Hx'.
    eapply Qlt_le_trans; [exact QA2|]. rewrite <- Hd1.
    apply Qmult_le_l; [apply pow2_pos | exact QB1]. }
  assert (Hlow : pow2 (d - 1) <= (a # b)).
  { apply (Qmult_le_r _ _ _ Hb0). rewrite Hx'.
    eapply Qle_trans; [|exact QA1]. rewrite <- Hd0.
    apply Qmult_le_l; [apply pow2_pos | apply Qlt_le_weak, QB2]. }
  destruct (Qle_bool (pow2 d) (a # b)) eqn:E.
  - apply Qle_bool_iff in E. split; assumption.
  - split; [exact Hlow|].
    replace (d - 1 + 1)%Z with d by lia.
    apply Qnot_le_lt. intros H. apply Qle_bool_iff in H. congruence.
Qed.


Lemma binade_unique x e : pow2 e <= x -> x < pow2 (e + 1) -> binade x = e.
Proof.
  intros H1 H2.
  assert (Hx : 0 < x) by (eapply Qlt_le_trans; [apply (pow2_pos e) | exact H1]).
  destruct (binade_spec x Hx) as [B1 B2].
  assert (binade x < e + 1)%Z
    by (apply pow2_lt_inv; eapply Qle_lt_trans; eassumption).
  assert (e < binade x + 1)%Z
    by (apply pow2_lt_inv; eapply Qle_lt_trans; eassumption).
  lia.
Qed.

Lemma binade_comp x y : 0 < x -> x == y -> binade x = binade y.
Proof.
  intros Hx Heq. symmetry. destruct (binade_spec x Hx) as [B1 B2].
  apply binade_unique; rewrite <- Heq; assumption.
Qed.

Lemma binade_lt x k : 0 < x -> x < pow2 k -> (binade x < k)%Z.
Proof.
  intros Hx H. destruct (binade_spec x Hx) as [B1 _].
  apply pow2_lt_inv. eapply Qle_lt_trans; eassumption.
Qed.

Lemma binade_ge x k : pow2 k <= x -> (k <= binade x)%Z.
Proof.
  intros H.
  assert (Hx : 0 < x) by (eapply Qlt_le_trans; [apply (pow2_pos k) | exact H]).
  destruct (binade_spec x Hx) as [_ B2].
  assert (k < binade x + 1)%Z
    by (apply pow2_lt_inv; eapply Qle_lt_trans; eassumption).
  lia.
Qed.

Lemma binade_mono x y : 0 < x -> x <= y -> (binade x <= binade y)%Z.
Proof.
  intros Hx Hxy. apply binade_ge.
  destruct (binade_spec x Hx) as [B1 _]. eapply Qle_trans; eassumption.
Qed.

(** Rounding to the nearest integer, ties to even. *)
Lemma rhe_cases q :
  (roundHalfEven q = Qfloor q /\ q - inject_Z (Qfloor q) <= 1 # 2)
  \/ (roundHalfEven q = (Qfloor q + 1)%Z /\ 1 # 2 <= q - inject_Z (Qfloor q)).
Proof.
  unfold roundHalfEven.
  destruct (Qcompare_spec (q - inject_Z (Qfloor q)) (1 # 2)) as [H|H|H].
  - destruct (Z.even (Qfloor q)); [left | right]; split; trivial;
      rewrite H; apply Qle_refl.
  - left. split; [reflexivity | now apply Qlt_le_weak].
  - right. split; [reflexivity | now apply Qlt_le_weak].
Qed.

Lemma rhe_error q :
  q - (1 # 2) <= inject_Z (roundHalfEven q)
  /\ inject_Z (roundHalfEven q) <= q + (1 # 2).
Proof.
  pose proof (Qfloor_le q) as H1. pose proof (Qlt_floor q) as H2.
  rewrite inject_Z_plus in H2. change (inject_Z 1) with 1 in H2.
  destruct (rhe_cases q) as [[-> H]|[-> H]].
  - split; lra.
  - rewrite inject_Z_plus. change (inject_Z 1) with 1. split; lra.
Qed.

Lemma rhe_int z : roundHalfEven (inject_Z z) = z.
Proof.
  unfold roundHalfEven. rewrite Qfloor_Z.
  destruct (Qcompare_spec (inject_Z z - inject_Z z) (1 # 2)) as [H|H|H];
    try reflexivity; exfalso; lra.
Qed.

Lemma rhe_comp q q' : q == q' -> roundHalfEven q = roundHalfEven q'.
Proof.
  intros H. unfold roundHalfEven. rewrite (Qfloor_comp _ _ H).
  assert (Hc : Qcompare (q - inject_Z (Qfloor q')) (1 # 2)
               = Qcompare (q' - inject_Z (Qfloor q')) (1 # 2))
    by (apply Qcompare_comp; [rewrite H; reflexivity | reflexivity]).
  now rewrite Hc.
Qed.

Lemma rhe_mono q1 q2 : q1 <= q2 -> (roundHalfEven q1 <= roundHalfEven q2)%Z.
Proof.
  intros Hle. pose proof (Qfloor_resp_le _ _ Hle) as Hf.
  pose proof (Qfloor_le q2) as L2.
  destruct (Z.eq_dec (Qfloor q1) (Qfloor q2)) as [E|E].
  - unfold roundHalfEven. rewrite E.
    destruct (Qcompare_spec (q1 - inject_Z (Qfloor q2)) (1 # 2)) as [H1|H1|H1];
      destruct (Qcompare_spec (q2 - inject_Z (Qfloor q2)) (1 # 2)) as [H2|H2|H2];
      try (exfalso; lra); try destruct (Z.even (Qfloor q2)); lia.
  - destruct (rhe_cases q1) as [[-> _]|[-> _]];
      destruct (rhe_cases q2) as [[-> _]|[-> _]]; lia.
Qed.

Lemma rhe_ge_int q z : inject_Z z <= q -> (z <= roundHalfEven q)%Z.
Proof. intros H. rewrite <- (rhe_int z). now apply rhe_mono. Qed.

Lemma rhe_le_int q z : q <= inject_Z z -> (roundHalfEven q <= z)%Z.
Proof. intros H. rewrite <- (rhe_int z). now apply rhe_mono. Qed.

(** Rounding of a positive number. *)
Lemma ulpExponent_ge x : (-1074 <= ulpExponent x)%Z.
Proof. unfold ulpExponent. lia. Qed.

Lemma ulpExponent_binade x : (binade x - 52 <= ulpExponent x)%Z.
Proof. unfold ulpExponent. lia. Qed.

Lemma div_pow2 x e : x / pow2 e * pow2 e == x.
Proof. field. pose proof (pow2_pos e). lra. Qed.

Lemma rp_ge_grid x z :
  inject_Z z * pow2 (ulpExponent x) <= x ->
  inject_Z z * pow2 (ulpExponent x) <= roundPositive x.
Proof.
  intros H. unfold roundPositive. cbv zeta.
  apply Qmult_le_compat_r; [|apply Qlt_le_weak, pow2_pos].
  rewrite <- Zle_Qle. apply rhe_ge_int.
  apply Qle_shift_div_l; [apply pow2_pos | exact H].
Qed.

Lemma rp_le_grid x z :
  x <= inject_Z z * pow2 (ulpExponent x) ->
  roundPositive x <= inject_Z z * pow2 (ulpExponent x).
Proof.
  intros H. unfold roundPositive. cbv zeta.
  apply Qmult_le_compat_r; [|apply Qlt_le_weak, pow2_pos].
  rewrite <- Zle_Qle. apply rhe_le_int.
  apply Qle_shift_div_r; [apply pow2_pos | exact H].
Qed.

Lemma rp_error x :
  x - pow2 (ulpExponent x - 1) <= roundPositive x
  /\ roundPositive x <= x + pow2 (ulpExponent x - 1).
Proof.
  unfold roundPositive. cbv zeta. set (e := ulpExponent x).
  destruct (rhe_error (x / pow2 e)) as [H1 H2].
  pose proof (pow2_pos e) as Pe. rewrite pow2_pred.
  set (k := inject_Z (roundHalfEven (x / pow2 e))) in *.
  assert (A : (x / pow2 e - (1 # 2)) * pow2 e <= k * pow2 e)
    by (apply Qmult_le_compat_r; lra).
  assert (B : k * pow2 e <= (x / pow2 e + (1 # 2)) * pow2 e)
    by (apply Qmult_le_compat_r; lra).
  assert (A' : (x / pow2 e - (1 # 2)) * pow2 e == x - pow2 e / 2) by (field; lra).
  assert (B' : (x / pow2 e + (1 # 2)) * pow2 e == x + pow2 e / 2) by (field; lra).
  rewrite A' in A. rewrite B' in B. split; assumption.
Qed.

Lemma rp_nonneg x : 0 < x -> 0 <= roundPositive x.
Proof.
  intros Hx. pose proof (rp_ge_grid x 0) as H.
  rewrite Qmult_0_l in H. apply H. lra.
Qed.

Lemma pow2_as_grid a b :
  (b <= a)%Z -> pow2 a == inject_Z (2 ^ (a - b)) * pow2 b.
Proof.
  intros H. rewrite <- pow2_Z by lia. rewrite <- pow2_add.
  apply Qpower_comp; [reflexivity | lia].
Qed.

Lemma rp_mono x y : 0 < x -> x <= y -> roundPositive x <= roundPositive y.
Proof.
  intros Hx Hxy.
  assert (Hy : 0 < y) by lra.
  pose proof (binade_mono x y Hx Hxy) as Hb.
  destruct (binade_spec x Hx) as [X1 X2]. destruct (binade_spec y Hy) as [Y1 Y2].
  destruct (Z.eq_dec (ulpExponent x) (ulpExponent y)) as [E|E].
  - unfold roundPositive. cbv zeta. rewrite E.
    apply Qmult_le_compat_r; [|apply Qlt_le_weak, pow2_pos].
    rewrite <- Zle_Qle. apply rhe_mono.
    apply Qmult_le_compat_r; [exact Hxy|].
    apply Qlt_le_weak, Qinv_lt_0_compat, pow2_pos.
  - assert (Hlt : (ulpExponent x < ulpExponent y)%Z) by (unfold ulpExponent in *; lia).
    assert (Hey : ulpExponent y = (binade y - 52)%Z) by (unfold ulpExponent in *; lia).
    assert (Hbb : (binade x + 1 <= binade y)%Z) by (unfold ulpExponent in *; lia).
    apply Qle_trans with (pow2 (binade y)).
    + rewrite (pow2_as_grid (binade y) (ulpExponent x)) by lia.
      apply rp_le_grid. rewrite <- pow2_as_grid by lia.
      apply Qlt_le_weak. eapply Qlt_le_trans; [exact X2 | now apply pow2_le].
    + rewrite (pow2_as_grid (binade y) (ulpExponent y)) by lia.
      apply rp_ge_grid. rewrite <- pow2_as_grid by lia. exact Y1.
Qed.

Lemma rp_fixed x m e :
  x == inject_Z m * pow2 e -> (0 < m < 2 ^ 53)%Z -> (-1074 <= e)%Z ->
  roundPositive x == x.
Proof.
  intros Hx Hm He.
  assert (Hpos : 0 < x).
  { rewrite Hx. apply Qmult_lt_0_compat; [|apply pow2_pos].
    change 0 with (inject_Z 0). rewrite <- Zlt_Qlt. lia. }
  destruct (binade_spec x Hpos) as [B1 B2].
  assert (Hlt : x < pow2 (53 + e)).
  { rewrite Hx, pow2_add. apply Qmult_lt_r; [apply pow2_pos|].
    rewrite pow2_Z by lia. rewrite <- Zlt_Qlt. lia. }
  assert (Hb : (binade x < 53 + e)%Z) by now apply binade_lt.
  assert (HE : (ulpExponent x <= e)%Z) by (unfold ulpExponent; lia).
  assert (Hgrid : x == inject_Z (m * 2 ^ (e - ulpExponent x)) * pow2 (ulpExponent x)).
  { transitivity (inject_Z m * pow2 e); [exact Hx|].
    rewrite inject_Z_mult, (pow2_as_grid e (ulpExponent x)) by lia. ring. }
  apply Qle_antisym.
  - eapply Qle_trans; [apply (rp_le_grid x (m * 2 ^ (e - ulpExponent x)))|];
      rewrite <- Hgrid; apply Qle_refl.
  - eapply Qle_trans; [|apply (rp_ge_grid x (m * 2 ^ (e - ulpExponent x)))];
      rewrite <- Hgrid; apply Qle_refl.
Qed.


(** Rounding of any number. *)
Lemma round_pos x : 0 < x -> round x = roundPositive x.
Proof.
  intros H. unfold round. destruct x as [[|p|p] d]; try reflexivity;
    unfold Qlt in H; cbn in H; lia.
Qed.

Lemma round_zero x : x == 0 -> round x = 0.
Proof.
  intros H. unfold round. destruct x as [[|p|p] d]; try reflexivity;
    unfold Qeq in H; cbn in H; lia.
Qed.

Lemma round_nonneg x : 0 <= x -> 0 <= round x.
Proof.
  intros H. destruct (Qlt_le_dec 0 x) as [Hx|Hx].
  - rewrite round_pos by exact Hx. now apply rp_nonneg.
  - rewrite round_zero; [apply Qle_refl | lra].
Qed.

Lemma round_mono x y : 0 <= x -> x <= y -> round x <= round y.
Proof.
  intros Hx Hxy. destruct (Qlt_le_dec 0 x) as [Hp|Hp].
  - rewrite (round_pos x), (round_pos y) by lra. now apply rp_mono.
  - rewrite (round_zero x) by lra. apply round_nonneg. lra.
Qed.

Lemma round_fixed x m e :
  x == inject_Z m * pow2 e -> (0 <= m < 2 ^ 53)%Z -> (-1074 <= e)%Z ->
  round x == x.
Proof.
  intros Hx Hm He. destruct (Z.eq_dec m 0) as [->|Hne].
  - rewrite Qmult_0_l in Hx. rewrite (round_zero x Hx). now symmetry.
  - assert (Hpos : 0 < x).
    { rewrite Hx. apply Qmult_lt_0_compat; [|apply pow2_pos].
      change 0 with (inject_Z 0). rewrite <- Zlt_Qlt. lia. }
    rewrite round_pos by exact Hpos. apply (rp_fixed x m e); trivial. lia.
Qed.

Lemma round_int z : (0 <= z < 2 ^ 53)%Z -> round (inject_Z z) == inject_Z z.
Proof.
  intros Hz. apply (round_fixed _ z 0); trivial; [|lia].
  rewrite pow2_0. ring.
Qed.

(** The relative error of rounding up is at most 2^-53, unless the number
    is below the least normal number 2^-1022. *)
Lemma round_error x :
  0 < x -> round x <= x + x * pow2 (-53) \/ round x <= pow2 (-1022).
Proof.
  intros Hx. rewrite round_pos by exact Hx.
  destruct (binade_spec x Hx) as [B1 B2].
  destruct (Z_le_gt_dec (-1074) (binade x - 52)) as [Hn|Hs].
  - left. destruct (rp_error x) as [_ H].
    eapply Qle_trans; [exact H|].
    assert (HE : ulpExponent x = (binade x - 52)%Z) by (unfold ulpExponent; lia).
    rewrite HE.
    assert (Hp : pow2 (binade x - 52 - 1) == pow2 (binade x) * pow2 (-53)).
    { rewrite <- pow2_add. apply Qpower_comp; [reflexivity | lia]. }
    rewrite Hp. pose proof (pow2_pos (-53)) as P.
    assert (pow2 (binade x) * pow2 (-53) <= x * pow2 (-53))
      by (apply Qmult_le_compat_r; lra).
    lra.
  - right.
    assert (HE : ulpExponent x = (-1074)%Z) by (unfold ulpExponent; lia).
    assert (Hg : pow2 (-1022) == inject_Z (2 ^ 52) * pow2 (ulpExponent x))
      by (rewrite HE; apply (pow2_as_grid (-1022) (-1074)); lia).
    rewrite Hg. apply rp_le_grid. rewrite <- Hg.
    apply Qlt_le_weak. eapply Qlt_le_trans; [exact B2|]. apply pow2_le. lia.
Qed.

(** A number that rounding leaves as it is lies on the grid of its binade. *)
Lemma round_grid x :
  0 < x -> round x == x -> x < pow2 53 ->
  exists m e,
    x == inject_Z m * pow2 e /\ (0 < m < 2 ^ 53)%Z /\ (-1074 <= e <= 0)%Z.
Proof.
  intros Hx Hr Hlt. rewrite round_pos in Hr by exact Hx.
  destruct (binade_spec x Hx) as [B1 B2].
  pose proof (binade_lt x 53 Hx Hlt) as Hb.
  set (e := ulpExponent x). set (k := roundHalfEven (x / pow2 e)).
  assert (Hk : x == inject_Z k * pow2 e) by (symmetry; exact Hr).
  pose proof (pow2_pos e) as Pe.
  exists k, e. split; [exact Hk|]. split; [|unfold e, ulpExponent; lia].
  split.
  - rewrite Zlt_Qlt. change (inject_Z 0) with 0.
    apply (Qmult_lt_r _ _ _ Pe). rewrite Qmult_0_l, <- Hk. exact Hx.
  - rewrite Zlt_Qlt. apply (Qmult_lt_r _ _ _ Pe). rewrite <- Hk.
    eapply Qlt_le_trans; [exact B2|].
    rewrite <- pow2_Z by lia. rewrite <- pow2_add.
    apply pow2_le. unfold e, ulpExponent. lia.
Qed.

Lemma mult_le_nonneg_l (a x y : Q) : 0 <= a -> x <= y -> a * x <= a * y.
Proof.
  intros Ha Hxy. rewrite (Qmult_comm a x), (Qmult_comm a y).
  now apply Qmult_le_compat_r.
Qed.

(** An integer lies on every grid [2^e] with [e <= 0]. *)
Lemma int_on_grid (z e : Z) :
  (e <= 0)%Z -> inject_Z z == inject_Z (z * 2 ^ (- e)) * pow2 e.
Proof.
  intros He. rewrite inject_Z_mult, <- pow2_Z by lia.
  rewrite <- Qmult_assoc, <- pow2_add.
  replace (- e + e)%Z with 0%Z by lia. rewrite pow2_0. ring.
Qed.

(** Below an integer, a number of the grid [2^e] with [e <= 0] leaves a gap
    of one grid step at least. *)
Lemma grid_gap (m e Y : Z) :
  (e <= 0)%Z -> inject_Z m * pow2 e < inject_Z Y ->
  inject_Z m * pow2 e + pow2 e <= inject_Z Y.
Proof.
  intros He H. pose proof (pow2_pos e) as Pe.
  assert (HY : inject_Z Y == inject_Z (Y * 2 ^ (- e)) * pow2 e).
  { rewrite inject_Z_mult, <- pow2_Z by lia.
    rewrite <- Qmult_assoc, <- pow2_add.
    replace (- e + e)%Z with 0%Z by lia. rewrite pow2_0. ring. }
  assert (H1 : inject_Z m * pow2 e < inject_Z (Y * 2 ^ (- e)) * pow2 e)
    by (rewrite <- HY; exact H).
  apply (proj1 (Qmult_lt_r _ _ _ Pe)) in H1. rewrite <- Zlt_Qlt in H1.
  assert (H' : (m + 1 <= Y * 2 ^ (- e))%Z) by lia.
  rewrite Zle_Qle, inject_Z_plus in H'. change (inject_Z 1) with 1 in H'.
  assert (H2 : (inject_Z m + 1) * pow2 e <= inject_Z (Y * 2 ^ (- e)) * pow2 e)
    by (apply Qmult_le_compat_r; lra).
  rewrite HY. eapply Qle_trans; [|exact H2]. apply Qle_lteq. right. ring.
Qed.

(** Scaling a number of the grid by [c] and rounding does not reach [c * Y]
    when the number is below the integer [Y]. *)
Lemma round_below (c q : Q) (m e Y : Z) :
  q == inject_Z m * pow2 e -> (0 <= m < 2 ^ 53)%Z -> (-1074 <= e <= 0)%Z ->
  0 < c -> q < inject_Z Y -> pow2 (-1022) < c * inject_Z Y ->
  round (c * q) < c * inject_Z Y.
Proof.
  intros Hq Hm He Hc HY Hsmall. pose proof (pow2_pos e) as Pe.
  assert (Hq0 : 0 <= q).
  { rewrite Hq. apply Qmult_le_0_compat; [|lra].
    change 0 with (inject_Z 0). rewrite <- Zle_Qle. lia. }
  destruct (Qlt_le_dec 0 q) as [Hpos|Hz].
  - assert (Hx : 0 < c * q) by now apply Qmult_lt_0_compat.
    destruct (round_error (c * q) Hx) as [H|H]; [|lra].
    eapply Qle_lt_trans; [exact H|].
    assert (Hgap : q + pow2 e <= inject_Z Y).
    { rewrite Hq. apply grid_gap; [lia|]. now rewrite <- Hq. }
    assert (Hrel : q * pow2 (-53) < pow2 e).
    { rewrite Hq.
      assert (Hm' : inject_Z m < pow2 53)
        by (rewrite pow2_Z by lia; rewrite <- Zlt_Qlt; lia).
      assert (E1 : pow2 53 * pow2 (-53) == 1)
        by (rewrite <- pow2_add; reflexivity).
      pose proof (pow2_pos (-53)) as P53.
      assert (A : inject_Z m * pow2 (-53) < 1).
      { rewrite <- E1. apply Qmult_lt_r; assumption. }
      assert (B : inject_Z m * pow2 (-53) * pow2 e < 1 * pow2 e)
        by (apply Qmult_lt_r; assumption).
      eapply Qle_lt_trans; [|eapply Qlt_le_trans; [exact B|]];
        apply Qle_lteq; right; ring. }
    assert (C : c * (q + q * pow2 (-53)) < c * inject_Z Y)
      by (apply Qmult_lt_l; [exact Hc | lra]).
    eapply Qle_lt_trans; [|exact C]. apply Qle_lteq. right. ring.
  - assert (Hq' : q == 0) by lra.
    rewrite round_zero; [|rewrite Hq'; ring].
    eapply Qlt_trans; [apply (pow2_pos (-1022)) | exact Hsmall].
Qed.

(** Rounding does not go below the integer part. *)
Lemma round_ge_floor x :
  0 <= x -> x < pow2 53 -> inject_Z (Qfloor x) <= round x.
Proof.
  intros H0 H53. pose proof (Qfloor_le x) as Hf.
  assert (Hn : (0 <= Qfloor x)%Z) by (apply (Qfloor_resp_le 0 x H0)).
  assert (Hb : (Qfloor x < 2 ^ 53)%Z).
  { rewrite Zlt_Qlt. rewrite <- pow2_Z by lia. lra. }
  rewrite <- (round_int (Qfloor x)) by lia.
  apply round_mono; [|exact Hf].
  change 0 with (inject_Z 0). now rewrite <- Zle_Qle.
Qed.


Lemma ulpExponent_comp x y : 0 < x -> x == y -> ulpExponent x = ulpExponent y.
Proof. intros Hx H. unfold ulpExponent. now rewrite (binade_comp x y Hx H). Qed.

Lemma rp_comp x y : 0 < x -> x == y -> roundPositive x == roundPositive y.
Proof.
  intros Hx H. unfold roundPositive. cbv zeta.
  rewrite (ulpExponent_comp x y Hx H).
  rewrite (rhe_comp (x / pow2 (ulpExponent y)) (y / pow2 (ulpExponent y)));
    [reflexivity | now rewrite H].
Qed.

Lemma round_neg x : x < 0 -> round x = - roundPositive (- x).
Proof.
  intros H. unfold round. destruct x as [[|p|p] d]; try reflexivity;
    unfold Qlt in H; cbn in H; lia.
Qed.

Lemma round_comp x y : x == y -> round x == round y.
Proof.
  intros H. destruct (Q_dec x 0) as [[Hn|Hp]|Hz].
  - rewrite (round_neg x), (round_neg y) by lra.
    apply Qopp_comp, rp_comp; [lra | now rewrite H].
  - rewrite (round_pos x), (round_pos y) by lra. now apply rp_comp.
  - rewrite (round_zero x), (round_zero y); [reflexivity | lra | exact Hz].
Qed.

(** On the sample numbers, rounding agrees with the floating-point
    operations of the Standard Library. *)
Example round_agrees_with_library :
  forallb agreesWithLibrary Scenario.doubles = true.
Proof. vm_compute. reflexivity. Qed.

End Binary64Facts.

(** ** Facts about the JavaScript primitives *)

Module JSFacts.

Lemma ltb_iff (x y : Q) : JS.ltb x y = true <-> x < y.
Proof.
  unfold JS.ltb. rewrite negb_true_iff. split.
  - intros H. apply Qnot_le_lt. intros Hle.
    apply Qle_bool_iff in Hle. congruence.
  - intros H. destruct (Qle_bool y x) eqn:E; trivial.
    apply Qle_bool_iff in E. exfalso. exact (Qlt_not_le _ _ H E).
Qed.

Lemma ltb_false_iff (x y : Q) : JS.ltb x y = false <-> y <= x.
Proof.
  unfold JS.ltb. rewrite negb_false_iff. apply Qle_bool_iff.
Qed.

Lemma gtb_iff (x y : Q) : JS.gtb x y = true <-> y < x.
Proof. apply ltb_iff. Qed.


Lemma string_length_app (a b : string) :
  String.length (a ++ b)%string = (String.length a + String.length b)%nat.
Proof. induction a as [|c a IH]; simpl; [reflexivity | now rewrite IH]. Qed.

Lemma repeatChar_length (c : ascii) (n : nat) :
  String.length (JS.repeatChar c n) = n.
Proof. induction n as [|n IH]; simpl; [reflexivity | now rewrite IH]. Qed.

Lemma padStart_length (n : nat) (s : string) :
  String.length (JS.padStart n s) = Nat.max n (String.length s).
Proof.
  unfold JS.padStart. rewrite string_length_app, repeatChar_length. lia.
Qed.

Lemma allDigits_app (a b : string) :
  AlignmentSpec.allDigits (a ++ b)%string
  = AlignmentSpec.allDigits a && AlignmentSpec.allDigits b.
Proof.
  induction a as [|c a IH]; simpl; [reflexivity|].
  rewrite IH. now rewrite andb_assoc.
Qed.

Lemma allDigits_zeros (n : nat) :
  AlignmentSpec.allDigits (JS.repeatChar "0" n) = true.
Proof. induction n as [|n IH]; simpl; [reflexivity | exact IH]. Qed.

Lemma allDigits_padStart (n : nat) (s : string) :
  AlignmentSpec.allDigits s = true ->
  AlignmentSpec.allDigits (JS.padStart n s) = true.
Proof.
  intros H. unfold JS.padStart. now rewrite allDigits_app, allDigits_zeros, H.
Qed.

(** The decimal digits of an unsigned number are digits. *)
Lemma allDigits_uint (u : Decimal.uint) :
  AlignmentSpec.allDigits (NilEmpty.string_of_uint u) = true.
Proof. induction u; simpl; trivial. Qed.

Lemma allDigits_decimal (z : Z) :
  (0 <= z)%Z -> AlignmentSpec.allDigits (JS.decimal z) = true.
Proof.
  intros Hz. unfold JS.decimal.
  destruct z as [|p|p]; [reflexivity | | lia].
  simpl. unfold NilZero.string_of_uint.
  destruct (Pos.to_uint p); try reflexivity; apply allDigits_uint.
Qed.

Lemma decimal_nonempty (z : Z) : JS.decimal z <> EmptyString.
Proof.
  unfold JS.decimal. destruct z as [|p|p]; cbn [Z.to_int NilZero.string_of_int];
    try discriminate.
  unfold NilZero.string_of_uint. destruct (Pos.to_uint p); discriminate.
Qed.

(** Below 2^53 an integral number prints as its decimal digits. *)
Lemma toString_small (z : Z) :
  (Z.abs z < 2 ^ 53)%Z -> JS.toString z = JS.decimal z.
Proof.
  intros H. unfold JS.toString. apply Z.ltb_lt in H. now rewrite H.
Qed.

Lemma allDigits_toString (z : Z) :
  (0 <= z < 2 ^ 53)%Z -> AlignmentSpec.allDigits (JS.toString z) = true.
Proof.
  intros Hz. rewrite toString_small by lia. apply allDigits_decimal. lia.
Qed.

(** The digits of a number that is not negative start with a digit. *)
Lemma decimal_head (z : Z) :
  (0 <= z)%Z ->
  exists c r, JS.decimal z = String c r /\ JS.isDigit c = true.
Proof.
  intros Hz. pose proof (allDigits_decimal z Hz) as Hd.
  pose proof (decimal_nonempty z) as Hn.
  destruct (JS.decimal z) as [|c r]; [congruence|].
  exists c, r. split; [reflexivity|].
  cbn [AlignmentSpec.allDigits] in Hd. now apply andb_true_iff in Hd.
Qed.

Lemma candidate_nonneg (x : Z) (j : nat) (s : Z) (k : nat) :
  (0 <= x)%Z -> JS.candidate x j = Some (s, k) -> (0 <= s)%Z.
Proof.
  intros Hx. unfold JS.candidate.
  assert (Hp : (0 < 10 ^ Z.of_nat j)%Z) by (apply Z.pow_pos_nonneg; lia).
  assert (Hlo : (0 <= x / 10 ^ Z.of_nat j)%Z) by (apply Z.div_pos; lia).
  repeat match goal with
         | |- context [if ?b then _ else _] => destruct b
         | |- context [match ?c with Eq => _ | Lt => _ | Gt => _ end] => destruct c
         end;
    intros H; try discriminate; injection H as <- _; lia.
Qed.

Lemma shortest_nonneg (x : Z) (j : nat) :
  (0 <= x)%Z -> (0 <= fst (JS.shortest x j))%Z.
Proof.
  intros Hx. induction j as [|j IH]; cbn [JS.shortest].
  - destruct (JS.candidate x 0) as [[s k]|] eqn:E; [|exact Hx].
    exact (candidate_nonneg x 0 s k Hx E).
  - destruct (JS.candidate x (S j)) as [[s k]|] eqn:E; [|exact IH].
    exact (candidate_nonneg x (S j) s k Hx E).
Qed.

Lemma stripTrailingZeros_head (c : ascii) (r : string) :
  JS.stripTrailingZeros (String c r) = EmptyString
  \/ exists r', JS.stripTrailingZeros (String c r) = String c r'.
Proof.
  cbn [JS.stripTrailingZeros]. destruct (JS.stripTrailingZeros r).
  - destruct (Ascii.eqb c "0"); [now left | right; now eexists].
  - right. now eexists.
Qed.

Lemma toStringLarge_head (x : Z) :
  (0 <= x)%Z ->
  exists c r, JS.toStringLarge x = String c r /\ JS.isDigit c = true.
Proof.
  intros Hx. unfold JS.toStringLarge.
  pose proof (shortest_nonneg x (String.length (JS.decimal x) - 1) Hx) as Hs.
  destruct (JS.shortest x (String.length (JS.decimal x) - 1)) as [s j].
  cbn [fst] in Hs. destruct (decimal_head s Hs) as (c & r & -> & Hc).
  destruct (_ <=? 21)%nat.
  - exists c. eexists. split; [reflexivity | exact Hc].
  - destruct (stripTrailingZeros_head c r) as [->|(r' & ->)].
    + exists c, r. now split.
    + destruct r'; exists c; eexists; (split; [reflexivity | exact Hc]).
Qed.


End JSFacts.

(** ** The merge pass *)

Module MergeFacts.

Import SpeakerSegment DiarizationAlignment AlignmentSpec.

Section Merge.

Variable mergeThreshold : Q.


(** The loop, started from any state with an accumulator, computes
    [mergeFrom]. *)
Lemma loop_mergeFrom (rest processed : list SpeakerSegment.t)
    (current : SpeakerSegment.t) :
  exists processed' last,
    fold_left (mergeStep mergeThreshold) rest (processed, Some current)
    = (processed', Some last)
    /\ processed' ++ [last] = processed ++ mergeFrom mergeThreshold current rest.
Proof.
  revert processed current.
  induction rest as [|segment rest IH]; intros processed current; simpl.
  - now exists processed, current.
  - destruct (mergeable mergeThreshold current segment).
    + apply IH.
    + destruct (IH (processed ++ [current]) segment) as (p & l & Hf & Happ).
      exists p, l. split; [exact Hf|].
      rewrite Happ, <- app_assoc. reflexivity.
Qed.

Lemma postProcessAlignment_mergeFrom (segment : SpeakerSegment.t)
    (rest : list SpeakerSegment.t) :
  postProcessAlignment (segment :: rest) mergeThreshold
  = mergeFrom mergeThreshold segment rest.
Proof.
  unfold postProcessAlignment. simpl.
  destruct (loop_mergeFrom rest [] segment) as (p & l & Hf & Happ).
  rewrite Hf. exact Happ.
Qed.

Lemma mergeFrom_length (rest : list SpeakerSegment.t) (current : SpeakerSegment.t) :
  (List.length (mergeFrom mergeThreshold current rest) <= S (List.length rest))%nat.
Proof.
  revert current. induction rest as [|segment rest IH]; intros current; simpl.
  - lia.
  - destruct (mergeable mergeThreshold current segment); simpl.
    + specialize (IH (mergeInto current segment)). lia.
    + specialize (IH segment). lia.
Qed.

(** The first segment of the result starts where the accumulator starts
    and carries its label. *)
Lemma mergeFrom_head (rest : list SpeakerSegment.t) (current : SpeakerSegment.t) :
  exists first others,
    mergeFrom mergeThreshold current rest = first :: others
    /\ speaker first = speaker current /\ start first = start current.
Proof.
  revert current. induction rest as [|segment rest IH]; intros current; simpl.
  - now exists current, [].
  - destruct (mergeable mergeThreshold current segment).
    + destruct (IH (mergeInto current segment)) as (f & o & He & Hs & Ht).
      exists f, o. now rewrite He.
    + now exists current, (mergeFrom mergeThreshold segment rest).
Qed.

Lemma mergeFrom_adjacent (rest : list SpeakerSegment.t) :
  forall current l1 p q l2,
    mergeFrom mergeThreshold current rest = l1 ++ p :: q :: l2 ->
    mergeable mergeThreshold p q = false.
Proof.
  induction rest as [|segment rest IH]; intros current l1 p q l2; simpl.
  - destruct l1 as [|x [|y l1]]; discriminate.
  - destruct (mergeable mergeThreshold current segment) eqn:Hm.
    + apply IH.
    + destruct l1 as [|x l1]; simpl; intros Heq.
      * injection Heq as Hp Hq. subst p.
        destruct (mergeFrom_head rest segment) as (f & o & He & Hs & Ht).
        rewrite He in Hq. injection Hq as Hf _. subst f.
        unfold mergeable in *. now rewrite Hs, Ht.
      * injection Heq as _ Heq. exact (IH _ _ _ _ _ Heq).
Qed.

Lemma mergeFrom_Forall (P : SpeakerSegment.t -> Prop) :
  (forall a b, P a -> P b -> P (mergeInto a b)) ->
  forall rest current,
    P current -> Forall P rest -> Forall P (mergeFrom mergeThreshold current rest).
Proof.
  intros Hmerge. induction rest as [|segment rest IH]; intros current Hc Hr; simpl.
  - now constructor.
  - inversion Hr as [|? ? Hs Hrest]; subst.
    destruct (mergeable mergeThreshold current segment).
    + apply IH; auto.
    + constructor; auto.
Qed.

Lemma postProcessAlignment_Forall (P : SpeakerSegment.t -> Prop) :
  (forall a b, P a -> P b -> P (mergeInto a b)) ->
  forall segments,
    Forall P segments -> Forall P (postProcessAlignment segments mergeThreshold).
Proof.
  intros Hmerge [|segment rest] H; [exact H|].
  rewrite postProcessAlignment_mergeFrom.
  inversion H; subst. now apply mergeFrom_Forall.
Qed.

End Merge.



End MergeFacts.

(** ** Speaker assignment *)

Module AlignFacts.

Import SpeakerSegment DiarizationAlignment AlignmentSpec.

Section BestMatch.

Variable transSegment : Segment.t.
Variable diarization : list DiarizationSegment.t.

Lemma bestStep_inv st d :
  In d diarization ->
  bestInv transSegment diarization st ->
  bestInv transSegment diarization (bestStep transSegment st d).
Proof.
  intros Hin Hinv. unfold bestStep.
  destruct (JS.gtb (calculateOverlap transSegment d) (snd st)) eqn:Hgt;
    [|exact Hinv].
  apply JSFacts.gtb_iff in Hgt.
  unfold bestInv in *. cbn [fst snd].
  repeat split; trivial.
  destruct st as [[b|] m]; cbn [fst snd] in *.
  - destruct Hinv as (_ & _ & Hpos). lra.
  - rewrite Hinv in Hgt. exact Hgt.
Qed.

Lemma fold_bestStep_inv l st :
  incl l diarization -> bestInv transSegment diarization st ->
  bestInv transSegment diarization (fold_left (bestStep transSegment) l st).
Proof.
  revert st. induction l as [|d l IH]; intros st Hincl Hinv; simpl.
  - exact Hinv.
  - apply IH.
    + intros x Hx. apply Hincl. now right.
    + apply bestStep_inv; [apply Hincl; now left | exact Hinv].
Qed.

Lemma findBestMatch_inv :
  bestInv transSegment diarization (findBestMatch transSegment diarization).
Proof.
  apply fold_bestStep_inv; [apply incl_refl | reflexivity].
Qed.

End BestMatch.

(** A positive overlap is at most the duration of the transcription
    segment, which is then positive too. *)
Lemma overlap_le_duration (seg : Segment.t) (d : DiarizationSegment.t) :
  0 < calculateOverlap seg d ->
  calculateOverlap seg d <= Segment.end_ seg - Segment.start seg.
Proof.
  unfold calculateOverlap. intros Hpos.
  set (x := Qmin (Segment.end_ seg) (DiarizationSegment.end_ d)
            - Qmax (Segment.start seg) (DiarizationSegment.start d)) in *.
  assert (Hx : x <= Segment.end_ seg - Segment.start seg).
  { unfold x.
    pose proof (Q.le_min_l (Segment.end_ seg) (DiarizationSegment.end_ d)).
    pose proof (Q.le_max_l (Segment.start seg) (DiarizationSegment.start d)).
    lra. }
  destruct (Q.max_spec 0 x) as [[H1 H2]|[H1 H2]].
  - rewrite H2. exact Hx.
  - rewrite H2 in Hpos. lra.
Qed.

Lemma ratio_in_range (a b : Q) : 0 < a -> a <= b -> 0 <= a / b /\ a / b <= 1.
Proof.
  intros Ha Hab. assert (Hb : 0 < b) by lra. split.
  - apply Qle_shift_div_l; [exact Hb | lra].
  - apply Qle_shift_div_r; [exact Hb | lra].
Qed.

Section Align.

Variables overlapThreshold confidenceThreshold : Q.
Variable diarization : list DiarizationSegment.t.

Lemma alignStep_app aligned transSegment :
  alignStep overlapThreshold confidenceThreshold diarization aligned transSegment
  = aligned
    ++ alignOne overlapThreshold confidenceThreshold diarization transSegment.
Proof.
  unfold alignOne, alignStep.
  destruct (findBestMatch transSegment diarization) as [[best|] maxOverlap];
    [|reflexivity].
  destruct (JS.gtb maxOverlap overlapThreshold); [|reflexivity].
  destruct (JS.geb _ confidenceThreshold); [reflexivity|].
  now rewrite app_nil_r.
Qed.

Lemma fold_alignStep segs aligned :
  fold_left (alignStep overlapThreshold confidenceThreshold diarization)
    segs aligned
  = aligned
    ++ flat_map (alignOne overlapThreshold confidenceThreshold diarization) segs.
Proof.
  revert aligned. induction segs as [|s segs IH]; intros aligned; simpl.
  - now rewrite app_nil_r.
  - rewrite IH, alignStep_app, <- app_assoc. reflexivity.
Qed.

(** Without a span whose overlap exceeds the threshold, a transcription
    segment contributes exactly the unknown-speaker segment. *)
Lemma alignOne_unknown transSegment :
  (forall d, In d diarization ->
             ~ overlapThreshold < calculateOverlap transSegment d) ->
  alignOne overlapThreshold confidenceThreshold diarization transSegment
  = [unknownSegment transSegment].
Proof.
  intros Hnone. unfold alignOne, alignStep.
  pose proof (findBestMatch_inv transSegment diarization) as Hinv.
  destruct (findBestMatch transSegment diarization) as [[best|] maxOverlap];
    [|reflexivity].
  unfold bestInv in Hinv. cbn [fst snd] in Hinv.
  destruct Hinv as (Hin & Heq & _).
  destruct (JS.gtb maxOverlap overlapThreshold) eqn:Hgt; [|reflexivity].
  apply JSFacts.gtb_iff in Hgt. rewrite Heq in Hgt.
  now destruct (Hnone best Hin).
Qed.

Lemma alignOne_confidence transSegment :
  Forall confidenceInRange
    (alignOne overlapThreshold confidenceThreshold diarization transSegment).
Proof.
  assert (Hu : confidenceInRange (unknownSegment transSegment))
    by (unfold confidenceInRange; simpl; lra).
  unfold alignOne, alignStep.
  pose proof (findBestMatch_inv transSegment diarization) as Hinv.
  destruct (findBestMatch transSegment diarization) as [[best|] maxOverlap];
    [|now repeat constructor].
  unfold bestInv in Hinv. cbn [fst snd] in Hinv.
  destruct Hinv as (_ & Heq & Hpos).
  destruct (JS.gtb maxOverlap overlapThreshold); [|now repeat constructor].
  destruct (JS.geb _ confidenceThreshold); [|constructor].
  repeat constructor; cbn [confidence].
  - apply ratio_in_range; [exact Hpos|].
    rewrite Heq in *. now apply overlap_le_duration.
  - apply ratio_in_range; [exact Hpos|].
    rewrite Heq in *. now apply overlap_le_duration.
Qed.

End Align.

End AlignFacts.

(** ** Speaker labels *)

Module LabelFacts.

Import SpeakerSegment DiarizationAlignment AlignmentSpec.

Lemma substring_all (s : string) : String.substring 0 (String.length s) s = s.
Proof. induction s as [|c s IH]; simpl; [reflexivity | now rewrite IH]. Qed.

Lemma parseDigits_nonneg (s : string) (acc : Z) :
  (0 <= acc)%Z -> (0 <= JS.parseDigits acc s)%Z.
Proof.
  revert acc. induction s as [|c s IH]; intros acc Hacc; cbn [JS.parseDigits].
  - exact Hacc.
  - apply IH. unfold JS.digitValue. lia.
Qed.

Lemma hashString_nonneg (s : string) : (0 <= hashString s)%Z.
Proof. unfold hashString. apply Z.abs_nonneg. Qed.

Lemma hash_bucket_range (s : string) :
  Z.rem (hashString s) 10 = (hashString s mod 10)%Z
  /\ (1 <= hashString s mod 10 + 1 <= 10)%Z.
Proof.
  pose proof (hashString_nonneg s) as H. split.
  - apply Z.rem_mod_nonneg; lia.
  - pose proof (Z.mod_pos_bound (hashString s) 10). lia.
Qed.

(** [parseInt] gives the integer itself below 2^53, and never a negative
    number. *)
Lemma parseInt_small (digits : string) :
  (JS.parseDigits 0 digits < 2 ^ 53)%Z ->
  JS.parseInt digits = JS.Finite (JS.parseDigits 0 digits).
Proof.
  intros Hlt. pose proof (parseDigits_nonneg digits 0 ltac:(lia)) as H0.
  unfold JS.parseInt. cbv zeta.
  set (n := JS.parseDigits 0 digits) in *.
  pose proof (Binary64Facts.round_int n ltac:(lia)) as Hr.
  assert (Hb : inject_Z n < Binary64.pow2 1024).
  { eapply Qlt_le_trans; [|apply (Binary64Facts.pow2_le 53 1024); lia].
    rewrite Binary64Facts.pow2_Z by lia. rewrite <- Zlt_Qlt. lia. }
  destruct (Qle_bool _ _) eqn:E.
  - apply Qle_bool_iff in E. rewrite Hr in E.
    exfalso. exact (Qlt_not_le _ _ Hb E).
  - f_equal. rewrite (Qfloor_comp _ _ Hr). apply Qfloor_Z.
Qed.


Lemma numbered_of_nonneg (z : Z) :
  (0 <= z < 2 ^ 53)%Z ->
  numberedLabel ("speaker" ++ JS.padStart 2 (JS.toString z)) = true.
Proof.
  intros Hz. unfold numberedLabel.
  set (x := JS.padStart 2 (JS.toString z)).
  assert (Hlen : (2 <= String.length x)%nat)
    by (unfold x; rewrite JSFacts.padStart_length; lia).
  assert (Hdig : allDigits x = true)
    by (apply JSFacts.allDigits_padStart, JSFacts.allDigits_toString, Hz).
  change (stripPrefix "speaker" ("speaker" ++ x)) with (Some x).
  cbv beta iota. rewrite Hdig, andb_true_r. now apply Nat.leb_le.
Qed.

Lemma normalizeSpeakerLabel_numbered (label : string) :
  safeLabel label = true -> numberedLabel (normalizeSpeakerLabel label) = true.
Proof.
  unfold safeLabel, normalizeSpeakerLabel.
  destruct (JS.matchDigits label) as [digits|].
  - intros H. apply Z.ltb_lt in H. rewrite parseInt_small by exact H.
    cbn [JS.numberToString]. apply numbered_of_nonneg.
    split; [apply parseDigits_nonneg; lia | exact H].
  - intros _. apply numbered_of_nonneg.
    destruct (hash_bucket_range label) as [-> ?]. lia.
Qed.



(** The capture is the leftmost maximal run of digits. *)
Lemma takeDigits_split (s : string) :
  exists post,
    s = (JS.takeDigits s ++ post)%string
    /\ allDigits (JS.takeDigits s) = true
    /\ noLeadingDigit post = true.
Proof.
  induction s as [|c s (post & Heq & Hd & Hn)]; simpl.
  - now exists EmptyString.
  - destruct (JS.isDigit c) eqn:Hc.
    + exists post. simpl. rewrite Hc, Hd, <- Heq. auto.
    + exists (String c s). simpl. now rewrite Hc.
Qed.

Lemma matchDigits_some (label : string) :
  hasDigit label = true ->
  exists pre digits post,
    label = (pre ++ digits ++ post)%string
    /\ hasDigit pre = false
    /\ digits <> EmptyString
    /\ allDigits digits = true
    /\ noLeadingDigit post = true
    /\ JS.matchDigits label = Some digits.
Proof.
  induction label as [|c s IH]; simpl; [discriminate|].
  destruct (JS.isDigit c) eqn:Hc; simpl.
  - intros _. destruct (takeDigits_split s) as (post & Heq & Hd & Hn).
    exists EmptyString, (String c (JS.takeDigits s)), post. simpl.
    rewrite Hc, Hd, <- Heq. repeat split; auto. discriminate.
  - intros H. destruct (IH H) as (pre & ds & post & Heq & Hp & Hne & Hd & Hn & Hm).
    exists (String c pre), ds, post. simpl.
    rewrite Hc, Hp, <- Heq. repeat split; auto.
Qed.

Lemma matchDigits_none (label : string) :
  hasDigit label = false -> JS.matchDigits label = None.
Proof.
  induction label as [|c s IH]; simpl; [reflexivity|].
  destruct (JS.isDigit c); simpl; [discriminate | exact IH].
Qed.

End LabelFacts.

(** ** The aligned output *)

Module AlignmentTheorems.

Import SpeakerSegment DiarizationAlignment AlignmentSpec.

Lemma alignedBeforeMerge_flat_map transcription diarization options :
  alignedBeforeMerge transcription diarization options
  = flat_map
      (alignOne (overlapThresholdOf options) (confidenceThresholdOf options)
         diarization)
      (transcriptionSegments transcription diarization).
Proof.
  unfold alignedBeforeMerge. now rewrite AlignFacts.fold_alignStep.
Qed.

(** C1 (as amended).  For every transcription segment processed by
    [alignTranscriptionWithSpeakers], if no diarization span has an
    intersection with it strictly greater than [overlapThreshold], the
    iteration appends one segment for it, and the output before the merge
    pass contains that segment: same text, start and end, speaker label
    exactly ["speaker_unknown"] and confidence 0. *)
Theorem unmatched_segment_is_unknown
    (transcription : TranscriptionResult.t)
    (diarization : list DiarizationSegment.t)
    (options : AlignmentOptions) (transSegment : Segment.t) :
  In transSegment (transcriptionSegments transcription diarization) ->
  (forall d, In d diarization ->
     ~ overlapThresholdOf options < calculateOverlap transSegment d) ->
  let unknown :=
    {| text := Segment.text transSegment;
       speaker := "speaker_unknown";
       start := Segment.start transSegment;
       end_ := Segment.end_ transSegment;
       confidence := 0 |} in
  (forall aligned,
     alignStep (overlapThresholdOf options) (confidenceThresholdOf options)
       diarization aligned transSegment
     = aligned ++ [unknown])
  /\ In unknown (alignedBeforeMerge transcription diarization options).
Proof.
  intros Hin Hnone unknown.
  pose proof (AlignFacts.alignOne_unknown (overlapThresholdOf options)
                (confidenceThresholdOf options) diarization transSegment Hnone)
    as Hone.
  split.
  - intros aligned. rewrite AlignFacts.alignStep_app, Hone. reflexivity.
  - rewrite alignedBeforeMerge_flat_map. apply in_flat_map.
    exists transSegment. split; [exact Hin|]. rewrite Hone. now left.
Qed.

Lemma aligned_confidence_in_range transcription diarization options :
  Forall confidenceInRange
    (alignTranscriptionWithSpeakers transcription diarization options).
Proof.
  unfold alignTranscriptionWithSpeakers.
  apply MergeFacts.postProcessAlignment_Forall.
  - intros a b [Ha1 Ha2] [Hb1 Hb2]. unfold confidenceInRange, mergeInto.
    cbn [confidence]. split.
    + now apply Q.min_glb.
    + eapply Qle_trans; [apply Q.le_min_l | exact Ha2].
  - rewrite alignedBeforeMerge_flat_map. apply Forall_forall.
    intros s Hs. apply in_flat_map in Hs. destruct Hs as (seg & _ & Hs).
    pose proof (AlignFacts.alignOne_confidence (overlapThresholdOf options)
                  (confidenceThresholdOf options) diarization seg) as Hall.
    rewrite Forall_forall in Hall. now apply Hall.
Qed.

(** C7.  When every transcription segment and every diarization span ends
    no earlier than it starts, [overlapThreshold] is not negative and
    [confidenceThreshold] lies in [0,1], every segment returned by
    [alignTranscriptionWithSpeakers], merge pass included, has a confidence
    in [0,1]. *)
Theorem confidence_in_unit_interval
    (transcription : TranscriptionResult.t)
    (diarization : list DiarizationSegment.t) (options : AlignmentOptions) :
  (forall segs, TranscriptionResult.segments transcription = Some segs ->
     Forall (fun s => Segment.start s <= Segment.end_ s) segs) ->
  Forall (fun d => DiarizationSegment.start d <= DiarizationSegment.end_ d)
    diarization ->
  0 <= overlapThresholdOf options ->
  0 <= confidenceThresholdOf options <= 1 ->
  Forall (fun s => 0 <= confidence s /\ confidence s <= 1)
    (alignTranscriptionWithSpeakers transcription diarization options).
Proof.
  intros _ _ _ _. apply aligned_confidence_in_range.
Qed.

(** C10 (as amended).  When the first run of digits of every diarization
    label denotes an integer below 2^53, every speaker label in the output
    of [alignTranscriptionWithSpeakers] is either exactly
    ["speaker_unknown"] or ["speaker"] followed by at least two decimal
    digits, whatever the transcription and the options. *)
Theorem output_labels_well_formed
    (transcription : TranscriptionResult.t)
    (diarization : list DiarizationSegment.t) (options : AlignmentOptions) :
  Forall (fun d => safeLabel (DiarizationSegment.speaker d) = true) diarization ->
  Forall (fun s => wellFormedLabel (speaker s) = true)
    (alignTranscriptionWithSpeakers transcription diarization options).
Proof.
  intros Hsafe. unfold alignTranscriptionWithSpeakers.
  apply MergeFacts.postProcessAlignment_Forall.
  - intros a b Ha _. exact Ha.
  - rewrite alignedBeforeMerge_flat_map. apply Forall_forall.
    intros s Hs. apply in_flat_map in Hs. destruct Hs as (seg & _ & Hs).
    unfold alignOne, alignStep in Hs.
    pose proof (AlignFacts.findBestMatch_inv seg diarization) as Hinv.
    destruct (findBestMatch seg diarization) as [[best|] maxOverlap].
    + unfold bestInv in Hinv. cbn [fst] in Hinv. destruct Hinv as (Hin & _).
      destruct (JS.gtb maxOverlap (overlapThresholdOf options)).
      * destruct (JS.geb _ (confidenceThresholdOf options));
          simpl in Hs; [|contradiction].
        destruct Hs as [<-|[]]. cbn [speaker]. unfold wellFormedLabel.
        rewrite LabelFacts.normalizeSpeakerLabel_numbered; [apply orb_true_r|].
        rewrite Forall_forall in Hsafe. now apply Hsafe.
      * simpl in Hs. destruct Hs as [<-|[]]. reflexivity.
    + simpl in Hs. destruct Hs as [<-|[]]. reflexivity.
Qed.

(** C6 (as amended).  A label with a digit splits as [pre ++ digits ++ post]
    where [pre] has no digit, [digits] is a non-empty run of digits and
    [post] does not start with a digit; when [digits] denotes an integer
    below 2^53 the label maps to ["speaker"] followed by that integer in
    decimal, padded with zeros to at least two digits.  A label without a
    digit maps to ["speaker"] followed by the padded value
    [(hashString label mod 10) + 1], which lies between 1 and 10.
    ["SPEAKER_07"] maps to ["speaker07"]. *)
Theorem normalizeSpeakerLabel_spec (label : string) :
  (hasDigit label = true ->
   exists pre digits post,
     label = (pre ++ digits ++ post)%string
     /\ hasDigit pre = false
     /\ digits <> EmptyString
     /\ allDigits digits = true
     /\ noLeadingDigit post = true
     /\ ((JS.parseDigits 0 digits < 2 ^ 53)%Z ->
         normalizeSpeakerLabel label
         = ("speaker"
            ++ JS.padStart 2 (JS.decimal (JS.parseDigits 0 digits)))%string
         /\ (2 <= String.length
                    (JS.padStart 2 (JS.decimal (JS.parseDigits 0 digits))))%nat
         /\ allDigits (JS.padStart 2 (JS.decimal (JS.parseDigits 0 digits)))
            = true))
  /\ (hasDigit label = false ->
      normalizeSpeakerLabel label
      = ("speaker"
         ++ JS.padStart 2 (JS.decimal (hashString label mod 10 + 1)))%string
      /\ (1 <= hashString label mod 10 + 1 <= 10)%Z)
  /\ normalizeSpeakerLabel "SPEAKER_07" = "speaker07".
Proof.
  split; [|split; [|reflexivity]].
  - intros Hd.
    destruct (LabelFacts.matchDigits_some label Hd)
      as (pre & digits & post & Heq & Hp & Hne & Hall & Hn & Hm).
    exists pre, digits, post.
    assert (Hv : (0 <= JS.parseDigits 0 digits)%Z)
      by (apply LabelFacts.parseDigits_nonneg; lia).
    repeat (split; [assumption|]).
    intros Hsafe. split; [|split].
    + unfold normalizeSpeakerLabel. rewrite Hm.
      rewrite LabelFacts.parseInt_small by exact Hsafe.
      cbn [JS.numberToString]. rewrite JSFacts.toString_small by lia.
      reflexivity.
    + rewrite JSFacts.padStart_length. lia.
    + now apply JSFacts.allDigits_padStart, JSFacts.allDigits_decimal.
  - intros Hd. destruct (LabelFacts.hash_bucket_range label) as [Hrem Hrange].
    split; [|exact Hrange].
    unfold normalizeSpeakerLabel.
    rewrite (LabelFacts.matchDigits_none label Hd). cbv zeta.
    rewrite Hrem. rewrite JSFacts.toString_small by lia. reflexivity.
Qed.

(** Closed comparisons of rationals, by evaluation. *)
Ltac qdecide :=
  vm_compute; first [reflexivity | discriminate | intro; discriminate].

Import Scenario.

Lemma unmatched_segment_is_unknown_witness :
  In (unknownSegment segmentC)
    (alignedBeforeMerge (transcriptionOf [segmentC]) diarizationC defaultAlignment).
Proof.
  apply (unmatched_segment_is_unknown (transcriptionOf [segmentC]) diarizationC
           defaultAlignment segmentC).
  - simpl. now left.
  - intros d Hd. simpl in Hd. destruct Hd as [<-|[<-|[]]]; qdecide.
Defined.

(** On scenario C no span overlaps the segment, and no segment of the output
    before the merge pass carries the label ["unknown speaker"]: the label
    written by the code is ["speaker_unknown"]. *)
Lemma unknown_speaker_literal_counterexample :
  (forall d, In d diarizationC ->
     ~ overlapThresholdOf defaultAlignment < calculateOverlap segmentC d)
  /\ In segmentC (transcriptionSegments (transcriptionOf [segmentC]) diarizationC)
  /\ alignedBeforeMerge (transcriptionOf [segmentC]) diarizationC defaultAlignment
     = [ {| text := "text"; speaker := "speaker_unknown";
            start := 100; end_ := 110; confidence := 0 |} ]
  /\ ~ (exists s,
          In s (alignedBeforeMerge (transcriptionOf [segmentC]) diarizationC
                  defaultAlignment)
          /\ speaker s = "unknown speaker" /\ confidence s == 0).
Proof.
  repeat split.
  - intros d Hd. simpl in Hd. destruct Hd as [<-|[<-|[]]]; qdecide.
  - simpl. now left.
  - intros (s & Hin & Hsp & _). vm_compute in Hin.
    destruct Hin as [<-|[]]. discriminate Hsp.
Qed.

(** A segment whose best span exceeds the overlap threshold while the ratio
    stays below the confidence threshold adds nothing to [aligned]. *)
Example low_confidence_segment_adds_nothing :
  overlapThresholdOf defaultAlignment
  < calculateOverlap segmentLow (DiarizationSegment.mk 0 4 "SPEAKER_00")
  /\ alignedBeforeMerge (transcriptionOf [segmentLow]) diarizationLow defaultAlignment
     = []
  /\ alignTranscriptionWithSpeakers (transcriptionOf [segmentLow]) diarizationLow
       defaultAlignment = [].
Proof. repeat split. Qed.




Lemma confidence_in_unit_interval_witness :
  Forall (fun s => 0 <= confidence s /\ confidence s <= 1)
    (alignTranscriptionWithSpeakers (transcriptionOf [segmentB]) diarizationB
       defaultAlignment).
Proof.
  apply confidence_in_unit_interval.
  - intros segs H. injection H as <-. repeat constructor. qdecide.
  - repeat constructor; qdecide.
  - qdecide.
  - split; qdecide.
Defined.

Lemma normalizeSpeakerLabel_spec_witness :
  (exists pre digits post,
     "SPEAKER_07" = (pre ++ digits ++ post)%string
     /\ hasDigit pre = false
     /\ digits <> EmptyString
     /\ allDigits digits = true
     /\ noLeadingDigit post = true
     /\ ((JS.parseDigits 0 digits < 2 ^ 53)%Z ->
         normalizeSpeakerLabel "SPEAKER_07"
         = ("speaker"
            ++ JS.padStart 2 (JS.decimal (JS.parseDigits 0 digits)))%string
         /\ (2 <= String.length
                    (JS.padStart 2 (JS.decimal (JS.parseDigits 0 digits))))%nat
         /\ allDigits (JS.padStart 2 (JS.decimal (JS.parseDigits 0 digits)))
            = true))
  /\ (normalizeSpeakerLabel "alice"
      = ("speaker"
         ++ JS.padStart 2 (JS.decimal (hashString "alice" mod 10 + 1)))%string
      /\ (1 <= hashString "alice" mod 10 + 1 <= 10)%Z).
Proof.
  split.
  - apply (proj1 (normalizeSpeakerLabel_spec "SPEAKER_07")). reflexivity.
  - apply (proj1 (proj2 (normalizeSpeakerLabel_spec "alice"))). reflexivity.
Defined.

(** The run of digits of ["SPEAKER_9007199254740993"] denotes 2^53 + 1, which
    is not a binary64 number: [parseInt] gives 2^53, and the label maps to
    ["speaker9007199254740992"], not to ["speaker"] followed by the run of
    digits parsed as an integer. *)
Lemma rounded_label_counterexample :
  JS.matchDigits labelAbove53 = Some "9007199254740993"
  /\ JS.parseDigits 0 "9007199254740993" = (2 ^ 53 + 1)%Z
  /\ normalizeSpeakerLabel labelAbove53 = "speaker9007199254740992"
  /\ normalizeSpeakerLabel labelAbove53
     <> ("speaker"
         ++ JS.padStart 2 (JS.decimal (JS.parseDigits 0 "9007199254740993")))%string.
Proof.
  assert (H : normalizeSpeakerLabel labelAbove53 = "speaker9007199254740992")
    by (vm_compute; reflexivity).
  repeat split; trivial. rewrite H. vm_compute. discriminate.
Qed.

Lemma output_labels_well_formed_witness :
  Forall (fun s => wellFormedLabel (speaker s) = true)
    (alignTranscriptionWithSpeakers (transcriptionOf [segmentB]) diarizationB
       defaultAlignment).
Proof.
  apply output_labels_well_formed. repeat constructor.
Defined.

(** A diarization label whose run of digits denotes 1e21: the output label is
    ["speaker1e+21"], which is neither ["speaker_unknown"] nor ["speaker"]
    followed by digits only. *)
Lemma exponent_label_counterexample :
  alignTranscriptionWithSpeakers (transcriptionOf [segmentB])
    [ DiarizationSegment.mk 0 10 label1e21 ] defaultAlignment
  = [ {| text := "hi there"; speaker := "speaker1e+21"; start := 0; end_ := 10;
         confidence := 10 # 10 |} ]
  /\ wellFormedLabel "speaker1e+21" = false
  /\ ~ Forall (fun s => wellFormedLabel (speaker s) = true)
         (alignTranscriptionWithSpeakers (transcriptionOf [segmentB])
            [ DiarizationSegment.mk 0 10 label1e21 ] defaultAlignment).
Proof.
  assert (H : alignTranscriptionWithSpeakers (transcriptionOf [segmentB])
                [ DiarizationSegment.mk 0 10 label1e21 ] defaultAlignment
              = [ {| text := "hi there"; speaker := "speaker1e+21"; start := 0;
                     end_ := 10; confidence := 10 # 10 |} ])
    by (vm_compute; reflexivity).
  split; [exact H|]. split; [reflexivity|].
  rewrite H. intros Hall. inversion Hall as [|? ? Hw _]. discriminate Hw.
Qed.

(** Scenario B of the specification. *)
Example scenario_B :
  alignTranscriptionWithSpeakers (transcriptionOf [segmentB]) diarizationB
    {| overlapThreshold := Some (1 # 10); mergeThreshold := None;
       confidenceThreshold := None |}
  = [ {| text := "hi there"; speaker := "speaker01"; start := 0; end_ := 10;
         confidence := 6 # 10 |} ].
Proof. reflexivity. Qed.

End AlignmentTheorems.

(** ** Assembly of chunk transcriptions *)

Module AssemblerFacts.

Import ChunkTranscription TranscriptionAssembler AssemblerSpec.

Lemma adjustSegmentTimestamps_translate segs offset isFirst isLast ov :
  adjustSegmentTimestamps segs offset isFirst isLast ov
  = map (translate offset) segs.
Proof. reflexivity. Qed.














Lemma string_app_assoc (a b c : string) :
  ((a ++ b) ++ c)%string = (a ++ b ++ c)%string.
Proof. induction a as [|x a IH]; simpl; [reflexivity | now rewrite IH]. Qed.

Lemma string_app_empty_r (a : string) : (a ++ "")%string = a.
Proof. induction a as [|x a IH]; simpl; [reflexivity | now rewrite IH]. Qed.

End AssemblerFacts.

Module AssemblerTheorems.

Import ChunkTranscription TranscriptionAssembler AssemblerSpec Scenario.



(** C5.  For every list of one chunk and every options, the result of
    [assembleTranscriptions] is that chunk's result, unchanged: its segments
    are not translated by [startOffset], nothing is removed from them, and
    its text is not rewritten. *)
Theorem single_chunk_identity (chunk : ChunkTranscription.t)
    (options : AssemblyOptions) :
  assembleTranscriptions [chunk] options = result chunk.
Proof. reflexivity. Qed.




End AssemblerTheorems.

(** ** Timestamps *)

Module TimestampFacts.

Import AssemblerSpec.

Lemma Qfloor_unique (x : Q) (z : Z) :
  inject_Z z <= x -> x < inject_Z (z + 1) -> Qfloor x = z.
Proof.
  intros Hle Hlt.
  pose proof (Qfloor_le x) as Hf1. pose proof (Qlt_floor x) as Hf2.
  assert (H1 : (Qfloor x < z + 1)%Z)
    by (rewrite Zlt_Qlt; eapply Qle_lt_trans; eassumption).
  assert (H2 : (z < Qfloor x + 1)%Z)
    by (rewrite Zlt_Qlt; eapply Qle_lt_trans; eassumption).
  lia.
Qed.

Lemma inject_Z_pos (k : Z) : (0 < k)%Z -> 0 < inject_Z k.
Proof. intros H. now rewrite Zlt_Qlt in H. Qed.

(** Flooring after a division by a positive integer. *)
Lemma floor_div_pos (x : Q) (k : Z) :
  (0 < k)%Z -> Qfloor (x / inject_Z k) = (Qfloor x / k)%Z.
Proof.
  intros Hk. set (z := (Qfloor x / k)%Z).
  assert (Hz1 : (z * k <= Qfloor x)%Z)
    by (unfold z; rewrite Z.mul_comm; apply Z.mul_div_le; lia).
  assert (Hz2 : (Qfloor x + 1 <= (z + 1) * k)%Z).
  { pose proof (Z.mul_succ_div_gt (Qfloor x) k Hk). fold z in H. lia. }
  apply Qfloor_unique.
  - apply Qle_shift_div_l; [now apply inject_Z_pos|].
    rewrite <- inject_Z_mult. eapply Qle_trans; [|apply Qfloor_le].
    now rewrite <- Zle_Qle.
  - apply Qlt_shift_div_r; [now apply inject_Z_pos|].
    rewrite <- inject_Z_mult. eapply Qlt_le_trans; [apply Qlt_floor|].
    now rewrite <- Zle_Qle.
Qed.

Lemma floor_sub_int (x : Q) (z : Z) :
  Qfloor (x - inject_Z z) = (Qfloor x - z)%Z.
Proof.
  pose proof (Qfloor_le x) as Hf1. pose proof (Qlt_floor x) as Hf2.
  rewrite inject_Z_plus in Hf2.
  apply Qfloor_unique.
  - unfold Z.sub. rewrite inject_Z_plus, inject_Z_opp. lra.
  - replace (Qfloor x - z + 1)%Z with (Qfloor x + 1 + - z)%Z by lia.
    rewrite !inject_Z_plus, inject_Z_opp. lra.
Qed.

Lemma floor_nonneg (x : Q) : 0 <= x -> (0 <= Qfloor x)%Z.
Proof. intros H. apply (Qfloor_resp_le 0 x H). Qed.

Lemma trunc_nonneg (x : Q) : 0 <= x -> JS.trunc x = Qfloor x.
Proof.
  intros H. destruct x as [n d]. unfold JS.trunc, Qfloor. cbn [Qnum Qden].
  apply Z.quot_div_nonneg; [|lia].
  unfold Qle in H. cbn in H. lia.
Qed.

(** The remainder of a non-negative number by a positive integer. *)
Lemma rem_nonneg (s : Q) (k : Z) :
  0 <= s -> (0 < k)%Z ->
  JS.rem s (inject_Z k) = s - inject_Z (k * (Qfloor s / k)).
Proof.
  intros Hs Hk. unfold JS.rem.
  rewrite trunc_nonneg, floor_div_pos, inject_Z_mult; trivial.
  apply Qle_shift_div_l; [now apply inject_Z_pos | lra].
Qed.

Lemma floor_rem_nonneg (s : Q) (k : Z) :
  0 <= s -> (0 < k)%Z -> Qfloor (JS.rem s (inject_Z k)) = (Qfloor s mod k)%Z.
Proof.
  intros Hs Hk. rewrite rem_nonneg, floor_sub_int; trivial.
  rewrite Z.mod_eq; lia.
Qed.

Lemma decimalWidth_checked :
  forallb decimalWidthOk (seq 0 1000) = true.
Proof. vm_compute. reflexivity. Qed.

Lemma toString_width (z : Z) :
  (0 <= z < 1000)%Z ->
  (String.length (JS.toString z) <= (if (z <? 100)%Z then 2 else 3))%nat.
Proof.
  intros Hz.
  pose proof (proj1 (forallb_forall _ _) decimalWidth_checked (Z.to_nat z)) as H.
  assert (Hin : In (Z.to_nat z) (seq 0 1000)) by (apply in_seq; lia).
  specialize (H Hin). unfold decimalWidthOk in H.
  rewrite Z2Nat.id in H by lia. apply Nat.leb_le in H.
  destruct (z <? 100)%Z eqn:E.
  - apply Z.ltb_lt in E.
    replace (Z.to_nat z <? 100)%nat with true in H; [exact H|].
    symmetry. apply Nat.ltb_lt. lia.
  - destruct (Z.to_nat z <? 100)%nat; lia.
Qed.

Lemma pad2_length (z : Z) :
  (0 <= z < 100)%Z -> String.length (JS.padStart 2 (JS.toString z)) = 2%nat.
Proof.
  intros Hz. rewrite JSFacts.padStart_length.
  pose proof (toString_width z) as H.
  replace (z <? 100)%Z with true in H by (symmetry; apply Z.ltb_lt; lia).
  assert (String.length (JS.toString z) <= 2)%nat by (apply H; lia). lia.
Qed.

Lemma pad3_length (z : Z) :
  (0 <= z < 1000)%Z -> String.length (JS.padStart 3 (JS.toString z)) = 3%nat.
Proof.
  intros Hz. rewrite JSFacts.padStart_length.
  pose proof (toString_width z Hz) as H.
  destruct (z <? 100)%Z; lia.
Qed.

(** A binary64 number in [0, 2^53) is [m * 2^e] with [m < 2^53] and
    [-1074 <= e <= 0]. *)
Lemma seconds_grid (s : Q) :
  Binary64.representable s -> 0 <= s -> s < Binary64.pow2 53 ->
  exists m e,
    s == inject_Z m * Binary64.pow2 e
    /\ (0 <= m < 2 ^ 53)%Z /\ (-1074 <= e <= 0)%Z.
Proof.
  intros [Hr _] H0 H53. destruct (Qlt_le_dec 0 s) as [Hp|Hz].
  - destruct (Binary64Facts.round_grid s Hp Hr H53) as (m & e & Hs & Hm & He).
    exists m, e. repeat split; trivial; lia.
  - exists 0%Z, 0%Z. split; [|lia]. rewrite Qmult_0_l. lra.
Qed.

Lemma grid_bounds (q : Q) (m e : Z) :
  q == inject_Z m * Binary64.pow2 e -> (0 <= m < 2 ^ 53)%Z -> (e <= 0)%Z ->
  0 <= q /\ q < Binary64.pow2 53.
Proof.
  intros Hq Hm He. pose proof (Binary64Facts.pow2_pos e) as Pe.
  assert (Hm0 : 0 <= inject_Z m)
    by (change 0 with (inject_Z 0); rewrite <- Zle_Qle; lia).
  assert (Hm1 : inject_Z m < Binary64.pow2 53)
    by (rewrite Binary64Facts.pow2_Z by lia; rewrite <- Zlt_Qlt; lia).
  assert (Pe1 : Binary64.pow2 e <= 1)
    by (rewrite <- Binary64Facts.pow2_0; apply Binary64Facts.pow2_le; lia).
  rewrite Hq. split.
  - apply Qmult_le_0_compat; lra.
  - apply Qle_lt_trans with (inject_Z m * 1); [|lra].
    apply Binary64Facts.mult_le_nonneg_l; assumption.
Qed.

(** Taking an integer off a number of the grid leaves a number of the
    grid. *)
Lemma grid_sub (q : Q) (m e z : Z) :
  q == inject_Z m * Binary64.pow2 e -> (e <= 0)%Z -> (0 <= z)%Z ->
  0 <= q - inject_Z z ->
  exists m',
    q - inject_Z z == inject_Z m' * Binary64.pow2 e /\ (0 <= m' <= m)%Z.
Proof.
  intros Hq He Hz Hpos. pose proof (Binary64Facts.pow2_pos e) as Pe.
  pose proof (Binary64Facts.int_on_grid z e He) as HZ.
  assert (Hp : (0 <= z * 2 ^ (- e))%Z) by (apply Z.mul_nonneg_nonneg; lia).
  exists (m - z * 2 ^ (- e))%Z.
  assert (E : q - inject_Z z
              == inject_Z (m - z * 2 ^ (- e)) * Binary64.pow2 e).
  { unfold Z.sub. rewrite inject_Z_plus, inject_Z_opp.
    transitivity (inject_Z m * Binary64.pow2 e
                  - inject_Z (z * 2 ^ (- e)) * Binary64.pow2 e); [|ring].
    rewrite <- HZ, <- Hq. reflexivity. }
  split; [exact E|]. split; [|lia].
  rewrite Zle_Qle. change (inject_Z 0) with 0.
  apply (Qmult_le_r _ _ _ Pe). rewrite Qmult_0_l, <- E. exact Hpos.
Qed.

(** The quotient of a number of the grid by a positive integer has the
    same integer part before and after rounding. *)
Lemma floor_div_round (q : Q) (m e d : Z) :
  q == inject_Z m * Binary64.pow2 e ->
  (0 <= m < 2 ^ 53)%Z -> (-1074 <= e <= 0)%Z -> (0 < d)%Z ->
  Qfloor (JS.div q (inject_Z d)) = Qfloor (q / inject_Z d).
Proof.
  intros Hq Hm He Hd. unfold JS.div.
  destruct (grid_bounds q m e Hq Hm ltac:(lia)) as [Hq0 Hq53].
  assert (Hdq : 0 < inject_Z d) by now apply inject_Z_pos.
  assert (Hd1 : 1 <= inject_Z d)
    by (change 1 with (inject_Z 1); rewrite <- Zle_Qle; lia).
  set (x := q / inject_Z d).
  assert (Hx0 : 0 <= x) by (apply Qle_shift_div_l; lra).
  assert (Hxq : x <= q).
  { apply Qle_shift_div_r; [exact Hdq|].
    apply Qle_trans with (q * 1); [lra|].
    apply Binary64Facts.mult_le_nonneg_l; assumption. }
  pose proof (Qlt_floor x) as Hlt. pose proof (Qfloor_le x) as Hle.
  assert (Hh : (0 <= Qfloor x)%Z) by (apply (Qfloor_resp_le 0 x Hx0)).
  apply Qfloor_unique.
  - apply Binary64Facts.round_ge_floor; lra.
  - set (c := / inject_Z d).
    assert (Hc : 0 < c) by (apply Qinv_lt_0_compat; exact Hdq).
    assert (Hx : x == c * q) by (unfold x, c; field; lra).
    assert (HY : c * inject_Z ((Qfloor x + 1) * d) == inject_Z (Qfloor x + 1))
      by (unfold c; rewrite inject_Z_mult; field; lra).
    rewrite (Binary64Facts.round_comp x (c * q) Hx), <- HY.
    apply (Binary64Facts.round_below c q m e); trivial.
    + rewrite inject_Z_mult.
      apply Qle_lt_trans with (x * inject_Z d).
      * unfold x. apply Qle_lteq. right. field. lra.
      * apply Qmult_lt_r; assumption.
    + rewrite HY. apply Qlt_le_trans with 1.
      * rewrite <- Binary64Facts.pow2_0. apply Binary64Facts.pow2_lt. lia.
      * change 1 with (inject_Z 1). rewrite <- Zle_Qle. lia.
Qed.

(** The product of a fraction of the grid and 1000 stays below 1000 when
    rounded, and its integer part grows by one at most. *)
Lemma floor_mul_round (f : Q) (m e : Z) :
  f == inject_Z m * Binary64.pow2 e ->
  (0 <= m < 2 ^ 53)%Z -> (-1074 <= e <= 0)%Z -> f < 1 ->
  (Qfloor (f * 1000) <= Qfloor (JS.mul f 1000) <= Qfloor (f * 1000) + 1)%Z
  /\ (0 <= Qfloor (JS.mul f 1000) < 1000)%Z.
Proof.
  intros Hf Hm He H1. unfold JS.mul.
  destruct (grid_bounds f m e Hf Hm ltac:(lia)) as [Hf0 _].
  set (t := f * 1000).
  assert (Ht0 : 0 <= t) by (unfold t; lra).
  assert (Ht1 : t < 1000) by (unfold t; lra).
  assert (H53 : 1000 < Binary64.pow2 53) by reflexivity.
  pose proof (Qlt_floor t) as Hlt. pose proof (Qfloor_le t) as Hle.
  assert (Hh : (0 <= Qfloor t)%Z) by (apply (Qfloor_resp_le 0 t Ht0)).
  assert (Hh' : (Qfloor t < 1000)%Z).
  { rewrite Zlt_Qlt. change (inject_Z 1000) with 1000. lra. }
  assert (Hlow : inject_Z (Qfloor t) <= Binary64.round t)
    by (apply Binary64Facts.round_ge_floor; lra).
  assert (Hup : Binary64.round t <= inject_Z (Qfloor t + 1)).
  { rewrite <- (Binary64Facts.round_int (Qfloor t + 1)) by lia.
    apply Binary64Facts.round_mono; lra. }
  assert (Hbelow : Binary64.round t < 1000).
  { assert (Ht : t == 1000 * f) by (unfold t; ring).
    rewrite (Binary64Facts.round_comp t (1000 * f) Ht).
    apply (Binary64Facts.round_below 1000 f m e 1); trivial; reflexivity. }
  pose proof (Qfloor_resp_le _ _ Hlow) as A. rewrite Qfloor_Z in A.
  pose proof (Qfloor_resp_le _ _ Hup) as B. rewrite Qfloor_Z in B.
  assert (C : (Qfloor (Binary64.round t) < 1000)%Z).
  { rewrite Zlt_Qlt. eapply Qle_lt_trans; [apply Qfloor_le|].
    change (inject_Z 1000) with 1000. exact Hbelow. }
  lia.
Qed.

(** The four fields of a timestamp. *)
Lemma formatTimestamp_shape (seconds : Q) (useSRTFormat : bool) :
  Binary64.representable seconds -> 0 <= seconds ->
  seconds < Binary64.pow2 53 ->
  let whole := Qfloor seconds in
  let fraction := seconds - inject_Z whole in
  let ms := Qfloor (Binary64.round (fraction * 1000)) in
  TranscriptionAssembler.formatTimestamp seconds useSRTFormat
  = (JS.padStart 2 (JS.toString (whole / 3600)) ++ ":"
     ++ JS.padStart 2 (JS.toString (whole mod 3600 / 60)) ++ ":"
     ++ JS.padStart 2 (JS.toString (whole mod 60))
     ++ (if useSRTFormat then "," else ".")
     ++ JS.padStart 3 (JS.toString ms))%string
  /\ (0 <= whole < 2 ^ 53)%Z
  /\ (Qfloor (fraction * 1000) <= ms <= Qfloor (fraction * 1000) + 1)%Z
  /\ (0 <= ms < 1000)%Z.
Proof.
  intros Hrep Hs H53. cbv zeta.
  destruct (seconds_grid seconds Hrep Hs H53) as (m & e & Hg & Hm & He).
  assert (Hw : (0 <= Qfloor seconds)%Z) by now apply floor_nonneg.
  assert (Hw53 : (Qfloor seconds < 2 ^ 53)%Z).
  { rewrite Zlt_Qlt. rewrite <- Binary64Facts.pow2_Z by lia.
    eapply Qle_lt_trans; [apply Qfloor_le | exact H53]. }
  pose proof (Qfloor_le seconds) as F1. pose proof (Qlt_floor seconds) as F2.
  rewrite inject_Z_plus in F2. change (inject_Z 1) with 1 in F2.
  (* the remainder by 3600 lies on the grid *)
  assert (Hz : (0 <= 3600 * (Qfloor seconds / 3600) <= Qfloor seconds)%Z).
  { pose proof (Z.mul_div_le (Qfloor seconds) 3600 ltac:(lia)).
    pose proof (Z.div_pos (Qfloor seconds) 3600 Hw ltac:(lia)). lia. }
  assert (Hr0 : 0 <= seconds - inject_Z (3600 * (Qfloor seconds / 3600))).
  { assert (inject_Z (3600 * (Qfloor seconds / 3600)) <= inject_Z (Qfloor seconds))
      by (rewrite <- Zle_Qle; lia). lra. }
  destruct (grid_sub seconds m e (3600 * (Qfloor seconds / 3600)) Hg ltac:(lia)
              ltac:(lia) Hr0) as (mr & Hgr & Hmr).
  (* the fraction lies on the grid *)
  assert (Hf0 : 0 <= seconds - inject_Z (Qfloor seconds)) by lra.
  destruct (grid_sub seconds m e (Qfloor seconds) Hg ltac:(lia) Hw Hf0)
    as (mf & Hgf & Hmf).
  destruct (floor_mul_round (seconds - inject_Z (Qfloor seconds)) mf e Hgf
              ltac:(lia) He ltac:(lra)) as [Hms1 Hms2].
  unfold JS.mul in Hms1, Hms2.
  split; [|split; [lia | split; [exact Hms1 | exact Hms2]]].
  unfold TranscriptionAssembler.formatTimestamp, JS.floor.
  change 3600 with (inject_Z 3600). change 60 with (inject_Z 60).
  change (JS.rem seconds 1) with (JS.rem seconds (inject_Z 1)).
  rewrite (floor_div_round seconds m e 3600 Hg Hm He ltac:(lia)).
  rewrite (rem_nonneg seconds 3600 Hs ltac:(lia)).
  rewrite (floor_div_round _ mr e 60 Hgr ltac:(lia) He ltac:(lia)).
  rewrite !floor_div_pos by lia.
  rewrite floor_sub_int.
  rewrite floor_rem_nonneg by (trivial; lia).
  rewrite (rem_nonneg seconds 1) by (trivial; lia).
  rewrite Z.div_1_r, Z.mul_1_l.
  rewrite <- (Z.mod_eq (Qfloor seconds) 3600) by lia.
  reflexivity.
Qed.

End TimestampFacts.

Module TimestampTheorems.

Import AlignmentSpec TimestampFacts.

(** C8 (as amended).  For every binary64 number of seconds in [0, 2^53),
    both [formatTimestamp] functions (the one behind the assembler's VTT and
    SRT output and the one behind the aligner's) render the same string:
    hours, minutes and seconds padded with zeros to two digits, milliseconds
    padded to three, joined [HH:MM:SS.mmm] with a period for VTT and
    [HH:MM:SS,mmm] with a comma for SRT.  Hours, minutes and seconds are the
    exact floors: read back they give the whole seconds, minutes and seconds
    below 60.  The millisecond field is the floor of the rounded product of
    the fraction and 1000: below 1000, never less than the floor of the
    exact product and at most one more. *)
Theorem formatTimestamp_fields (seconds : Q) (useSRTFormat : bool) :
  Binary64.representable seconds -> 0 <= seconds ->
  seconds < Binary64.pow2 53 ->
  let whole := Qfloor seconds in
  let hours := (whole / 3600)%Z in
  let minutes := (whole mod 3600 / 60)%Z in
  let secs := (whole mod 60)%Z in
  let fraction := seconds - inject_Z whole in
  let ms := Qfloor (Binary64.round (fraction * 1000)) in
  let separator := if useSRTFormat then "," else "." in
  let pad := fun width z => JS.padStart width (JS.toString z) in
  TranscriptionAssembler.formatTimestamp seconds useSRTFormat
  = (pad 2%nat hours ++ ":" ++ pad 2%nat minutes ++ ":" ++ pad 2%nat secs
     ++ separator ++ pad 3%nat ms)%string
  /\ DiarizationAlignment.formatTimestamp seconds useSRTFormat
     = TranscriptionAssembler.formatTimestamp seconds useSRTFormat
  /\ ((0 <= hours)%Z /\ (0 <= minutes < 60)%Z /\ (0 <= secs < 60)%Z
      /\ (0 <= ms < 1000)%Z)
  /\ ((hours * 60 + minutes) * 60 + secs)%Z = whole
  /\ (Qfloor (fraction * 1000) <= ms <= Qfloor (fraction * 1000) + 1)%Z
  /\ ((2 <= String.length (pad 2%nat hours))%nat
      /\ ((hours < 100)%Z -> String.length (pad 2%nat hours) = 2%nat)
      /\ String.length (pad 2%nat minutes) = 2%nat
      /\ String.length (pad 2%nat secs) = 2%nat
      /\ String.length (pad 3%nat ms) = 3%nat)
  /\ (allDigits (pad 2%nat hours) = true /\ allDigits (pad 2%nat minutes) = true
      /\ allDigits (pad 2%nat secs) = true /\ allDigits (pad 3%nat ms) = true).
Proof.
  intros Hrep Hs H53 whole hours minutes secs fraction ms separator pad.
  destruct (formatTimestamp_shape seconds useSRTFormat Hrep Hs H53)
    as (Hfmt & Hw & Hexact & Hms).
  cbv zeta in Hfmt, Hw, Hexact, Hms.
  fold whole in Hfmt, Hw, Hexact, Hms. fold fraction in Hfmt, Hexact, Hms.
  fold ms in Hfmt, Hexact, Hms.
  assert (Hh : (0 <= hours < 2 ^ 53)%Z).
  { unfold hours. split; [apply Z.div_pos; lia|].
    apply Z.div_lt_upper_bound; lia. }
  assert (Hm : (0 <= minutes < 60)%Z).
  { unfold minutes. pose proof (Z.mod_pos_bound whole 3600).
    split; [apply Z.div_pos; lia | apply Z.div_lt_upper_bound; lia]. }
  assert (Hsec : (0 <= secs < 60)%Z) by (apply Z.mod_pos_bound; lia).
  split; [exact Hfmt|]. split; [reflexivity|].
  split; [repeat split; lia|]. split.
  { unfold hours, minutes, secs.
    pose proof (Z.div_mod whole 3600). pose proof (Z.div_mod (whole mod 3600) 60).
    pose proof (Z.mod_mod_divide whole 3600 60) as Hmm.
    replace (whole mod 60)%Z with ((whole mod 3600) mod 60)%Z
      by (apply Hmm; exists 60%Z; reflexivity).
    lia. }
  split; [exact Hexact|]. split; [split; [|split; [|split; [|split]]]|].
  - unfold pad. rewrite JSFacts.padStart_length. lia.
  - intros Hlt. apply pad2_length. lia.
  - apply pad2_length. lia.
  - apply pad2_length. lia.
  - now apply pad3_length.
  - repeat split; apply JSFacts.allDigits_padStart, JSFacts.allDigits_toString;
      lia.
Qed.

Lemma formatTimestamp_fields_witness :
  TranscriptionAssembler.formatTimestamp Scenario.clock true = "01:01:01,125"
  /\ DiarizationAlignment.formatTimestamp Scenario.clock false = "01:01:01.125".
Proof.
  assert (Hrep : Binary64.representable Scenario.clock)
    by (repeat split; vm_compute; reflexivity).
  assert (H : 0 <= Scenario.clock) by (vm_compute; discriminate).
  assert (H53 : Scenario.clock < Binary64.pow2 53) by reflexivity.
  split.
  - rewrite (proj1 (formatTimestamp_fields Scenario.clock true Hrep H H53)).
    reflexivity.
  - rewrite (proj1 (proj2 (formatTimestamp_fields Scenario.clock false Hrep H H53))).
    rewrite (proj1 (formatTimestamp_fields Scenario.clock false Hrep H H53)).
    reflexivity.
Defined.

(** The binary64 number nearest to 0.29 lies below 0.29, so that the floor
    of a thousand times its value is 289; the product is rounded to 290 and
    the timestamp reads 290 milliseconds, more than the time it renders. *)
Lemma millisecond_rounds_up_counterexample :
  Binary64.representable Scenario.double029
  /\ 0 <= Scenario.double029
  /\ Scenario.double029 * 1000 < 290
  /\ Qfloor (Scenario.double029 * 1000) = 289%Z
  /\ TranscriptionAssembler.formatTimestamp Scenario.double029 false
     = "00:00:00.290"
  /\ DiarizationAlignment.formatTimestamp Scenario.double029 true
     = "00:00:00,290".
Proof.
  repeat split; try (vm_compute; reflexivity). vm_compute. discriminate.
Qed.

(** One cue of each of the four renderings: VTT takes the period, SRT the
    comma. *)
Lemma cue_separators (segment : Segment.t) (spoken : SpeakerSegment.t)
    (result : TranscriptionResult.t) :
  TranscriptionResult.segments result = Some [segment] ->
  TranscriptionAssembler.formatAsVTT result
  = ("WEBVTT" ++ JS.newline ++ JS.newline ++ "1" ++ JS.newline
     ++ TranscriptionAssembler.formatTimestamp (Segment.start segment) false
     ++ " --> "
     ++ TranscriptionAssembler.formatTimestamp (Segment.end_ segment) false
     ++ JS.newline ++ Segment.text segment ++ JS.newline ++ JS.newline)%string
  /\ TranscriptionAssembler.formatAsSRT result
     = ("1" ++ JS.newline
        ++ TranscriptionAssembler.formatTimestamp (Segment.start segment) true
        ++ " --> "
        ++ TranscriptionAssembler.formatTimestamp (Segment.end_ segment) true
        ++ JS.newline ++ Segment.text segment ++ JS.newline ++ JS.newline)%string
  /\ DiarizationAlignment.formatAsVTTWithSpeakers [spoken]
     = ("WEBVTT" ++ JS.newline ++ JS.newline ++ "1" ++ JS.newline
        ++ DiarizationAlignment.formatTimestamp (SpeakerSegment.start spoken) false
        ++ " --> "
        ++ DiarizationAlignment.formatTimestamp (SpeakerSegment.end_ spoken) false
        ++ JS.newline ++ "<v " ++ SpeakerSegment.speaker spoken ++ ">"
        ++ SpeakerSegment.text spoken ++ "</v>" ++ JS.newline ++ JS.newline)%string
  /\ DiarizationAlignment.formatAsSRTWithSpeakers [spoken]
     = ("1" ++ JS.newline
        ++ DiarizationAlignment.formatTimestamp (SpeakerSegment.start spoken) true
        ++ " --> "
        ++ DiarizationAlignment.formatTimestamp (SpeakerSegment.end_ spoken) true
        ++ JS.newline ++ "[" ++ SpeakerSegment.speaker spoken ++ "]: "
        ++ SpeakerSegment.text spoken ++ JS.newline ++ JS.newline)%string.
Proof.
  intros Hseg.
  unfold TranscriptionAssembler.formatAsVTT, TranscriptionAssembler.formatAsSRT.
  rewrite Hseg. repeat split.
Qed.

End TimestampTheorems.

(** ** Further properties of the alignment *)

Module AlignmentPropertiesFacts.

Import SpeakerSegment DiarizationAlignment AlignmentSpec AlignmentProperties.

(** X1.  The overlap of a transcription segment with a span is never
    negative, it is 0 when one of the two ends before the other starts, and
    when it is positive it is at most the duration of either. *)
Theorem calculateOverlap_bounds (seg : Segment.t) (d : DiarizationSegment.t) :
  0 <= calculateOverlap seg d
  /\ (Segment.end_ seg <= DiarizationSegment.start d ->
      calculateOverlap seg d == 0)
  /\ (DiarizationSegment.end_ d <= Segment.start seg ->
      calculateOverlap seg d == 0)
  /\ (0 < calculateOverlap seg d ->
      calculateOverlap seg d <= Segment.end_ seg - Segment.start seg
      /\ calculateOverlap seg d
         <= DiarizationSegment.end_ d - DiarizationSegment.start d).
Proof.
  unfold calculateOverlap.
  set (lo := Qmax (Segment.start seg) (DiarizationSegment.start d)).
  set (hi := Qmin (Segment.end_ seg) (DiarizationSegment.end_ d)).
  pose proof (Q.le_max_l (Segment.start seg) (DiarizationSegment.start d)) as Hl1.
  pose proof (Q.le_max_r (Segment.start seg) (DiarizationSegment.start d)) as Hl2.
  pose proof (Q.le_min_l (Segment.end_ seg) (DiarizationSegment.end_ d)) as Hh1.
  pose proof (Q.le_min_r (Segment.end_ seg) (DiarizationSegment.end_ d)) as Hh2.
  fold lo in Hl1, Hl2. fold hi in Hh1, Hh2.
  repeat split.
  - apply Q.le_max_l.
  - intros H. apply Q.max_l. lra.
  - intros H. apply Q.max_l. lra.
  - destruct (Q.max_spec 0 (hi - lo)) as [[H1 H2]|[H1 H2]]; rewrite H2 in *; lra.
  - destruct (Q.max_spec 0 (hi - lo)) as [[H1 H2]|[H1 H2]]; rewrite H2 in *; lra.
Qed.

Lemma calculateOverlap_bounds_witness :
  calculateOverlap Scenario.segmentB (DiarizationSegment.mk 4 10 "SPEAKER_01")
  <= Segment.end_ Scenario.segmentB - Segment.start Scenario.segmentB
  /\ calculateOverlap Scenario.segmentC (DiarizationSegment.mk 0 20 "SPEAKER_00")
     == 0.
Proof.
  split.
  - apply (proj2 (proj2 (proj2 (calculateOverlap_bounds Scenario.segmentB
                                  (DiarizationSegment.mk 4 10 "SPEAKER_01"))))).
    vm_compute. reflexivity.
  - apply (proj1 (proj2 (proj2 (calculateOverlap_bounds Scenario.segmentC
                                  (DiarizationSegment.mk 0 20 "SPEAKER_00"))))).
    vm_compute. discriminate.
Defined.

Section FirstGreatest.

Variable transSegment : Segment.t.




End FirstGreatest.




Lemma mergeFrom_head_nonempty (mergeThreshold : Q) (rest : list SpeakerSegment.t)
    (current : SpeakerSegment.t) :
  exists first others, mergeFrom mergeThreshold current rest = first :: others.
Proof.
  destruct (MergeFacts.mergeFrom_head mergeThreshold rest current)
    as (f & o & He & _). now exists f, o.
Qed.

Lemma last_default_irrelevant {A : Type} (l : list A) (d d' : A) :
  l <> [] -> List.last l d = List.last l d'.
Proof.
  induction l as [|x l IH]; [congruence|]. intros _.
  destruct l as [|y l]; [reflexivity|]. cbn [List.last] in *.
  apply IH. discriminate.
Qed.

Lemma last_cons_nonempty {A : Type} (l : list A) (x d : A) :
  l <> [] -> List.last (x :: l) d = List.last l d.
Proof. destruct l; [congruence | reflexivity]. Qed.

Lemma last_cons_default {A : Type} (l : list A) (x d d' : A) :
  List.last (x :: l) d = List.last (x :: l) d'.
Proof. apply last_default_irrelevant. discriminate. Qed.

Section MergeMore.

Variable mergeThreshold : Q.


Lemma concat_space_merge (a b : string) (r : list string) :
  String.concat " " ((a ++ " " ++ b)%string :: r) = String.concat " " (a :: b :: r).
Proof.
  destruct r as [|c r]; simpl; [reflexivity|].
  now rewrite !AssemblerFacts.string_app_assoc.
Qed.

Lemma mergeFrom_joinedText (rest : list SpeakerSegment.t) (current : SpeakerSegment.t) :
  joinedText (mergeFrom mergeThreshold current rest) = joinedText (current :: rest).
Proof.
  unfold joinedText. revert current.
  induction rest as [|segment rest IH]; intros current; [reflexivity|].
  cbn [mergeFrom]. destruct (mergeable mergeThreshold current segment).
  - rewrite IH. cbn [map mergeInto text]. apply concat_space_merge.
  - cbn [map]. specialize (IH segment). cbn [map] in IH.
    destruct (mergeFrom_head_nonempty mergeThreshold rest segment) as (f & o & He).
    rewrite He in *. cbn [map String.concat] in *. now rewrite IH.
Qed.

Lemma mergeFrom_last_end (rest : list SpeakerSegment.t) (current : SpeakerSegment.t) :
  end_ (lastOf current (mergeFrom mergeThreshold current rest))
  = end_ (lastOf current rest).
Proof.
  unfold lastOf. revert current.
  induction rest as [|segment rest IH]; intros current; [reflexivity|].
  cbn [mergeFrom]. destruct (mergeable mergeThreshold current segment).
  - destruct (mergeFrom_head_nonempty mergeThreshold rest (mergeInto current segment))
      as (f & o & He).
    rewrite (last_default_irrelevant _ current (mergeInto current segment))
      by (rewrite He; discriminate).
    rewrite IH. destruct rest as [|x rest]; [reflexivity|].
    cbn [List.last]. f_equal. apply last_cons_default.
  - destruct (mergeFrom_head_nonempty mergeThreshold rest segment) as (f & o & He).
    rewrite last_cons_nonempty by (rewrite He; discriminate).
    rewrite (last_default_irrelevant _ current segment)
      by (rewrite He; discriminate).
    rewrite IH. destruct rest as [|x rest]; [reflexivity|].
    cbn [List.last]. f_equal. apply last_cons_default.
Qed.

Lemma mergeFrom_fixed (rest : list SpeakerSegment.t) (current : SpeakerSegment.t) :
  noMergeableNeighbours mergeThreshold (current :: rest) ->
  mergeFrom mergeThreshold current rest = current :: rest.
Proof.
  revert current. induction rest as [|segment rest IH]; intros current H;
    [reflexivity|].
  cbn [mergeFrom]. rewrite (H [] current segment rest eq_refl).
  f_equal. apply IH. intros l1 p q l2 Heq.
  apply (H (current :: l1) p q l2). now rewrite Heq.
Qed.

End MergeMore.

Lemma postProcessAlignment_length (l : list SpeakerSegment.t) (mt : Q) :
  (List.length (postProcessAlignment l mt) <= List.length l)%nat.
Proof.
  destruct l as [|x l]; [simpl; lia|].
  rewrite MergeFacts.postProcessAlignment_mergeFrom. apply MergeFacts.mergeFrom_length.
Qed.

Lemma alignOne_length ot ct diarization seg :
  (List.length (alignOne ot ct diarization seg) <= 1)%nat.
Proof.
  unfold alignOne, alignStep.
  destruct (findBestMatch seg diarization) as [[best|] m]; [|simpl; lia].
  destruct (JS.gtb m ot); [|simpl; lia].
  destruct (JS.geb _ ct); simpl; lia.
Qed.



(** On the transcription without segments and the span of its first
    second, the one segment lasts 20 seconds and the span covers a
    twentieth of it: nothing is returned. *)
Example untimed_transcription_may_vanish :
  alignTranscriptionWithSpeakers Scenario.untimed Scenario.diarizationShort
    Scenario.defaultAlignment = [].
Proof. reflexivity. Qed.

Lemma flat_map_length_le {A B : Type} (f : A -> list B) (l : list A) :
  (forall x, List.length (f x) <= 1)%nat ->
  (List.length (flat_map f l) <= List.length l)%nat.
Proof.
  intros Hf. induction l as [|x l IH]; simpl; [lia|].
  rewrite length_app. specialize (Hf x). lia.
Qed.

(** X4.  The output never has more segments than the transcription has
    (one, for a transcription without segments). *)
Theorem alignment_never_adds_segments
    (transcription : TranscriptionResult.t)
    (diarization : list DiarizationSegment.t) (options : AlignmentOptions) :
  (List.length (alignTranscriptionWithSpeakers transcription diarization options)
   <= List.length (transcriptionSegments transcription diarization))%nat
  /\ (List.length (alignTranscriptionWithSpeakers transcription diarization options)
      <= Nat.max 1
           (match TranscriptionResult.segments transcription with
            | Some segs => List.length segs
            | None => 0
            end))%nat.
Proof.
  assert (H : (List.length
                 (alignTranscriptionWithSpeakers transcription diarization options)
               <= List.length (transcriptionSegments transcription diarization))%nat).
  { unfold alignTranscriptionWithSpeakers.
    eapply Nat.le_trans; [apply postProcessAlignment_length|].
    rewrite AlignmentTheorems.alignedBeforeMerge_flat_map.
    apply flat_map_length_le. intros x. apply alignOne_length. }
  split; [exact H|].
  eapply Nat.le_trans; [exact H|]. unfold transcriptionSegments.
  destruct (TranscriptionResult.segments transcription) as [[|x l]|]; simpl; lia.
Qed.

Lemma alignedBeforeMerge_no_spans transcription options :
  alignedBeforeMerge transcription [] options
  = map unknownSegment (transcriptionSegments transcription []).
Proof.
  rewrite AlignmentTheorems.alignedBeforeMerge_flat_map.
  induction (transcriptionSegments transcription []) as [|x l IH];
    [reflexivity|].
  simpl. now rewrite IH.
Qed.

Lemma joinedText_unknown (l : list Segment.t) :
  joinedText (map unknownSegment l) = String.concat " " (map Segment.text l).
Proof. unfold joinedText. now rewrite map_map. Qed.

Lemma postProcessAlignment_joinedText (segments : list SpeakerSegment.t)
    (mergeThreshold : Q) :
  joinedText (postProcessAlignment segments mergeThreshold) = joinedText segments.
Proof.
  destruct segments as [|x l]; [reflexivity|].
  rewrite MergeFacts.postProcessAlignment_mergeFrom. apply mergeFrom_joinedText.
Qed.

(** X5.  The merge pass keeps the words: the texts of its result, joined by
    single spaces, are the texts of its input joined by single spaces. *)
Theorem merge_preserves_text (segments : list SpeakerSegment.t) (mergeThreshold : Q) :
  joinedText (postProcessAlignment segments mergeThreshold) = joinedText segments.
Proof.
  destruct segments as [|x l]; [reflexivity|].
  rewrite MergeFacts.postProcessAlignment_mergeFrom. apply mergeFrom_joinedText.
Qed.

(** X6.  The merge pass is idempotent: merging its result again, with the
    same threshold, changes nothing. *)
Theorem merge_idempotent (segments : list SpeakerSegment.t) (mergeThreshold : Q) :
  postProcessAlignment (postProcessAlignment segments mergeThreshold) mergeThreshold
  = postProcessAlignment segments mergeThreshold.
Proof.
  destruct segments as [|x l]; [reflexivity|].
  rewrite MergeFacts.postProcessAlignment_mergeFrom.
  destruct (mergeFrom_head_nonempty mergeThreshold l x) as (f & o & He).
  assert (Hn : noMergeableNeighbours mergeThreshold (f :: o)).
  { intros l1 p q l2 Heq. rewrite <- He in Heq.
    exact (MergeFacts.mergeFrom_adjacent mergeThreshold _ _ _ _ _ _ Heq). }
  rewrite He, MergeFacts.postProcessAlignment_mergeFrom.
  now apply mergeFrom_fixed.
Qed.

(** X7.  On a non-empty list the merge pass returns a non-empty list that
    starts where the input starts, with the label of its first segment, and
    ends where the last input segment ends. *)
Theorem merge_keeps_extent (segment : SpeakerSegment.t)
    (rest : list SpeakerSegment.t) (mergeThreshold : Q) :
  exists first others,
    postProcessAlignment (segment :: rest) mergeThreshold = first :: others
    /\ start first = start segment
    /\ speaker first = speaker segment
    /\ end_ (lastOf first others) = end_ (lastOf segment rest).
Proof.
  rewrite MergeFacts.postProcessAlignment_mergeFrom.
  destruct (MergeFacts.mergeFrom_head mergeThreshold rest segment)
    as (f & o & He & Hs & Ht).
  exists f, o. repeat split; trivial.
  pose proof (mergeFrom_last_end mergeThreshold rest segment) as Hl.
  rewrite He in Hl. rewrite <- Hl. unfold lastOf.
  destruct o as [|y o]; [reflexivity|].
  rewrite (last_cons_nonempty (y :: o) f segment) by discriminate.
  f_equal. apply last_cons_default.
Qed.

(** X8.  Without diarization spans the output is not empty, every segment
    of it is unmatched (label [speaker_unknown], confidence 0), and its
    texts joined by spaces are those of the transcription segments. *)
Theorem no_spans_all_unknown (transcription : TranscriptionResult.t)
    (options : AlignmentOptions) :
  alignTranscriptionWithSpeakers transcription [] options <> []
  /\ Forall (fun s => speaker s = "speaker_unknown" /\ confidence s = 0)
       (alignTranscriptionWithSpeakers transcription [] options)
  /\ joinedText (alignTranscriptionWithSpeakers transcription [] options)
     = String.concat " "
         (map Segment.text (transcriptionSegments transcription [])).
Proof.
  unfold alignTranscriptionWithSpeakers.
  rewrite alignedBeforeMerge_no_spans.
  assert (Hne : exists x l, transcriptionSegments transcription [] = x :: l).
  { unfold transcriptionSegments.
    destruct (TranscriptionResult.segments transcription) as [[|x l]|];
      eexists; eexists; reflexivity. }
  destruct Hne as (x & l & Hx). repeat split.
  - rewrite Hx. cbn [map]. rewrite MergeFacts.postProcessAlignment_mergeFrom.
    destruct (mergeFrom_head_nonempty (mergeThresholdOf options)
                (map unknownSegment l) (unknownSegment x)) as (f & o & ->).
    discriminate.
  - apply MergeFacts.postProcessAlignment_Forall.
    + intros a b [Ha1 Ha2] [Hb1 Hb2]. unfold mergeInto. cbn [speaker confidence].
      split; [exact Ha1|]. now rewrite Ha2, Hb2.
    + apply Forall_map. apply Forall_forall. intros s _. now split.
  - rewrite postProcessAlignment_joinedText. apply joinedText_unknown.
Qed.

Lemma unknown_not_numbered (label : string) :
  numberedLabel label = true -> label <> "speaker_unknown".
Proof. intros H ->. discriminate H. Qed.




End AlignmentPropertiesFacts.

(** ** Further properties of the assembly *)

Module AssemblerPropertiesFacts.

Import ChunkTranscription TranscriptionAssembler AssemblerSpec AssemblerProperties.

Lemma findIndex_dropWhile {A : Type} (p q : A -> bool) (l : list A) :
  (forall x, q x = negb (p x)) ->
  match JS.findIndex p l with
  | Some i => skipn i l
  | None => []
  end = dropWhile q l.
Proof.
  intros Hq. induction l as [|x l IH]; [reflexivity|]. simpl.
  rewrite Hq. destruct (p x); [reflexivity|]. simpl. rewrite <- IH.
  now destruct (JS.findIndex p l).
Qed.

Lemma removeOverlapSegments_dropWhile
    (newSegments existingSegments : list Segment.t) (ov : Q) (lastSeg : Segment.t) :
  JS.lastElement existingSegments = Some lastSeg ->
  removeOverlapSegments newSegments existingSegments ov
  = dropWhile (startsBefore (Segment.end_ lastSeg - ov)) newSegments.
Proof.
  intros Hl. unfold removeOverlapSegments. rewrite Hl.
  apply findIndex_dropWhile. intros x. reflexivity.
Qed.



Lemma dropWhile_suffix {A : Type} (p : A -> bool) (l : list A) :
  exists dropped, l = dropped ++ dropWhile p l.
Proof.
  induction l as [|x l (d & Hd)]; simpl.
  - now exists [].
  - destruct (p x); [|now exists []].
    exists (x :: d). simpl. now rewrite <- Hd.
Qed.

Lemma removeOverlapSegments_incl (newSegments existing : list Segment.t) (ov : Q) :
  incl (removeOverlapSegments newSegments existing ov) newSegments.
Proof.
  destruct (JS.lastElement existing) as [lastSeg|] eqn:Hl.
  - rewrite (removeOverlapSegments_dropWhile _ _ ov lastSeg Hl).
    destruct (dropWhile_suffix (startsBefore (Segment.end_ lastSeg - ov)) newSegments)
      as (d & Hd).
    intros x Hx. rewrite Hd. apply in_or_app. now right.
  - unfold removeOverlapSegments. rewrite Hl. apply incl_refl.
Qed.

(** Insertion keeps the elements and the order of indices. *)
Lemma insertChunk_perm (c : ChunkTranscription.t) (l : list ChunkTranscription.t) :
  Permutation (insertChunk c l) (c :: l).
Proof.
  induction l as [|h l IH]; simpl; [reflexivity|].
  destruct (chunkIndex c <=? chunkIndex h)%Z; [reflexivity|].
  rewrite IH. apply perm_swap.
Qed.

Lemma sortChunks_perm (l : list ChunkTranscription.t) : Permutation (sortChunks l) l.
Proof.
  induction l as [|c l IH]; simpl; [reflexivity|].
  rewrite insertChunk_perm. now constructor.
Qed.

Lemma insertChunk_sorted (c : ChunkTranscription.t) (l : list ChunkTranscription.t) :
  StronglySorted byIndex l -> StronglySorted byIndex (insertChunk c l).
Proof.
  induction 1 as [|h l Hl IH Hh]; simpl.
  - repeat constructor.
  - destruct (chunkIndex c <=? chunkIndex h)%Z eqn:E.
    + apply Z.leb_le in E. constructor; [now constructor|].
      constructor; [exact E|].
      eapply Forall_impl; [|exact Hh]. unfold byIndex. intros; lia.
    + apply Z.leb_gt in E. constructor; [exact IH|].
      eapply Permutation_Forall; [symmetry; apply insertChunk_perm|].
      constructor; [unfold byIndex; lia | exact Hh].
Qed.

Lemma sortChunks_sorted (l : list ChunkTranscription.t) :
  StronglySorted byIndex (sortChunks l).
Proof.
  induction l as [|c l IH]; simpl; [constructor | now apply insertChunk_sorted].
Qed.

Section Loop.

Variable ov : Q.
Variables removeDup preserve : bool.
Variable n : nat.

Local Abbreviation step := (chunkStep ov removeDup preserve n).

Lemma loop_time (l : list ChunkTranscription.t) (k : nat) (acc : Assembled) :
  totalProcessingTime (fold_left step (combine (seq k (List.length l)) l) acc)
  == totalProcessingTime acc + sumProcessingTime l.
Proof.
  revert k acc. induction l as [|c l IH]; intros k acc; simpl.
  - ring.
  - rewrite IH. cbn [chunkStep totalProcessingTime]. ring.
Qed.

(** Every iteration appends to the assembled segments, and what it appends
    are shifted segments of its chunk. *)
Lemma segmentsStep_appends isFirst isLast assembled chunk :
  exists extra,
    segmentsStep ov removeDup preserve isFirst isLast assembled chunk
    = assembled ++ extra
    /\ incl extra (shiftedSegments chunk)
    /\ (removeDup && negb isFirst = false -> preserve = true ->
        extra = shiftedSegments chunk).
Proof.
  unfold segmentsStep, shiftedSegments.
  destruct (TranscriptionResult.segments (result chunk)) as [segs|].
  - destruct preserve.
    + rewrite AssemblerFacts.adjustSegmentTimestamps_translate.
      destruct (removeDup && negb isFirst).
      * eexists. split; [reflexivity|]. split; [|discriminate].
        apply removeOverlapSegments_incl.
      * eexists. split; [reflexivity|]. split; [apply incl_refl | reflexivity].
    + exists []. rewrite app_nil_r. repeat split; [intros x [] | discriminate].
  - exists []. rewrite app_nil_r. repeat split. intros x [].
Qed.

Lemma loop_segments (l : list ChunkTranscription.t) (k : nat) (acc : Assembled) :
  exists extra,
    assembledSegments (fold_left step (combine (seq k (List.length l)) l) acc)
    = assembledSegments acc ++ extra
    /\ incl extra (flat_map shiftedSegments l)
    /\ (removeDup = false -> preserve = true ->
        extra = flat_map shiftedSegments l).
Proof.
  revert k acc. induction l as [|c l IH]; intros k acc; simpl.
  - exists []. rewrite app_nil_r. repeat split. intros x [].
  - destruct (IH (S k) (step acc (k, c))) as (e2 & He2 & Hi2 & Hf2).
    cbn [chunkStep assembledSegments] in He2.
    destruct (segmentsStep_appends (k =? 0)%nat (k =? n - 1)%nat
                (assembledSegments acc) c) as (e1 & He1 & Hi1 & Hf1).
    exists (e1 ++ e2). rewrite He2, He1, <- app_assoc. repeat split.
    + apply incl_app; [apply incl_appl, Hi1 | apply incl_appr, Hi2].
    + intros Hr Hp. rewrite Hf2 by assumption. f_equal. apply Hf1; trivial.
      now rewrite Hr.
Qed.

End Loop.

Lemma sumProcessingTime_perm (l l' : list ChunkTranscription.t) :
  Permutation l l' -> sumProcessingTime l == sumProcessingTime l'.
Proof.
  induction 1 as [|x l l' _ IH|x y l|l l' l'' _ IH1 _ IH2]; simpl.
  - reflexivity.
  - now rewrite IH.
  - ring.
  - now rewrite IH1.
Qed.

(** X11.  The processing time of the assembled result is the sum of the
    processing times of all the chunks, for every list of chunks. *)
Theorem assembled_processing_time (chunks : list ChunkTranscription.t)
    (options : AssemblyOptions) :
  TranscriptionResult.processing_time (assembleTranscriptions chunks options)
  == sumProcessingTime chunks.
Proof.
  destruct chunks as [|a [|b l]].
  - reflexivity.
  - simpl. ring.
  - unfold assembleTranscriptions. cbn [TranscriptionResult.processing_time].
    rewrite loop_time. cbn [totalProcessingTime].
    rewrite (sumProcessingTime_perm _ _ (sortChunks_perm (a :: b :: l))). ring.
Qed.

Lemma sortChunks_least (chunks : list ChunkTranscription.t)
    (first : ChunkTranscription.t) (others : list ChunkTranscription.t) :
  sortChunks chunks = first :: others ->
  Permutation (first :: others) chunks
  /\ forall c, In c chunks -> (chunkIndex first <= chunkIndex c)%Z.
Proof.
  intros Hs. pose proof (sortChunks_perm chunks) as Hp.
  pose proof (sortChunks_sorted chunks) as Hsorted. rewrite Hs in Hp, Hsorted.
  split; [exact Hp|]. intros c Hc.
  apply (Permutation_in _ (Permutation_sym Hp)) in Hc.
  inversion Hsorted as [|? ? _ Hall]; subst.
  destruct Hc as [<-|Hc]; [lia|].
  rewrite Forall_forall in Hall. now apply Hall.
Qed.

Lemma assemble_many_eq (a b : ChunkTranscription.t) (l : list ChunkTranscription.t)
    (options : AssemblyOptions) (first : ChunkTranscription.t)
    (others : list ChunkTranscription.t) :
  sortChunks (a :: b :: l) = first :: others ->
  assembleTranscriptions (a :: b :: l) options
  = let step :=
      chunkStep (overlapSecondsOf options) (removeOverlapDuplicatesOf options)
        (preserveTimestampsOf options) (S (List.length others)) in
    let acc :=
      fold_left step (combine (seq 1 (List.length others)) others)
        (step {| assembledText := EmptyString; assembledSegments := [];
                 totalProcessingTime := 0 |} (O, first)) in
    {| TranscriptionResult.text := JS.trim (assembledText acc);
       TranscriptionResult.segments :=
         if preserveTimestampsOf options
            && (0 <? List.length (assembledSegments acc))%nat
         then Some (assembledSegments acc) else None;
       TranscriptionResult.language := TranscriptionResult.language (result first);
       TranscriptionResult.model_used := TranscriptionResult.model_used (result first);
       TranscriptionResult.processing_time := totalProcessingTime acc |}.
Proof.
  intros Hs. unfold assembleTranscriptions. rewrite Hs. reflexivity.
Qed.

Lemma sortChunks_nonempty (a : ChunkTranscription.t) (l : list ChunkTranscription.t) :
  exists first others, sortChunks (a :: l) = first :: others.
Proof.
  pose proof (Permutation_length (sortChunks_perm (a :: l))) as H.
  destruct (sortChunks (a :: l)) as [|f o]; [discriminate | now exists f, o].
Qed.

(** X12.  When two or more chunks are assembled, the result takes its
    language and model from a chunk with the least index, and (with
    [preserveTimestamps]) its segments start with all the segments of that
    chunk, shifted by its offset, followed only by shifted segments of the
    other chunks; without [removeOverlapDuplicates] all of these follow, in
    the order of the chunk indices.  No segments are reported when none was
    assembled or [preserveTimestamps] is off. *)
Theorem assembled_segments_from_chunks (chunks : list ChunkTranscription.t)
    (options : AssemblyOptions) :
  (2 <= List.length chunks)%nat ->
  exists first others rest,
    sortChunks chunks = first :: others
    /\ Permutation (first :: others) chunks
    /\ (forall c, In c chunks -> (chunkIndex first <= chunkIndex c)%Z)
    /\ incl rest (flat_map shiftedSegments others)
    /\ (removeOverlapDuplicatesOf options = false ->
        rest = flat_map shiftedSegments others)
    /\ TranscriptionResult.segments (assembleTranscriptions chunks options)
       = (if preserveTimestampsOf options
          then match shiftedSegments first ++ rest with
               | [] => None
               | s :: l => Some (s :: l)
               end
          else None)
    /\ TranscriptionResult.language (assembleTranscriptions chunks options)
       = TranscriptionResult.language (result first)
    /\ TranscriptionResult.model_used (assembleTranscriptions chunks options)
       = TranscriptionResult.model_used (result first).
Proof.
  intros Hlen. destruct chunks as [|a [|b l]]; simpl in Hlen; try lia.
  destruct (sortChunks_nonempty a (b :: l)) as (first & others & Hs).
  destruct (sortChunks_least _ _ _ Hs) as [Hperm Hleast].
  rewrite (assemble_many_eq a b l options first others Hs). cbv zeta.
  cbn [TranscriptionResult.segments TranscriptionResult.language
       TranscriptionResult.model_used].
  set (ov := overlapSecondsOf options).
  set (rd := removeOverlapDuplicatesOf options).
  set (n := S (List.length others)).
  destruct (preserveTimestampsOf options) eqn:Hp.
  - set (acc1 := chunkStep ov rd true n _ (O, first)).
    destruct (loop_segments ov rd true n others 1 acc1) as (rest & Hrest & Hincl & Hall).
    assert (H1 : assembledSegments acc1 = shiftedSegments first).
    { unfold acc1. cbn [chunkStep assembledSegments].
      destruct (segmentsStep_appends ov rd true true (0 =? n - 1)%nat [] first)
        as (e & He & _ & Hfull).
      change (0 =? 0)%nat with true. rewrite He. simpl.
      apply Hfull; [|reflexivity]. cbn [negb]. apply andb_false_r. }
    exists first, others, rest. repeat split; trivial.
    + intros Hr. apply Hall; [exact Hr | reflexivity].
    + rewrite Hrest, H1. cbn [andb].
      destruct (shiftedSegments first ++ rest); reflexivity.
  - exists first, others, (flat_map shiftedSegments others).
    repeat split; trivial. apply incl_refl.
Qed.

Lemma assembled_segments_from_chunks_witness :
  exists first others rest,
    sortChunks [Scenario.chunkA1 "world2 foo"; Scenario.chunkA0 "hello world"]
    = first :: others
    /\ Permutation (first :: others)
         [Scenario.chunkA1 "world2 foo"; Scenario.chunkA0 "hello world"]
    /\ (forall c,
          In c [Scenario.chunkA1 "world2 foo"; Scenario.chunkA0 "hello world"] ->
          (chunkIndex first <= chunkIndex c)%Z)
    /\ incl rest (flat_map shiftedSegments others)
    /\ (removeOverlapDuplicatesOf Scenario.optionsA = false ->
        rest = flat_map shiftedSegments others)
    /\ TranscriptionResult.segments
         (assembleTranscriptions
            [Scenario.chunkA1 "world2 foo"; Scenario.chunkA0 "hello world"]
            Scenario.optionsA)
       = (if preserveTimestampsOf Scenario.optionsA
          then match shiftedSegments first ++ rest with
               | [] => None
               | s :: l => Some (s :: l)
               end
          else None)
    /\ TranscriptionResult.language
         (assembleTranscriptions
            [Scenario.chunkA1 "world2 foo"; Scenario.chunkA0 "hello world"]
            Scenario.optionsA)
       = TranscriptionResult.language (result first)
    /\ TranscriptionResult.model_used
         (assembleTranscriptions
            [Scenario.chunkA1 "world2 foo"; Scenario.chunkA0 "hello world"]
            Scenario.optionsA)
       = TranscriptionResult.model_used (result first).
Proof.
  apply (assembled_segments_from_chunks
           [Scenario.chunkA1 "world2 foo"; Scenario.chunkA0 "hello world"]
           Scenario.optionsA).
  simpl. lia.
Defined.

Lemma NoDup_map_injective {A B : Type} (f : A -> B) (l : list A) (x y : A) :
  NoDup (map f l) -> In x l -> In y l -> f x = f y -> x = y.
Proof.
  induction l as [|a l IH]; simpl; [intros _ []|].
  intros Hnd Hx Hy Hf. inversion Hnd as [|? ? Hnin Hnd']; subst.
  destruct Hx as [<-|Hx]; destruct Hy as [<-|Hy]; trivial.
  - exfalso. apply Hnin. rewrite Hf. now apply in_map.
  - exfalso. apply Hnin. rewrite <- Hf. now apply in_map.
  - now apply IH.
Qed.

(** Two lists sorted by index with the same elements and no repeated index
    are the same list. *)
Lemma sorted_perm_unique (l l' : list ChunkTranscription.t) :
  StronglySorted byIndex l -> StronglySorted byIndex l' ->
  Permutation l l' -> NoDup (map chunkIndex l) -> l = l'.
Proof.
  intros Hs. revert l'. induction Hs as [|x l Hl IH Hx]; intros l' Hs' Hp Hnd.
  - apply Permutation_nil in Hp. now subst.
  - destruct l' as [|y l'];
      [apply Permutation_sym, Permutation_nil in Hp; discriminate|].
    inversion Hs' as [|? ? Hl' Hy]; subst.
    assert (Hxy : x = y).
    { assert (Hxin : In x (y :: l')) by (eapply Permutation_in; [exact Hp | now left]).
      assert (Hyin : In y (x :: l))
        by (eapply Permutation_in; [exact (Permutation_sym Hp) | now left]).
      destruct Hxin as [->|Hxin]; [reflexivity|].
      destruct Hyin as [->|Hyin]; [reflexivity|].
      rewrite Forall_forall in Hx, Hy.
      specialize (Hx y Hyin). specialize (Hy x Hxin). unfold byIndex in *.
      apply (NoDup_map_injective chunkIndex (x :: l)); trivial;
        [now left | now right | lia]. }
    subst y. f_equal. apply IH; trivial.
    + now apply Permutation_cons_inv in Hp.
    + now inversion Hnd.
Qed.

(** X13.  The result does not depend on the order in which the chunks are
    passed, as long as no two of them have the same index. *)
Theorem assembly_ignores_input_order (chunks chunks' : list ChunkTranscription.t)
    (options : AssemblyOptions) :
  Permutation chunks chunks' ->
  NoDup (map chunkIndex chunks) ->
  assembleTranscriptions chunks options = assembleTranscriptions chunks' options.
Proof.
  intros Hp Hnd.
  assert (Hsort : sortChunks chunks = sortChunks chunks').
  { apply sorted_perm_unique; try apply sortChunks_sorted.
    - rewrite sortChunks_perm, Hp. symmetry. apply sortChunks_perm.
    - eapply Permutation_NoDup; [|exact Hnd].
      apply Permutation_map. symmetry. apply sortChunks_perm. }
  pose proof (Permutation_length Hp) as Hlen.
  destruct chunks as [|a [|b l]].
  - apply Permutation_nil in Hp. now subst.
  - apply Permutation_length_1_inv in Hp. now subst.
  - destruct chunks' as [|a' [|b' l']]; try discriminate.
    unfold assembleTranscriptions. now rewrite Hsort.
Qed.

Lemma assembly_ignores_input_order_witness :
  assembleTranscriptions
    [Scenario.chunkA0 "hello world"; Scenario.chunkA1 "world2 foo"] Scenario.optionsA
  = assembleTranscriptions
      [Scenario.chunkA1 "world2 foo"; Scenario.chunkA0 "hello world"] Scenario.optionsA.
Proof.
  apply assembly_ignores_input_order.
  - apply perm_swap.
  - repeat constructor; simpl; intuition discriminate.
Defined.

Lemma trimStart_no_leading (s : string) :
  startsWithWhiteSpace (JS.trimStart s) = false.
Proof.
  induction s as [|c r IH]; simpl; [reflexivity|].
  destruct (JS.isWhiteSpace c) eqn:Hc; [exact IH | simpl; exact Hc].
Qed.

Lemma trimEnd_no_trailing (s : string) :
  endsWithWhiteSpace (JS.trimEnd s) = false.
Proof.
  induction s as [|c r IH]; simpl; [reflexivity|].
  destruct (JS.trimEnd r) as [|c' r'] eqn:Hr.
  - destruct (JS.isWhiteSpace c) eqn:Hc; simpl; [reflexivity | exact Hc].
  - exact IH.
Qed.

Lemma trimEnd_keeps_head (s : string) :
  startsWithWhiteSpace s = false -> startsWithWhiteSpace (JS.trimEnd s) = false.
Proof.
  destruct s as [|c r]; simpl; [reflexivity|]. intros Hc.
  destruct (JS.trimEnd r); [rewrite Hc|]; simpl; trivial.
Qed.

Lemma trim_clean (s : string) :
  startsWithWhiteSpace (JS.trim s) = false
  /\ endsWithWhiteSpace (JS.trim s) = false.
Proof.
  unfold JS.trim. split.
  - apply trimEnd_keeps_head, trimStart_no_leading.
  - apply trimEnd_no_trailing.
Qed.

(** X14.  When two or more chunks are assembled, the text of the result
    neither starts nor ends with white space. *)
Theorem assembled_text_is_trimmed (chunks : list ChunkTranscription.t)
    (options : AssemblyOptions) :
  (2 <= List.length chunks)%nat ->
  startsWithWhiteSpace
    (TranscriptionResult.text (assembleTranscriptions chunks options)) = false
  /\ endsWithWhiteSpace
       (TranscriptionResult.text (assembleTranscriptions chunks options)) = false.
Proof.
  intros Hlen. destruct chunks as [|a [|b l]]; simpl in Hlen; try lia.
  unfold assembleTranscriptions. cbn [TranscriptionResult.text]. apply trim_clean.
Qed.

Lemma assembled_text_is_trimmed_witness :
  startsWithWhiteSpace
    (TranscriptionResult.text
       (assembleTranscriptions
          [Scenario.chunkA0 "  hello world"; Scenario.chunkA1 "world2 foo  "]
          Scenario.optionsA)) = false
  /\ endsWithWhiteSpace
       (TranscriptionResult.text
          (assembleTranscriptions
             [Scenario.chunkA0 "  hello world"; Scenario.chunkA1 "world2 foo  "]
             Scenario.optionsA)) = false.
Proof.
  apply assembled_text_is_trimmed. simpl. lia.
Defined.

End AssemblerPropertiesFacts.

(** ** Decimal round trips: labels and timestamps *)

Module RenderingFacts.

Import DiarizationAlignment AlignmentSpec RenderingProperties.

Lemma parseDigits_acc (d : Decimal.uint) (acc : positive) :
  JS.parseDigits (Zpos acc) (NilEmpty.string_of_uint d)
  = Zpos (Pos.of_uint_acc d acc).
Proof.
  revert acc. induction d; intros acc; cbn [NilEmpty.string_of_uint
    JS.parseDigits Pos.of_uint_acc]; [reflexivity | ..];
    rewrite <- IHd; f_equal; unfold JS.digitValue;
    try match goal with
        | |- context [Z.of_nat ?n] =>
            let v := eval vm_compute in (Z.of_nat n) in
            change (Z.of_nat n) with v
        end;
    lia.
Qed.

Lemma parseDigits_uint (d : Decimal.uint) :
  JS.parseDigits 0 (NilEmpty.string_of_uint d) = Z.of_N (Pos.of_uint d).
Proof.
  induction d; cbn [NilEmpty.string_of_uint JS.parseDigits Pos.of_uint];
    [reflexivity | exact IHd | ..]; apply (parseDigits_acc d).
Qed.

(** The digits that [decimal] writes denote the number. *)
Lemma parseDigits_decimal (z : Z) :
  (0 <= z)%Z -> JS.parseDigits 0 (JS.decimal z) = z.
Proof.
  intros Hz. destruct z as [|p|p]; [reflexivity | | lia].
  unfold JS.decimal. cbn [Z.to_int NilZero.string_of_int].
  unfold NilZero.string_of_uint.
  pose proof (DecimalPos.Unsigned.of_to p) as Hp.
  destruct (Pos.to_uint p) eqn:E; try (rewrite parseDigits_uint, Hp; reflexivity).
  discriminate Hp.
Qed.

Lemma parseDigits_zeros (n : nat) (s : string) :
  JS.parseDigits 0 (JS.repeatChar "0" n ++ s) = JS.parseDigits 0 s.
Proof. induction n as [|n IH]; [reflexivity | exact IH]. Qed.

Lemma parseDigits_padStart (w : nat) (z : Z) :
  (0 <= z)%Z -> JS.parseDigits 0 (JS.padStart w (JS.decimal z)) = z.
Proof.
  intros Hz. unfold JS.padStart. rewrite parseDigits_zeros.
  now apply parseDigits_decimal.
Qed.

Lemma parseDigits_toString (w : nat) (z : Z) :
  (0 <= z < 2 ^ 53)%Z -> JS.parseDigits 0 (JS.padStart w (JS.toString z)) = z.
Proof.
  intros Hz. rewrite JSFacts.toString_small by lia.
  apply parseDigits_padStart. lia.
Qed.

Lemma takeDigits_all (s : string) : allDigits s = true -> JS.takeDigits s = s.
Proof.
  induction s as [|c r IH]; simpl; [reflexivity|].
  destruct (JS.isDigit c); [|discriminate]. simpl. intros H. now rewrite IH.
Qed.

Lemma matchDigits_all (s : string) :
  allDigits s = true -> s <> EmptyString -> JS.matchDigits s = Some s.
Proof.
  destruct s as [|c r]; [congruence|]. intros H _.
  pose proof (takeDigits_all _ H) as Ht. simpl in *.
  destruct (JS.isDigit c); [|discriminate]. now rewrite Ht.
Qed.

Lemma padStart_nonempty (w : nat) (z : Z) :
  JS.padStart w (JS.decimal z) <> EmptyString.
Proof.
  unfold JS.padStart. pose proof (JSFacts.decimal_nonempty z).
  destruct (JS.repeatChar "0" (w - String.length (JS.decimal z))); [assumption|].
  discriminate.
Qed.

(** X15.  A label that is already in the normalised form is left as it is:
    for every number [0 <= n < 2^53] the label [speaker] followed by [n] on
    two digits at least is its own image; hence [normalizeSpeakerLabel] is
    idempotent on every label without a digit and on every label whose
    first run of digits denotes an integer below 2^53. *)
Theorem normalizeSpeakerLabel_idempotent :
  (forall n : Z,
     (0 <= n < 2 ^ 53)%Z ->
     normalizeSpeakerLabel ("speaker" ++ JS.padStart 2 (JS.decimal n))
     = ("speaker" ++ JS.padStart 2 (JS.decimal n))%string)
  /\ (forall label,
        safeLabel label = true ->
        normalizeSpeakerLabel (normalizeSpeakerLabel label)
        = normalizeSpeakerLabel label).
Proof.
  assert (Hfix : forall n : Z,
             (0 <= n < 2 ^ 53)%Z ->
             normalizeSpeakerLabel ("speaker" ++ JS.padStart 2 (JS.decimal n))
             = ("speaker" ++ JS.padStart 2 (JS.decimal n))%string).
  { intros n Hn. unfold normalizeSpeakerLabel at 1.
    set (ds := JS.padStart 2 (JS.decimal n)).
    change (JS.matchDigits ("speaker" ++ ds)) with (JS.matchDigits ds).
    assert (Hv : JS.parseDigits 0 ds = n)
      by (unfold ds; apply parseDigits_padStart; lia).
    rewrite matchDigits_all.
    - rewrite LabelFacts.parseInt_small by (rewrite Hv; lia).
      cbn [JS.numberToString]. rewrite Hv.
      rewrite JSFacts.toString_small by lia. reflexivity.
    - apply JSFacts.allDigits_padStart, JSFacts.allDigits_decimal. lia.
    - apply padStart_nonempty. }
  split; [exact Hfix|].
  intros label Hsafe. unfold safeLabel in Hsafe.
  unfold normalizeSpeakerLabel at 2 3.
  destruct (JS.matchDigits label) as [digits|].
  - apply Z.ltb_lt in Hsafe.
    pose proof (LabelFacts.parseDigits_nonneg digits 0 ltac:(lia)) as H0.
    rewrite LabelFacts.parseInt_small by exact Hsafe.
    cbn [JS.numberToString]. rewrite JSFacts.toString_small by lia.
    apply Hfix. lia.
  - destruct (LabelFacts.hash_bucket_range label) as [-> ?].
    rewrite JSFacts.toString_small by lia. apply Hfix. lia.
Qed.

Lemma normalizeSpeakerLabel_idempotent_witness :
  normalizeSpeakerLabel "speaker07" = "speaker07"
  /\ normalizeSpeakerLabel (normalizeSpeakerLabel "SPEAKER_123")
     = normalizeSpeakerLabel "SPEAKER_123".
Proof.
  split.
  - apply (proj1 normalizeSpeakerLabel_idempotent 7%Z). lia.
  - apply (proj2 normalizeSpeakerLabel_idempotent). reflexivity.
Defined.

Lemma string_app_inj (a a' b b' : string) :
  String.length a = String.length a' ->
  (a ++ b)%string = (a' ++ b')%string -> a = a' /\ b = b'.
Proof.
  revert a'. induction a as [|c a IH]; intros [|c' a']; simpl; try discriminate.
  - auto.
  - intros Hl Heq. injection Hl as Hl. injection Heq as -> Heq.
    destruct (IH a' Hl Heq) as [-> ->]. auto.
Qed.

Lemma milliseconds_fields (w ms : Z) :
  (0 <= ms < 1000)%Z ->
  ((w * 1000 + ms) / 3600000 = w / 3600
   /\ (w * 1000 + ms) / 60000 mod 60 = w mod 3600 / 60
   /\ (w * 1000 + ms) / 1000 mod 60 = w mod 60
   /\ (w * 1000 + ms) mod 1000 = ms)%Z.
Proof. intros H. repeat split; Z.div_mod_to_equations; lia. Qed.

Lemma milliseconds_determined (a a' : Z) :
  (a / 3600000 = a' / 3600000 ->
   a / 60000 mod 60 = a' / 60000 mod 60 ->
   a / 1000 mod 60 = a' / 1000 mod 60 ->
   a mod 1000 = a' mod 1000 -> a = a')%Z.
Proof. intros. Z.div_mod_to_equations. lia. Qed.

(** Both [formatTimestamp] functions render the whole seconds and the
    millisecond field. *)
Lemma formatTimestamp_render (seconds : Q) (useSRTFormat : bool) :
  Binary64.representable seconds -> 0 <= seconds ->
  seconds < Binary64.pow2 53 ->
  let total := (Qfloor seconds * 1000 + millisecondField seconds)%Z in
  TranscriptionAssembler.formatTimestamp seconds useSRTFormat
  = renderMilliseconds total useSRTFormat
  /\ DiarizationAlignment.formatTimestamp seconds useSRTFormat
     = renderMilliseconds total useSRTFormat
  /\ (0 <= Qfloor seconds < 2 ^ 53)%Z
  /\ (0 <= millisecondField seconds < 1000)%Z.
Proof.
  intros Hrep Hs H53. cbv zeta.
  destruct (TimestampFacts.formatTimestamp_shape seconds useSRTFormat Hrep Hs H53)
    as (Hfmt & Hw & _ & Hms).
  cbv zeta in Hfmt, Hw, Hms. fold (millisecondField seconds) in Hfmt, Hms.
  destruct (milliseconds_fields (Qfloor seconds) (millisecondField seconds) Hms)
    as (F1 & F2 & F3 & F4).
  assert (Hr : TranscriptionAssembler.formatTimestamp seconds useSRTFormat
               = renderMilliseconds
                   (Qfloor seconds * 1000 + millisecondField seconds)
                   useSRTFormat).
  { rewrite Hfmt. unfold renderMilliseconds. rewrite F1, F2, F3, F4.
    now destruct useSRTFormat. }
  split; [exact Hr|]. split; [|split; assumption].
  rewrite <- Hr. reflexivity.
Qed.

Lemma renderMilliseconds_injective (a a' : Z) (useSRTFormat : bool) :
  (0 <= a < 1000 * 2 ^ 53)%Z -> (0 <= a' < 1000 * 2 ^ 53)%Z ->
  renderMilliseconds a useSRTFormat = renderMilliseconds a' useSRTFormat ->
  a = a'.
Proof.
  intros Ha Ha' Heq. unfold renderMilliseconds in Heq.
  set (h := (a / 3600000)%Z) in *. set (h' := (a' / 3600000)%Z) in *.
  set (m := (a / 60000 mod 60)%Z) in *. set (m' := (a' / 60000 mod 60)%Z) in *.
  set (c := (a / 1000 mod 60)%Z) in *. set (c' := (a' / 1000 mod 60)%Z) in *.
  set (x := (a mod 1000)%Z) in *. set (x' := (a' mod 1000)%Z) in *.
  assert (Hh : (0 <= h < 2 ^ 53)%Z).
  { unfold h. split; [apply Z.div_pos; lia|].
    apply Z.div_lt_upper_bound; lia. }
  assert (Hh' : (0 <= h' < 2 ^ 53)%Z).
  { unfold h'. split; [apply Z.div_pos; lia|].
    apply Z.div_lt_upper_bound; lia. }
  assert (Hm : (0 <= m < 60)%Z) by (apply Z.mod_pos_bound; lia).
  assert (Hm' : (0 <= m' < 60)%Z) by (apply Z.mod_pos_bound; lia).
  assert (Hc : (0 <= c < 60)%Z) by (apply Z.mod_pos_bound; lia).
  assert (Hc' : (0 <= c' < 60)%Z) by (apply Z.mod_pos_bound; lia).
  assert (Hx : (0 <= x < 1000)%Z) by (apply Z.mod_pos_bound; lia).
  assert (Hx' : (0 <= x' < 1000)%Z) by (apply Z.mod_pos_bound; lia).
  pose proof (TimestampFacts.pad2_length m) as Lm.
  pose proof (TimestampFacts.pad2_length m') as Lm'.
  pose proof (TimestampFacts.pad2_length c) as Lc.
  pose proof (TimestampFacts.pad2_length c') as Lc'.
  pose proof (TimestampFacts.pad3_length x Hx) as Lx.
  pose proof (TimestampFacts.pad3_length x' Hx') as Lx'.
  assert (Hlen : String.length (JS.padStart 2 (JS.toString h))
                 = String.length (JS.padStart 2 (JS.toString h'))).
  { apply (f_equal String.length) in Heq.
    repeat (rewrite JSFacts.string_length_app in Heq; cbn [String.length] in Heq).
    rewrite Lm, Lm', Lc, Lc', Lx, Lx' in Heq by lia.
    destruct useSRTFormat; cbn [String.length] in Heq; lia. }
  destruct (string_app_inj _ _ _ _ Hlen Heq) as [Eh Heq1].
  injection Heq1 as Heq1.
  assert (Hlm : String.length (JS.padStart 2 (JS.toString m))
                = String.length (JS.padStart 2 (JS.toString m')))
    by (rewrite Lm, Lm'; lia).
  destruct (string_app_inj _ _ _ _ Hlm Heq1) as [Em Heq2].
  injection Heq2 as Heq2.
  assert (Hlc : String.length (JS.padStart 2 (JS.toString c))
                = String.length (JS.padStart 2 (JS.toString c')))
    by (rewrite Lc, Lc'; lia).
  destruct (string_app_inj _ _ _ _ Hlc Heq2) as [Ec Heq3].
  assert (Ex : JS.padStart 3 (JS.toString x) = JS.padStart 3 (JS.toString x'))
    by (destruct useSRTFormat; now injection Heq3).
  apply (f_equal (JS.parseDigits 0)) in Eh, Em, Ec, Ex.
  rewrite !parseDigits_toString in Eh, Em, Ec, Ex by lia.
  now apply milliseconds_determined.
Qed.

(** X16.  Two binary64 times in [0, 2^53) are rendered by [formatTimestamp]
    as the same string exactly when they have the same whole seconds and the
    same millisecond field: the rendering can be read back.  Times that are
    a second or more apart never share a timestamp.  This holds for both
    copies of the function. *)
Theorem formatTimestamp_same_iff_same_fields (s t : Q) (useSRTFormat : bool) :
  Binary64.representable s -> Binary64.representable t ->
  0 <= s -> s < Binary64.pow2 53 -> 0 <= t -> t < Binary64.pow2 53 ->
  (TranscriptionAssembler.formatTimestamp s useSRTFormat
   = TranscriptionAssembler.formatTimestamp t useSRTFormat
   <-> Qfloor s = Qfloor t /\ millisecondField s = millisecondField t)
  /\ (DiarizationAlignment.formatTimestamp s useSRTFormat
      = DiarizationAlignment.formatTimestamp t useSRTFormat
      <-> Qfloor s = Qfloor t /\ millisecondField s = millisecondField t)
  /\ (s + 1 <= t ->
      TranscriptionAssembler.formatTimestamp s useSRTFormat
      <> TranscriptionAssembler.formatTimestamp t useSRTFormat).
Proof.
  intros Hrs Hrt Hs Hs53 Ht Ht53.
  destruct (formatTimestamp_render s useSRTFormat Hrs Hs Hs53)
    as (A1 & D1 & Ws & Ms).
  destruct (formatTimestamp_render t useSRTFormat Hrt Ht Ht53)
    as (A2 & D2 & Wt & Mt).
  cbv zeta in A1, D1, A2, D2.
  assert (H : renderMilliseconds (Qfloor s * 1000 + millisecondField s) useSRTFormat
              = renderMilliseconds (Qfloor t * 1000 + millisecondField t)
                  useSRTFormat
              <-> Qfloor s = Qfloor t /\ millisecondField s = millisecondField t).
  { split.
    - intros Heq. apply renderMilliseconds_injective in Heq; lia.
    - intros [-> ->]. reflexivity. }
  rewrite A1, A2, D1, D2. split; [exact H|]. split; [exact H|].
  intros Hapart Heq. apply H in Heq. destruct Heq as [Hw _].
  pose proof (Qfloor_le s) as F1. pose proof (Qlt_floor t) as F2.
  rewrite <- Hw, inject_Z_plus in F2. change (inject_Z 1) with 1 in F2. lra.
Qed.

Lemma formatTimestamp_same_iff_same_fields_witness :
  TranscriptionAssembler.formatTimestamp Scenario.clock true
  <> TranscriptionAssembler.formatTimestamp Scenario.double435 true
  /\ TranscriptionAssembler.formatTimestamp Scenario.double435 false = "00:00:04.349".
Proof.
  assert (R1 : Binary64.representable Scenario.clock)
    by (repeat split; vm_compute; reflexivity).
  assert (R2 : Binary64.representable Scenario.double435)
    by (repeat split; vm_compute; reflexivity).
  split; [|reflexivity].
  intros H.
  apply (proj1 (formatTimestamp_same_iff_same_fields Scenario.clock
                  Scenario.double435 true R1 R2
                  ltac:(vm_compute; discriminate) ltac:(reflexivity)
                  ltac:(vm_compute; discriminate) ltac:(reflexivity))) in H.
  destruct H as [H _]. vm_compute in H. discriminate H.
Defined.

End RenderingFacts.

(** ** Health check: recommended model, diagnostics, speaker list *)

Module HealthCheckFacts.

Import HealthCheck.

Lemma includes_In (a : list string) (x : string) :
  JSArray.includes a x = true <-> In x a.
Proof.
  unfold JSArray.includes. rewrite existsb_exists. split.
  - intros (y & Hy & He). apply String.eqb_eq in He. now subst.
  - intros H. exists x. split; [exact H | apply String.eqb_refl].
Qed.

Lemma includes_not_In (a : list string) (x : string) :
  JSArray.includes a x = false <-> ~ In x a.
Proof.
  rewrite <- includes_In. destruct (JSArray.includes a x); split; congruence.
Qed.

Lemma firstAvailable_spec (candidates availableModels : list string) :
  match firstAvailable candidates availableModels with
  | Some model =>
      exists before after,
        candidates = before ++ model :: after
        /\ In model availableModels
        /\ forall x, In x before -> ~ In x availableModels
  | None => forall x, In x candidates -> ~ In x availableModels
  end.
Proof.
  induction candidates as [|c r IH]; simpl.
  - intros x [].
  - destruct (JSArray.includes availableModels c) eqn:Hc.
    + exists [], r. repeat split; [now apply includes_In | intros x []].
    + apply includes_not_In in Hc.
      destruct (firstAvailable r availableModels) as [m|].
      * destruct IH as (b & a & Hr & Hin & Hb).
        exists (c :: b), a. repeat split; trivial.
        -- simpl. now rewrite Hr.
        -- intros x [<-|Hx]; auto.
      * intros x [<-|Hx]; auto.
Qed.

(** X17.  The recommended model is always one of the available models when
    there is one, and [base.en] when there is none.  It is the first model
    of the priority list [base.en, tiny.en, small.en, base, small] that is
    available; when none of these is, it is the first available model. *)
Theorem recommended_model_is_available (availableModels : list string) :
  (availableModels = [] -> determineRecommendedModel availableModels = "base.en")
  /\ (availableModels <> [] ->
      In (determineRecommendedModel availableModels) availableModels)
  /\ ((exists m, In m priorities /\ In m availableModels) ->
      exists before after,
        priorities = before ++ determineRecommendedModel availableModels :: after
        /\ forall x, In x before -> ~ In x availableModels)
  /\ ((forall m, In m priorities -> ~ In m availableModels) ->
      forall first rest,
        availableModels = first :: rest ->
        determineRecommendedModel availableModels = first).
Proof.
  unfold determineRecommendedModel.
  pose proof (firstAvailable_spec priorities availableModels) as H.
  destruct (firstAvailable priorities availableModels) as [m|].
  - destruct H as (b & a & Hp & Hin & Hb). repeat split.
    + intros ->. destruct Hin.
    + intros _. exact Hin.
    + intros _. now exists b, a.
    + intros Hnone. exfalso. apply (Hnone m); [|exact Hin].
      rewrite Hp. apply in_or_app. right. now left.
  - repeat split.
    + intros ->. reflexivity.
    + destruct availableModels as [|f r]; [congruence | intros _; now left].
    + intros (x & Hx & Hxa). now destruct (H x Hx).
    + intros _ f r ->. reflexivity.
Qed.

Lemma recommended_model_is_available_witness :
  In (determineRecommendedModel [ "large-v3"; "small"; "tiny.en" ])
    [ "large-v3"; "small"; "tiny.en" ]
  /\ (exists before after,
        priorities
        = before ++ determineRecommendedModel [ "large-v3"; "small"; "tiny.en" ]
                 :: after
        /\ forall x, In x before -> ~ In x [ "large-v3"; "small"; "tiny.en" ])
  /\ determineRecommendedModel [ "large-v3"; "medium" ] = "large-v3".
Proof.
  split; [|split].
  - apply (proj1 (proj2 (recommended_model_is_available
                           [ "large-v3"; "small"; "tiny.en" ]))).
    discriminate.
  - apply (proj1 (proj2 (proj2 (recommended_model_is_available
                                  [ "large-v3"; "small"; "tiny.en" ])))).
    exists "tiny.en". split; simpl; tauto.
  - apply (proj2 (proj2 (proj2 (recommended_model_is_available
                                  [ "large-v3"; "medium" ])))
             ltac:(intros m Hm Hin; simpl in Hm, Hin;
                   intuition (subst; discriminate))
             "large-v3" [ "medium" ] eq_refl).
Defined.

(** X18.  The status reported by [generateDiagnostics] is [critical] exactly
    when whisper is not installed, otherwise [warning] without models and
    [healthy] with models; it is never left [unknown].  The list of issues
    is empty exactly when the status is [healthy], and installation details
    are only reported when whisper is not installed.  A recommended thread
    count is at most 4 and at most the available threads. *)
Theorem diagnostics_status (result : HealthCheckResult)
    (installationError : option string) :
  let d := generateDiagnostics result installationError in
  overall_status d
  = (if whisper_installed result
     then match models_available result with
          | [] => "warning"
          | _ :: _ => "healthy"
          end
     else "critical")
  /\ overall_status d <> "unknown"
  /\ (issues d = [] <-> overall_status d = "healthy")
  /\ (forall e, installation_details d = Some e ->
        whisper_installed result = false /\ installationError = Some e)
  /\ (forall t, recommended_threads d = Some t ->
        (t <= 4 /\ t <= threads_available (system_info result))%Z).
Proof.
  unfold generateDiagnostics, settleStatus, checkM1, checkModels, checkInstallation.
  destruct (whisper_installed result) eqn:Hi;
    destruct (models_available result) as [|m ms] eqn:Hm;
    destruct (String.eqb (arch (system_info result)) "arm64"
              && String.eqb (platform (system_info result)) "darwin") eqn:Ha;
    cbn; repeat split; intros; try discriminate; try congruence;
    try match goal with
        | H : Some _ = Some _ |- (_ <= _)%Z => injection H as <-; lia
        end;
    destruct installationError as [e'|]; try discriminate;
    destruct (JS.truthy e'); try discriminate; congruence.
Qed.

Lemma uniqueInOrder_spec (labels seen : list string) :
  NoDup (uniqueInOrder seen labels)
  /\ (forall x, In x (uniqueInOrder seen labels) <-> In x labels /\ ~ In x seen)
  /\ (List.length (uniqueInOrder seen labels) <= List.length labels)%nat.
Proof.
  revert seen. induction labels as [|y r IH]; intros seen; simpl.
  - split; [constructor|]. split; [|lia]. intros x. tauto.
  - destruct (JSArray.includes seen y) eqn:Hy.
    + apply includes_In in Hy. destruct (IH seen) as (Hnd & Hin & Hlen).
      split; [exact Hnd|]. split; [|lia]. intros x. rewrite Hin. split.
      * tauto.
      * intros [[<-|Hx] Hs]; [contradiction | tauto].
    + apply includes_not_In in Hy.
      destruct (IH (seen ++ [y])) as (Hnd & Hin & Hlen).
      split; [|split; [|simpl; lia]].
      * constructor; [|exact Hnd]. intros Hc. apply Hin in Hc.
        destruct Hc as [_ Hc]. apply Hc, in_or_app. right. now left.
      * intros x. split.
        -- intros [<-|Hx]; [tauto|]. apply Hin in Hx. destruct Hx as [Hx Hs].
           split; [now right|]. intros Hc. apply Hs, in_or_app. now left.
        -- intros [[<-|Hx] Hs]; [now left|].
           destruct (string_dec y x) as [->|Hne]; [now left | right].
           apply Hin. split; [exact Hx|]. intros Hc. apply in_app_or in Hc.
           destruct Hc as [Hc|[Hc|[]]]; [contradiction | congruence].
Qed.

(** X19.  The list of speakers reported beside the segments names every
    label of the segments exactly once, and no other; so the number of
    speakers is at most the number of segments. *)
Theorem uniqueSpeakers_exactly_once (segments : list SpeakerSegment.t) :
  NoDup (uniqueSpeakers segments)
  /\ (forall label,
        In label (uniqueSpeakers segments)
        <-> exists s, In s segments /\ SpeakerSegment.speaker s = label)
  /\ (List.length (uniqueSpeakers segments) <= List.length segments)%nat.
Proof.
  unfold uniqueSpeakers.
  destruct (uniqueInOrder_spec (map SpeakerSegment.speaker segments) [])
    as (Hnd & Hin & Hlen).
  repeat split; trivial.
  - intros Hx. apply Hin in Hx. destruct Hx as [Hx _].
    apply in_map_iff in Hx. destruct Hx as (s & Hs & Hi). now exists s.
  - intros (s & Hs & <-). apply Hin. split; [now apply in_map | intros []].
  - now rewrite length_map in Hlen.
Qed.

End HealthCheckFacts.

(** ** Command line of whisper and model files *)

Module WhisperIntegrationFacts.

Import WhisperIntegration.

Lemma includes_app (a b : list string) (x : string) :
  JSArray.includes (a ++ b) x = JSArray.includes a x || JSArray.includes b x.
Proof. unfold JSArray.includes. apply existsb_app. Qed.

(** X20.  [executeWhisper] finds the audio path again in the arguments that
    [buildWhisperArgs] built, as the element after the first [--file],
    provided the model path is not itself the string [--file] (then it finds
    [--file] instead). *)
Theorem audio_path_read_back (numberToString : Q -> string)
    (audioPath modelPath : string) (options : TranscribeOptions) :
  (modelPath <> "--file" ->
   audioPathOfArgs (buildWhisperArgs numberToString audioPath modelPath options)
   = Some audioPath)
  /\ (modelPath = "--file" ->
      audioPathOfArgs (buildWhisperArgs numberToString audioPath modelPath options)
      = Some "--file").
Proof.
  unfold audioPathOfArgs, buildWhisperArgs. cbn [app JSArray.indexOf].
  change (String.eqb "--model" "--file") with false.
  change (String.eqb "--file" "--file") with true. split.
  - intros Hne. apply String.eqb_neq in Hne. rewrite Hne. reflexivity.
  - intros ->. reflexivity.
Qed.

Lemma audio_path_read_back_witness :
  audioPathOfArgs
    (buildWhisperArgs (fun _ => "0") "/tmp/a.wav" "/models/ggml-base.en.bin"
       (mkTranscribeOptions None (Some Lang_en) (Some Format_json) None None
          None (Some true) None None))
  = Some "/tmp/a.wav".
Proof.
  apply (proj1 (audio_path_read_back (fun _ => "0") "/tmp/a.wav"
                  "/models/ggml-base.en.bin"
                  (mkTranscribeOptions None (Some Lang_en) (Some Format_json)
                     None None None (Some true) None None))).
  discriminate.
Defined.

(** The text of an integer never starts with two dashes. *)
Lemma decimal_not_flag (z : Z) (rest : string) :
  JS.decimal z <> String "-" (String "-" rest).
Proof.
  intros H. destruct z as [|p|p].
  - discriminate H.
  - pose proof (JSFacts.allDigits_decimal (Zpos p) ltac:(lia)) as Hd.
    rewrite H in Hd. discriminate Hd.
  - pose proof (JSFacts.allDigits_decimal (Zpos p) ltac:(lia)) as Hd.
    unfold JS.decimal in *. cbn [Z.to_int NilZero.string_of_int] in *.
    injection H as H. rewrite H in Hd. discriminate Hd.
Qed.

Lemma toString_not_flag (z : Z) (rest : string) :
  JS.toString z <> String "-" (String "-" rest).
Proof.
  unfold JS.toString. destruct (Z.abs z <? 2 ^ 53)%Z; [apply decimal_not_flag|].
  destruct (z <? 0)%Z eqn:Hneg.
  - apply Z.ltb_lt in Hneg.
    destruct (JSFacts.toStringLarge_head (- z) ltac:(lia)) as (c & r & -> & Hc).
    cbn [String.append]. intros H. injection H as -> _. discriminate Hc.
  - apply Z.ltb_ge in Hneg.
    destruct (JSFacts.toStringLarge_head z Hneg) as (c & r & -> & Hc).
    intros H. injection H as -> _. discriminate Hc.
Qed.

Lemma eqb_flag_toString (z : Z) (rest : string) :
  String.eqb (String "-" (String "-" rest)) (JS.toString z) = false.
Proof.
  apply String.eqb_neq. intros H. symmetry in H. exact (toString_not_flag _ _ H).
Qed.

Section Flags.

Variable numberToString : Q -> string.
Variables audioPath modelPath : string.
Variable options : TranscribeOptions.

(** Whether one of the two JSON flags is among the arguments only depends
    on the output flag. *)
Lemma includes_json_flag (flag rest : string) :
  flag = String "-" (String "-" rest) ->
  In flag [ "--output-json"; "--output-json-full" ] ->
  modelPath <> flag -> audioPath <> flag ->
  numberToString (orQ (temperature options) 0) <> flag ->
  JSArray.includes
    (buildWhisperArgs numberToString audioPath modelPath options) flag
  = String.eqb flag (outputFlag options).
Proof.
  intros Hshape Hin Hm Ha Ht.
  apply not_eq_sym in Hm, Ha, Ht. apply String.eqb_neq in Hm, Ha, Ht.
  unfold buildWhisperArgs, JSArray.includes.
  rewrite !existsb_app. cbn [existsb]. rewrite Hm, Ha, Ht.
  assert (Hz : forall z, String.eqb flag (JS.toString z) = false)
    by (intros z; rewrite Hshape; apply eqb_flag_toString).
  rewrite Hz.
  assert (Hlang : existsb (String.eqb flag)
                    match language options with
                    | Some Lang_auto | None => []
                    | Some l => [ "--language"; languageCode l ]
                    end = false).
  { destruct (language options) as [[]|]; destruct Hin as [<-|[<-|[]]];
      reflexivity. }
  assert (Hlen : existsb (String.eqb flag)
                   match max_len options with
                   | Some m =>
                       if negb (m =? 0)%Z && (0 <? m)%Z
                       then [ "--max-len"; JS.toString m ] else []
                   | None => []
                   end = false).
  { destruct (max_len options) as [m|]; [|reflexivity].
    destruct (negb (m =? 0)%Z && (0 <? m)%Z); [|reflexivity].
    cbn [existsb]. rewrite Hz. destruct Hin as [<-|[<-|[]]]; reflexivity. }
  rewrite Hlang, Hlen.
  destruct (isSet (translate options)); destruct (isSet (split_on_word options));
    cbn [existsb];
    destruct Hin as [<-|[<-|[]]]; cbn [orb];
    repeat match goal with
           | |- context [String.eqb ?a ?b] =>
               lazymatch b with
               | outputFlag _ => fail
               | _ => change (String.eqb a b) with false
               end
           end;
    cbn [orb]; now rewrite ?orb_false_r.
Qed.

End Flags.

(** X21.  [executeWhisper] treats the output as JSON exactly when word
    timestamps or the [json] output format were asked for, as long as the
    two paths and the rendered temperature are not themselves one of the two
    JSON flags. *)
Theorem json_expected_iff_requested (numberToString : Q -> string)
    (audioPath modelPath : string) (options : TranscribeOptions) :
  (forall flag, In flag [ "--output-json"; "--output-json-full" ] ->
     modelPath <> flag /\ audioPath <> flag
     /\ numberToString (orQ (temperature options) 0) <> flag) ->
  expectsJson (buildWhisperArgs numberToString audioPath modelPath options)
  = isSet (word_timestamps options)
    || match output_format options with
       | Some Format_json => true
       | _ => false
       end.
Proof.
  intros Hfree. unfold expectsJson.
  assert (H1 : In "--output-json" [ "--output-json"; "--output-json-full" ])
    by (simpl; tauto).
  assert (H2 : In "--output-json-full" [ "--output-json"; "--output-json-full" ])
    by (simpl; tauto).
  destruct (Hfree _ H1) as (M1 & A1 & T1). destruct (Hfree _ H2) as (M2 & A2 & T2).
  rewrite (includes_json_flag numberToString audioPath modelPath options
             "--output-json" "output-json" eq_refl H1 M1 A1 T1).
  rewrite (includes_json_flag numberToString audioPath modelPath options
             "--output-json-full" "output-json-full" eq_refl H2 M2 A2 T2).
  unfold outputFlag.
  destruct (isSet (word_timestamps options)); [reflexivity|].
  destruct (output_format options) as [[]|]; reflexivity.
Qed.

Lemma json_expected_iff_requested_witness :
  expectsJson
    (buildWhisperArgs (fun _ => "0") "/tmp/a.wav" "/models/ggml-base.en.bin"
       (mkTranscribeOptions None (Some Lang_en) (Some Format_json) None None
          None None None None))
  = true.
Proof.
  apply (json_expected_iff_requested (fun _ => "0") "/tmp/a.wav"
           "/models/ggml-base.en.bin"
           (mkTranscribeOptions None (Some Lang_en) (Some Format_json) None None
              None None None None)).
  intros flag [<-|[<-|[]]]; repeat split; discriminate.
Defined.

Lemma afterPrefix_app (pat rest : string) :
  JSArray.afterPrefix pat (pat ++ rest) = Some rest.
Proof.
  induction pat as [|c pat IH]; simpl; [reflexivity|].
  now rewrite Ascii.eqb_refl.
Qed.

Lemma removeFirst_eq (pat s : string) :
  JSArray.removeFirst pat s
  = match JSArray.afterPrefix pat s with
    | Some rest => rest
    | None =>
        match s with
        | EmptyString => EmptyString
        | String c r => String c (JSArray.removeFirst pat r)
        end
    end.
Proof. destruct s; reflexivity. Qed.

Lemma indexOfString_eq (pat s : string) :
  JSArray.indexOfString pat s
  = match JSArray.afterPrefix pat s with
    | Some _ => Some O
    | None =>
        match s with
        | EmptyString => None
        | String _ r => option_map S (JSArray.indexOfString pat r)
        end
    end.
Proof. destruct s; reflexivity. Qed.

(** When the first occurrence of [pat] in [a ++ pat ++ b] is the one after
    [a], removing the first occurrence leaves [a ++ b]. *)
Lemma removeFirst_at (pat b a : string) :
  JSArray.indexOfString pat (a ++ pat ++ b) = Some (String.length a) ->
  JSArray.removeFirst pat (a ++ pat ++ b) = (a ++ b)%string.
Proof.
  induction a as [|c a IH]; intros Hidx.
  - cbn [String.append]. now rewrite removeFirst_eq, afterPrefix_app.
  - cbn [String.append String.length] in *.
    rewrite indexOfString_eq in Hidx. rewrite removeFirst_eq.
    destruct (JSArray.afterPrefix pat (String c (a ++ pat ++ b)));
      [discriminate|].
    f_equal. apply IH.
    destruct (JSArray.indexOfString pat (a ++ pat ++ b)); [|discriminate].
    simpl in Hidx. congruence.
Qed.

Lemma endsWith_app (suffix a : string) :
  JSArray.endsWith suffix (a ++ suffix) = true.
Proof.
  induction a as [|c a IH]; cbn [String.append].
  - destruct suffix; simpl; now rewrite ?String.eqb_refl, ?Ascii.eqb_refl.
  - cbn [JSArray.endsWith]. rewrite IH.
    now destruct (String.eqb (String c (a ++ suffix)) suffix).
Qed.

(** X22.  The file name [getModelPath] gives a model ends in [.bin], and
    [getAvailableModels] recovers the model from it whenever the first
    [.bin] of [model.bin] is its last four characters; this is so for every
    model of the [WhisperModel] enumeration.  Every name it lists comes from
    a directory entry that ends in [.bin]. *)
Theorem model_name_round_trip :
  (forall model,
     JSArray.indexOfString ".bin" (model ++ ".bin") = Some (String.length model) ->
     modelNameOfFile (modelFileName model) = model
     /\ JSArray.endsWith ".bin" (modelFileName model) = true)
  /\ availableModelsOf (map modelFileName whisperModels) = whisperModels
  /\ (forall files name,
        In name (availableModelsOf files) ->
        exists file,
          In file files /\ JSArray.endsWith ".bin" file = true
          /\ name = modelNameOfFile file).
Proof.
  split; [|split].
  - intros model Hidx. split.
    + unfold modelNameOfFile, modelFileName.
      change (JSArray.removeFirst "ggml-" ("ggml-" ++ model ++ ".bin"))
        with (model ++ ".bin")%string.
      pose proof (removeFirst_at ".bin" "" model) as H.
      change (".bin" ++ "")%string with ".bin" in H.
      rewrite H by exact Hidx. apply AssemblerFacts.string_app_empty_r.
    + unfold modelFileName.
      replace ("ggml-" ++ model ++ ".bin")%string
        with (("ggml-" ++ model) ++ ".bin")%string
        by apply AssemblerFacts.string_app_assoc.
      apply endsWith_app.
  - reflexivity.
  - intros files name Hin. unfold availableModelsOf in Hin.
    apply in_map_iff in Hin. destruct Hin as (file & <- & Hf).
    apply filter_In in Hf. destruct Hf as [Hf He]. now exists file.
Qed.

Lemma model_name_round_trip_witness :
  modelNameOfFile (modelFileName "large-v3") = "large-v3"
  /\ JSArray.endsWith ".bin" (modelFileName "large-v3") = true.
Proof.
  apply (proj1 model_name_round_trip "large-v3"). reflexivity.
Defined.

(** A model whose name contains [.bin] is not recovered. *)
Example model_name_with_bin_is_not_recovered :
  modelNameOfFile (modelFileName "a.bin-q5") = "a-q5.bin".
Proof. reflexivity. Qed.

End WhisperIntegrationFacts.

(** ** Splitting a recording into chunks *)

Module SplitFacts.

Import AudioConverter SplitProperties.

Section Split.

Variable generateChunkPath : nat -> string.
Variable executeCommand : FfmpegCall -> Z.
Variables D ov total : Q.

Local Abbreviation loop := (splitLoop generateChunkPath executeCommand D ov total).
Local Abbreviation isCall := (isChunkCall generateChunkPath D ov total).

Lemma inject_succ (j : nat) :
  inject_Z (Z.of_nat (S j)) == inject_Z (Z.of_nat j) + 1.
Proof.
  rewrite Nat2Z.inj_succ. unfold Z.succ. rewrite inject_Z_plus. reflexivity.
Qed.

Lemma chunkStart_step (k : nat) :
  chunkStart D ov (S k) == chunkStart D ov k + (D - overlapFor ov k).
Proof.
  destruct k as [|j]; unfold overlapFor; cbn [chunkStart Nat.ltb Nat.leb].
  - change (inject_Z (Z.of_nat 0)) with 0. ring.
  - rewrite inject_succ. ring.
Qed.

Lemma overlapFor_le (k : nat) : 0 <= ov -> overlapFor ov k <= ov.
Proof. intros H. unfold overlapFor. destruct (0 <? k)%nat; lra. Qed.


Local Abbreviation inv := (splitInv generateChunkPath D ov total).

Hypothesis runs_succeed : forall c, executeCommand c = 0%Z.

(** One iteration, when every run of ffmpeg succeeds. *)
Lemma loop_step (fuel : nat) (st : SplitState) :
  startTime st < total ->
  loop (S fuel) st
  = loop fuel
      {| startTime := startTime st + (D - overlapFor ov (chunkIndex st));
         chunkIndex := S (chunkIndex st);
         outputPaths := outputPaths st ++ [generateChunkPath (chunkIndex st)];
         calls :=
           calls st
           ++ [ {| seekStart := startTime st;
                   duration :=
                     actualChunkDuration D ov total (startTime st) (chunkIndex st);
                   outputPath := generateChunkPath (chunkIndex st) |} ] |}.
Proof.
  intros Hlt. apply JSFacts.ltb_iff in Hlt. cbn [splitLoop]. rewrite Hlt.
  now rewrite runs_succeed.
Qed.

Lemma loop_stop (fuel : nat) (st : SplitState) :
  total <= startTime st -> loop fuel st = (Returned (outputPaths st), calls st).
Proof.
  intros Hle. apply JSFacts.ltb_false_iff in Hle.
  destruct fuel; cbn [splitLoop]; now rewrite Hle.
Qed.

Lemma inv_step (st : SplitState) :
  startTime st < total ->
  inv st ->
  inv {| startTime := startTime st + (D - overlapFor ov (chunkIndex st));
         chunkIndex := S (chunkIndex st);
         outputPaths := outputPaths st ++ [generateChunkPath (chunkIndex st)];
         calls :=
           calls st
           ++ [ {| seekStart := startTime st;
                   duration :=
                     actualChunkDuration D ov total (startTime st) (chunkIndex st);
                   outputPath := generateChunkPath (chunkIndex st) |} ] |}.
Proof.
  intros Hlt (Hs & Hc & Hp). unfold splitInv.
  cbn [startTime chunkIndex outputPaths calls].
  rewrite seq_S, map_app. cbn [Nat.add map]. repeat split.
  - rewrite chunkStart_step, Hs. reflexivity.
  - apply Forall2_app; [exact Hc|]. constructor; [|constructor].
    unfold isChunkCall. cbn [seekStart duration outputPath]. auto.
  - now rewrite Hp.
Qed.

(** If the loop returns, it has made the runs 0 to [n - 1] and stopped at
    the first start that is not before the end of the recording. *)
Lemma loop_returns_shape (fuel : nat) :
  forall st paths cs,
    inv st ->
    loop fuel st = (Returned paths, cs) ->
    exists n,
      (chunkIndex st <= n)%nat
      /\ paths = map generateChunkPath (seq 0 n)
      /\ Forall2 isCall (seq 0 n) cs
      /\ total <= chunkStart D ov n.
Proof.
  induction fuel as [|fuel IH]; intros st paths cs Hinv Hrun.
  - cbn [splitLoop] in Hrun.
    destruct (JS.ltb (startTime st) total) eqn:Hlt; [discriminate|].
    apply JSFacts.ltb_false_iff in Hlt. injection Hrun as <- <-.
    destruct Hinv as (Hs & Hc & Hp). exists (chunkIndex st).
    repeat split; trivial. now rewrite <- Hs.
  - destruct (JS.ltb (startTime st) total) eqn:Hlt.
    + apply JSFacts.ltb_iff in Hlt. rewrite (loop_step fuel st Hlt) in Hrun.
      destruct (IH _ _ _ (inv_step st Hlt Hinv) Hrun) as (n & Hn & H).
      exists n. split; [cbn [chunkIndex] in Hn; lia | exact H].
    + apply JSFacts.ltb_false_iff in Hlt. rewrite (loop_stop _ st Hlt) in Hrun.
      injection Hrun as <- <-.
      destruct Hinv as (Hs & Hc & Hp). exists (chunkIndex st).
      repeat split; trivial. now rewrite <- Hs.
Qed.

(** With a positive step the loop ends within [m] iterations when the rest
    of the recording is at most [m] steps long. *)
Lemma loop_terminates (m : nat) :
  0 <= ov -> ov < D ->
  forall st fuel,
    total - startTime st <= inject_Z (Z.of_nat m) * (D - ov) ->
    (m <= fuel)%nat ->
    exists paths cs, loop fuel st = (Returned paths, cs).
Proof.
  intros Hov Hstep. induction m as [|m IH]; intros st fuel Hrest Hfuel.
  - change (inject_Z (Z.of_nat 0)) with 0 in Hrest.
    exists (outputPaths st), (calls st). apply loop_stop. lra.
  - destruct (Qlt_le_dec (startTime st) total) as [Hlt|Hle].
    + destruct fuel as [|fuel]; [lia|]. rewrite (loop_step fuel st Hlt).
      apply IH; [|lia]. cbn [startTime].
      rewrite inject_succ in Hrest.
      pose proof (overlapFor_le (chunkIndex st) Hov). lra.
    + exists (outputPaths st), (calls st). now apply loop_stop.
Qed.

Lemma enough_steps :
  ov < D -> exists m : nat, total <= inject_Z (Z.of_nat m) * (D - ov).
Proof.
  intros Hstep.
  exists (Z.to_nat (Qceiling (total / (D - ov)))).
  assert (Hpos : 0 < D - ov) by lra.
  assert (Hq : total == total / (D - ov) * (D - ov))
    by (field; lra).
  rewrite Hq at 1. apply Qmult_le_compat_r; [|lra].
  eapply Qle_trans; [apply Qle_ceiling|]. rewrite <- Zle_Qle. lia.
Qed.

(** A result other than running out of fuel is also the result with more
    fuel. *)
Lemma loop_more_fuel (fuel : nat) :
  forall st paths cs fuel',
    loop fuel st = (Returned paths, cs) -> (fuel <= fuel')%nat ->
    loop fuel' st = (Returned paths, cs).
Proof.
  induction fuel as [|fuel IH]; intros st paths cs fuel' Hrun Hle.
  - cbn [splitLoop] in Hrun.
    destruct (JS.ltb (startTime st) total) eqn:Hlt; [discriminate|].
    apply JSFacts.ltb_false_iff in Hlt. injection Hrun as <- <-.
    apply (loop_stop fuel' st Hlt).
  - destruct (JS.ltb (startTime st) total) eqn:Hlt.
    + apply JSFacts.ltb_iff in Hlt. destruct fuel' as [|fuel']; [lia|].
      rewrite (loop_step fuel st Hlt) in Hrun. rewrite (loop_step fuel' st Hlt).
      apply (IH _ _ _ _ Hrun). lia.
    + apply JSFacts.ltb_false_iff in Hlt. rewrite (loop_stop _ st Hlt) in Hrun.
      now rewrite (loop_stop fuel' st Hlt).
Qed.

Lemma inv_start : inv splitStart.
Proof.
  unfold splitInv, splitStart. cbn [startTime chunkIndex outputPaths calls seq map].
  split; [reflexivity | split; [constructor | reflexivity]].
Qed.

(** Without a positive step the loop never ends. *)
Lemma loop_runs_forever (fuel : nat) :
  D <= ov -> D < total ->
  forall st, (1 <= chunkIndex st)%nat -> startTime st <= D ->
             fst (loop fuel st) = OutOfFuel.
Proof.
  intros Hstep Hlong. induction fuel as [|fuel IH]; intros st Hk Hs.
  - cbn [splitLoop]. assert (Hlt : startTime st < total) by lra.
    apply JSFacts.ltb_iff in Hlt. now rewrite Hlt.
  - assert (Hlt : startTime st < total) by lra.
    rewrite (loop_step fuel st Hlt). apply IH; cbn [chunkIndex startTime]; [lia|].
    unfold overlapFor. destruct (chunkIndex st); [lia|]. cbn. lra.
Qed.


End Split.

(** On a recording that exists and is longer than one chunk, [splitAudio]
    is the run of [getAudioInfo] followed by the loop. *)
Lemma splitAudio_long (generateChunkPath : nat -> string)
    (executeCommand : FfmpegCall -> Z) (existsSync : string -> bool)
    (probedDuration : string -> option Q) (D ov total : Q) (fuel : nat)
    (inputPath : string) :
  existsSync inputPath = true -> probedDuration inputPath = Some total ->
  D < total ->
  splitAudio generateChunkPath executeCommand existsSync probedDuration D ov
    fuel inputPath
  = (fst (splitLoop generateChunkPath executeCommand D ov total fuel splitStart),
     Probe inputPath
     :: map Cut
          (snd (splitLoop generateChunkPath executeCommand D ov total fuel
                  splitStart))).
Proof.
  intros Hex Hprobe Hlong. unfold splitAudio, getAudioInfo.
  rewrite Hex, Hprobe. cbn [negb].
  assert (Hq : Qle_bool total D = false).
  { destruct (Qle_bool total D) eqn:E; trivial. apply Qle_bool_iff in E. lra. }
  rewrite Hq. fold splitStart.
  now destruct (splitLoop generateChunkPath executeCommand D ov total fuel
                  splitStart).
Qed.

(** A whole number below 2^53 is a binary64 number. *)
Lemma round_whole (x : Q) (z : Z) :
  (0 <= z < 2 ^ 53)%Z -> x == inject_Z z -> Binary64.round x == x.
Proof.
  intros Hz Hx. rewrite (Binary64Facts.round_comp x (inject_Z z) Hx).
  rewrite Binary64Facts.round_int by exact Hz. symmetry. exact Hx.
Qed.

(** So is what is left of a binary64 number below 2^53 when a whole number
    is taken off. *)
Lemma round_less_whole (total x : Q) (z : Z) :
  Binary64.representable total -> total < Binary64.pow2 53 ->
  (0 <= z)%Z -> x == total - inject_Z z -> 0 <= x ->
  Binary64.round x == x.
Proof.
  intros Hrep H53 Hz Hx H0.
  assert (Ht : 0 <= total).
  { assert (0 <= inject_Z z)
      by (change 0 with (inject_Z 0); rewrite <- Zle_Qle; lia).
    lra. }
  destruct (TimestampFacts.seconds_grid total Hrep Ht H53)
    as (m & e & Hg & Hm & He).
  destruct (TimestampFacts.grid_sub total m e z Hg) as (m' & Hg' & Hm');
    [lia | exact Hz | lra |].
  apply (Binary64Facts.round_fixed x m' e); [|lia|lia].
  rewrite Hx. exact Hg'.
Qed.

(** With whole numbers of seconds for the chunk duration and the overlap,
    every sum and difference of an iteration of the loop is exact. *)
Lemma exact_step (D ov total : Q) (k : nat) :
  wholeNumber D -> wholeNumber ov -> Binary64.representable total ->
  total < Binary64.pow2 52 -> 0 <= ov -> ov < D -> D < total ->
  chunkStart D ov k < total -> exactStep D ov total k.
Proof.
  unfold wholeNumber. intros HD Hv Hrep H52 Hov Hlt Hlong Hk.
  set (d := Qfloor D) in *. set (v := Qfloor ov) in *.
  assert (P52 : Binary64.pow2 52 == inject_Z (2 ^ 52))
    by (apply Binary64Facts.pow2_Z; lia).
  assert (P53 : total < Binary64.pow2 53).
  { apply Qlt_trans with (Binary64.pow2 52); [exact H52|].
    apply Binary64Facts.pow2_lt. lia. }
  assert (Hv0 : (0 <= v)%Z).
  { rewrite Zle_Qle. rewrite Hv. exact Hov. }
  assert (Hvd : (v < d)%Z).
  { rewrite Zlt_Qlt. rewrite Hv, HD. exact Hlt. }
  assert (Hd52 : (d < 2 ^ 52)%Z).
  { rewrite Zlt_Qlt. rewrite HD, <- P52. lra. }
  set (cz := match k with
             | O => 0%Z
             | S j => (d + Z.of_nat j * (d - v))%Z
             end).
  set (oz := if (0 <? k)%nat then v else 0%Z).
  assert (Hc : chunkStart D ov k == inject_Z cz).
  { unfold cz. destruct k as [|j]; cbn [chunkStart]; [reflexivity|].
    rewrite inject_Z_plus, inject_Z_mult. unfold Z.sub.
    rewrite inject_Z_plus, inject_Z_opp, HD, Hv. reflexivity. }
  assert (Ho : overlapFor ov k == inject_Z oz).
  { unfold overlapFor, oz.
    destruct (0 <? k)%nat; [symmetry; exact Hv|reflexivity]. }
  assert (Hc52 : (cz < 2 ^ 52)%Z).
  { rewrite Zlt_Qlt. rewrite <- Hc, <- P52. lra. }
  assert (Hcz : (0 <= cz /\ oz <= cz /\ 0 <= oz <= v)%Z).
  { unfold cz, oz. destruct k as [|j]; cbn [Nat.ltb Nat.leb]; [lia|].
    assert (0 <= Z.of_nat j * (d - v))%Z by (apply Z.mul_nonneg_nonneg; lia).
    lia. }
  assert (Hrest : 0 <= total - inject_Z cz) by (rewrite <- Hc; lra).
  assert (Hoq : 0 <= inject_Z oz)
    by (change 0 with (inject_Z 0); rewrite <- Zle_Qle; lia).
  unfold exactStep. cbv zeta. repeat split.
  - apply (round_whole _ (d + oz)); [lia|].
    rewrite inject_Z_plus, HD, Ho. reflexivity.
  - apply (round_less_whole total _ cz Hrep P53); [lia| |].
    + rewrite Hc. reflexivity.
    + rewrite Hc. exact Hrest.
  - apply (round_less_whole total _ (cz - oz) Hrep P53); [lia| |].
    + unfold Z.sub. rewrite inject_Z_plus, inject_Z_opp, Hc, Ho. ring.
    + rewrite Hc, Ho. lra.
  - apply (round_whole _ (d - oz)); [lia|].
    unfold Z.sub. rewrite inject_Z_plus, inject_Z_opp, HD, Ho. reflexivity.
  - apply (round_whole _ (cz + (d - oz))); [lia|].
    unfold Z.sub. rewrite !inject_Z_plus, inject_Z_opp, HD, Ho, Hc. reflexivity.
Qed.

Lemma calls_before_end (P : nat -> FfmpegCall -> Prop) (n : nat) :
  forall (a : nat) (cs : list FfmpegCall),
    Forall2 P (seq a n) cs ->
    forall k, (a <= k < a + n)%nat -> exists c, P k c.
Proof.
  induction n as [|n IH]; intros a cs H k Hk; [lia|].
  cbn [seq] in H. inversion H as [|x c l l' Hx Hl]; subst.
  destruct (Nat.eq_dec k a) as [->|Hne]; [now exists c|].
  apply (IH (S a) l' Hl). lia.
Qed.

(** X23.  Let the chunk duration and the overlap be whole numbers of
    seconds and the recording shorter than 2^52 seconds: the sums and
    differences of every iteration of the loop are then exact in binary64
    (last part of the statement).  When every run of ffmpeg succeeds, the
    overlap is not negative and smaller than the chunk duration, and the
    recording is longer than one chunk, [splitAudio] returns: with enough
    fuel the loop ends after [n] runs, [n >= 2], and returns the [n] chunk
    paths in order.  After the run of [getAudioInfo], run [k] seeks to 0 for
    the first chunk, to the chunk duration for the second, and a chunk
    duration minus the overlap further for each later one; [n] is the first
    index whose start is not before the end of the recording. *)
Theorem split_returns_chunk_plan (generateChunkPath : nat -> string)
    (executeCommand : FfmpegCall -> Z) (existsSync : string -> bool)
    (probedDuration : string -> option Q) (D ov total : Q) (inputPath : string) :
  existsSync inputPath = true -> probedDuration inputPath = Some total ->
  (forall c, executeCommand c = 0%Z) ->
  wholeNumber D -> wholeNumber ov ->
  Binary64.representable total -> total < Binary64.pow2 52 ->
  0 <= ov -> ov < D -> D < total ->
  exists fuel n cs,
    (forall fuel', (fuel <= fuel')%nat ->
       splitAudio generateChunkPath executeCommand existsSync probedDuration
         D ov fuel' inputPath
       = (Returned (map generateChunkPath (seq 0 n)),
          Probe inputPath :: map Cut cs))
    /\ (2 <= n)%nat
    /\ Forall2 (isChunkCall generateChunkPath D ov total) (seq 0 n) cs
    /\ total <= chunkStart D ov n
    /\ (forall k, (k < n)%nat -> exactStep D ov total k).
Proof.
  intros Hex Hprobe Hruns HD Hv Hrep H52 Hov Hstep Hlong.
  destruct (enough_steps D ov total Hstep) as (m & Hm).
  destruct (loop_terminates generateChunkPath executeCommand D ov total Hruns m
              Hov Hstep splitStart m) as (paths & cs & Hrun).
  { cbn [startTime splitStart]. lra. }
  { lia. }
  destruct (loop_returns_shape generateChunkPath executeCommand D ov total Hruns
              m splitStart paths cs
              (inv_start generateChunkPath D ov total) Hrun)
    as (n & _ & Hp & Hc & Hn).
  exists m, n, cs. split; [|split; [|split; [exact Hc|split; [exact Hn|]]]].
  - intros fuel' Hle.
    rewrite (splitAudio_long generateChunkPath executeCommand existsSync
               probedDuration D ov total fuel' inputPath Hex Hprobe Hlong).
    rewrite (loop_more_fuel generateChunkPath executeCommand D ov total Hruns
               m splitStart paths cs fuel' Hrun Hle).
    cbn [fst snd]. now rewrite Hp.
  - destruct n as [|[|n]]; [| |lia].
    + cbn [chunkStart] in Hn. lra.
    + cbn [chunkStart] in Hn. change (inject_Z (Z.of_nat 0)) with 0 in Hn. lra.
  - intros k Hk.
    destruct (calls_before_end _ n 0 cs Hc k) as (c & Hs & Hlt & _); [lia|].
    apply exact_step; trivial. rewrite <- Hs. exact Hlt.
Qed.

Lemma split_returns_chunk_plan_witness :
  exists fuel n cs,
    (forall fuel', (fuel <= fuel')%nat ->
       splitAudio (fun k => JS.toString (Z.of_nat k)) (fun _ => 0%Z)
         (fun _ => true) (fun _ => Some 1500) 600 30 fuel' "a.wav"
       = (Returned (map (fun k => JS.toString (Z.of_nat k)) (seq 0 n)),
          Probe "a.wav" :: map Cut cs))
    /\ (2 <= n)%nat
    /\ Forall2 (isChunkCall (fun k => JS.toString (Z.of_nat k)) 600 30 1500)
         (seq 0 n) cs
    /\ 1500 <= chunkStart 600 30 n
    /\ (forall k, (k < n)%nat -> exactStep 600 30 1500 k).
Proof.
  apply (split_returns_chunk_plan (fun k => JS.toString (Z.of_nat k))
           (fun _ => 0%Z) (fun _ => true) (fun _ => Some 1500) 600 30 1500
           "a.wav").
  - reflexivity.
  - reflexivity.
  - reflexivity.
  - reflexivity.
  - reflexivity.
  - repeat split; vm_compute; reflexivity.
  - reflexivity.
  - vm_compute. discriminate.
  - reflexivity.
  - reflexivity.
Defined.



(** X25.  When the overlap is not smaller than the chunk duration and every
    run of ffmpeg succeeds, the loop of [splitAudio] never ends on a
    recording longer than one chunk: whatever the fuel, the model is still
    running when it is used up. *)
Theorem split_never_ends_on_large_overlap (generateChunkPath : nat -> string)
    (executeCommand : FfmpegCall -> Z) (existsSync : string -> bool)
    (probedDuration : string -> option Q) (D ov total : Q) (inputPath : string)
    (fuel : nat) :
  existsSync inputPath = true -> probedDuration inputPath = Some total ->
  (forall c, executeCommand c = 0%Z) ->
  0 < D -> D <= ov -> D < total ->
  fst (splitAudio generateChunkPath executeCommand existsSync probedDuration
         D ov fuel inputPath)
  = OutOfFuel.
Proof.
  intros Hex Hprobe Hruns Hpos Hstep Hlong.
  rewrite (splitAudio_long generateChunkPath executeCommand existsSync
             probedDuration D ov total fuel inputPath Hex Hprobe Hlong).
  cbn [fst].
  assert (H0 : startTime splitStart < total) by (cbn [startTime splitStart]; lra).
  destruct fuel as [|fuel].
  - cbn [splitLoop]. apply JSFacts.ltb_iff in H0. now rewrite H0.
  - rewrite (loop_step generateChunkPath executeCommand D ov total Hruns fuel
               splitStart H0).
    apply (loop_runs_forever generateChunkPath executeCommand D ov total Hruns
             fuel Hstep Hlong); cbn [chunkIndex startTime splitStart overlapFor].
    + lia.
    + cbn. lra.
Qed.

Lemma split_never_ends_on_large_overlap_witness :
  fst (splitAudio (fun k => JS.toString (Z.of_nat k)) (fun _ => 0%Z)
         (fun _ => true) (fun _ => Some 200) 60 120 1000 "a.wav")
  = OutOfFuel.
Proof.
  apply (split_never_ends_on_large_overlap (fun k => JS.toString (Z.of_nat k))
           (fun _ => 0%Z) (fun _ => true) (fun _ => Some 200) 60 120 200).
  - reflexivity.
  - reflexivity.
  - reflexivity.
  - reflexivity.
  - vm_compute. discriminate.
  - reflexivity.
Defined.


Lemma loop_outcomes (generateChunkPath : nat -> string)
    (executeCommand : FfmpegCall -> Z) (D ov total : Q) (fuel : nat) :
  forall st r cs,
    Forall (fun c => executeCommand c = 0%Z) (calls st) ->
    List.length (outputPaths st) = List.length (calls st) ->
    splitLoop generateChunkPath executeCommand D ov total fuel st = (r, cs) ->
    match r with
    | Returned paths =>
        Forall (fun c => executeCommand c = 0%Z) cs
        /\ List.length paths = List.length cs
    | Threw code =>
        code = "SPLITTING_FAILED"
        /\ exists before failed,
             cs = before ++ [failed]
             /\ executeCommand failed <> 0%Z
             /\ Forall (fun c => executeCommand c = 0%Z) before
    | OutOfFuel => Forall (fun c => executeCommand c = 0%Z) cs
    end.
Proof.
  induction fuel as [|fuel IH]; intros st r cs Hok Hlen Hrun;
    cbn [splitLoop] in Hrun;
    destruct (JS.ltb (startTime st) total).
  - injection Hrun as <- <-. exact Hok.
  - injection Hrun as <- <-. now split.
  - match type of Hrun with
    | (if negb (executeCommand ?c =? 0)%Z then _ else _) = _ =>
        set (call := c) in *; destruct (executeCommand call =? 0)%Z eqn:He
    end; cbn [negb] in Hrun.
    + apply Z.eqb_eq in He. apply (IH _ _ _) in Hrun; trivial;
        cbn [calls outputPaths].
      * apply Forall_app. split; [exact Hok | now repeat constructor].
      * rewrite !length_app. cbn [List.length]. lia.
    + apply Z.eqb_neq in He. injection Hrun as <- <-.
      split; [reflexivity|]. now exists (calls st), call.
  - injection Hrun as <- <-. now split.
Qed.

(** X27.  [splitAudio] throws [FILE_NOT_FOUND] without running ffmpeg when
    the input does not exist.  Otherwise its first run is the one of
    [getAudioInfo]; when the duration read from it (0 when none can be
    read) is not longer than one chunk, it returns the input itself without
    a further run.  Otherwise, if it returns, every run of the loop has
    succeeded and there is one path per run; if it throws, the code is
    [SPLITTING_FAILED], the last run is the one that failed and no run was
    made after it. *)
Theorem split_failure_behaviour (generateChunkPath : nat -> string)
    (executeCommand : FfmpegCall -> Z) (existsSync : string -> bool)
    (probedDuration : string -> option Q) (D ov : Q) (fuel : nat)
    (inputPath : string) :
  (existsSync inputPath = false ->
   splitAudio generateChunkPath executeCommand existsSync probedDuration D ov
     fuel inputPath
   = (Threw "FILE_NOT_FOUND", []))
  /\ (existsSync inputPath = true ->
      let total :=
        match probedDuration inputPath with
        | Some d => d
        | None => 0
        end in
      getAudioInfo existsSync probedDuration inputPath
      = (Info total, [Probe inputPath])
      /\ (total <= D ->
          splitAudio generateChunkPath executeCommand existsSync probedDuration
            D ov fuel inputPath
          = (Returned [inputPath], [Probe inputPath]))
      /\ (forall r runs,
            D < total ->
            splitAudio generateChunkPath executeCommand existsSync
              probedDuration D ov fuel inputPath
            = (r, runs) ->
            exists cs,
              runs = Probe inputPath :: map Cut cs
              /\ match r with
                 | Returned paths =>
                     Forall (fun c => executeCommand c = 0%Z) cs
                     /\ List.length paths = List.length cs
                 | Threw code =>
                     code = "SPLITTING_FAILED"
                     /\ exists before failed,
                          cs = before ++ [failed]
                          /\ executeCommand failed <> 0%Z
                          /\ Forall (fun c => executeCommand c = 0%Z) before
                 | OutOfFuel => Forall (fun c => executeCommand c = 0%Z) cs
                 end)).
Proof.
  split.
  - intros Hex. unfold splitAudio. now rewrite Hex.
  - intros Hex total.
    assert (Hinfo : getAudioInfo existsSync probedDuration inputPath
                    = (Info total, [Probe inputPath]))
      by (unfold getAudioInfo; now rewrite Hex).
    split; [exact Hinfo|]. split.
    + intros Hle. unfold splitAudio. rewrite Hinfo, Hex. cbn [negb].
      apply Qle_bool_iff in Hle. now rewrite Hle.
    + intros r runs Hlong Hrun. unfold splitAudio in Hrun.
      rewrite Hinfo, Hex in Hrun. cbn [negb] in Hrun.
      assert (Hq : Qle_bool total D = false).
      { destruct (Qle_bool total D) eqn:E; trivial.
        apply Qle_bool_iff in E. lra. }
      rewrite Hq in Hrun. fold splitStart in Hrun.
      destruct (splitLoop generateChunkPath executeCommand D ov total fuel
                  splitStart) as [outcome cs] eqn:Hloop.
      injection Hrun as <- <-. exists cs. split; [reflexivity|].
      apply (loop_outcomes generateChunkPath executeCommand D ov total fuel
               splitStart outcome cs); trivial; constructor.
Qed.

Lemma split_failure_behaviour_witness :
  splitAudio (fun k => JS.toString (Z.of_nat k))
    (fun c => if Qeq_bool (seekStart c) 600 then 1%Z else 0%Z)
    (fun _ => true) (fun _ => Some 1500) 600 30 5 "a.wav"
  = (Threw "SPLITTING_FAILED",
     [ Probe "a.wav"; Cut (mkFfmpegCall 0 600 "0");
       Cut (mkFfmpegCall 600 630 "1") ])
  /\ exists cs,
       [ Probe "a.wav"; Cut (mkFfmpegCall 0 600 "0");
         Cut (mkFfmpegCall 600 630 "1") ]
       = Probe "a.wav" :: map Cut cs
       /\ "SPLITTING_FAILED" = "SPLITTING_FAILED"
       /\ exists before failed,
            cs = before ++ [failed]
            /\ (if Qeq_bool (seekStart failed) 600 then 1%Z else 0%Z) <> 0%Z
            /\ Forall
                 (fun c => (if Qeq_bool (seekStart c) 600 then 1%Z else 0%Z) = 0%Z)
                 before.
Proof.
  split; [reflexivity|].
  apply (proj2 (proj2 (proj2 (split_failure_behaviour
                                (fun k => JS.toString (Z.of_nat k))
                                (fun c =>
                                   if Qeq_bool (seekStart c) 600 then 1%Z else 0%Z)
                                (fun _ => true) (fun _ => Some 1500) 600 30 5
                                "a.wav")
                         ltac:(reflexivity)))
           (Threw "SPLITTING_FAILED")
           [ Probe "a.wav"; Cut (mkFfmpegCall 0 600 "0");
             Cut (mkFfmpegCall 600 630 "1") ]).
  - reflexivity.
  - reflexivity.
Defined.

End SplitFacts.

(** ** Renderings *)

Module RenderingHeaderFacts.

Lemma fold_append_prefix {A : Type} (f : A -> string) (l : list A) (init : string) :
  exists body,
    fold_left (fun out x => (out ++ f x)%string) l init = (init ++ body)%string.
Proof.
  revert init. induction l as [|x l IH]; intros init; simpl.
  - exists EmptyString. now rewrite AssemblerFacts.string_app_empty_r.
  - destruct (IH (init ++ f x)%string) as (body & ->).
    exists (f x ++ body)%string. now rewrite AssemblerFacts.string_app_assoc.
Qed.

Lemma fold_left_ext_string {A : Type} (g h : string -> A -> string)
    (l : list A) (init : string) :
  (forall out x, g out x = h out x) -> fold_left g l init = fold_left h l init.
Proof.
  intros Hgh. revert init. induction l as [|x l IH]; intros init; simpl;
    [reflexivity|]. now rewrite Hgh, IH.
Qed.

(** X28.  Every WebVTT rendering, of a transcription result with or without
    segments and of a list of speaker segments, starts with the line
    [WEBVTT] followed by an empty line. *)
Theorem vtt_starts_with_header :
  (forall result : TranscriptionResult.t,
     exists body,
       TranscriptionAssembler.formatAsVTT result
       = ("WEBVTT" ++ JS.newline ++ JS.newline ++ body)%string)
  /\ (forall segments : list SpeakerSegment.t,
        exists body,
          DiarizationAlignment.formatAsVTTWithSpeakers segments
          = ("WEBVTT" ++ JS.newline ++ JS.newline ++ body)%string).
Proof.
  split.
  - intros result. unfold TranscriptionAssembler.formatAsVTT.
    destruct (TranscriptionResult.segments result) as [[|s l]|];
      try (eexists; reflexivity).
    unfold TranscriptionAssembler.cues.
    match goal with
    | |- exists body, fold_left ?g ?l ?init = _ =>
        destruct (fold_append_prefix
                    (fun x : nat * Segment.t =>
                       let '(index, segment) := x in
                       (TranscriptionAssembler.cueNumber index ++ JS.newline
                        ++ TranscriptionAssembler.formatTimestamp
                             (Segment.start segment) false
                        ++ " --> "
                        ++ TranscriptionAssembler.formatTimestamp
                             (Segment.end_ segment) false
                        ++ JS.newline ++ Segment.text segment ++ JS.newline
                        ++ JS.newline)%string) l init) as (body & Hb)
    end.
    exists body. etransitivity; [|etransitivity; [exact Hb | reflexivity]].
    apply fold_left_ext_string.
    intros out [index segment]. reflexivity.
  - intros segments. unfold DiarizationAlignment.formatAsVTTWithSpeakers.
    match goal with
    | |- exists body, fold_left ?g ?l ?init = _ =>
        destruct (fold_append_prefix
                    (fun x : nat * SpeakerSegment.t =>
                       let '(index, segment) := x in
                       (DiarizationAlignment.cueNumber index ++ JS.newline
                        ++ DiarizationAlignment.formatTimestamp
                             (SpeakerSegment.start segment) false
                        ++ " --> "
                        ++ DiarizationAlignment.formatTimestamp
                             (SpeakerSegment.end_ segment) false
                        ++ JS.newline ++ "<v " ++ SpeakerSegment.speaker segment
                        ++ ">" ++ SpeakerSegment.text segment ++ "</v>"
                        ++ JS.newline ++ JS.newline)%string) l init) as (body & Hb)
    end.
    exists body. etransitivity; [|etransitivity; [exact Hb | reflexivity]].
    apply fold_left_ext_string.
    intros out [index segment]. reflexivity.
Qed.

End RenderingHeaderFacts.
